(** * ValidationObserver (src/components/Observer.ts)

    A shallow embedding of the observer component of vee-validate and the
    properties of its registry, aggregation and fan-out operations.

    Vocabulary.  The spec calls an observer a scope and a provider a member;
    its [activeMembers], [inactiveCache], [nestedScopes], [aggregateErrors]
    and [aggregateFlags] are the fields [refs], [inactiveRefs], [observers],
    [errors] and [flags] of the component, and its kinds "member" and
    "scope" are the strings ['provider'] and ['observer'].

    Modelling conventions.
    - [refs], [inactiveRefs] and the argument of [setErrors] are plain
      objects used as dictionaries: a [gmap] holds their own properties.
      [values], [Object.keys] and [$delete] see own properties only and
      enumerate them in the order of [map_to_list]; statements that must not
      depend on the enumeration order are phrased with membership.
    - The code reads [refs] and [inactiveRefs] with [obj[key]], which goes up
      the prototype chain when [key] is not an own property: a key that is a
      property of [Object.prototype] reads as something that is neither a
      provider nor a snapshot ([lookup_ref], [lookup_inactive]).  It writes
      [inactiveRefs] and the recomputed [errors] with [obj[key] = value],
      which for the key [__proto__] replaces the prototype of the object
      instead of defining a property: that prototype is the field
      [inactivePrototype] of an observer and the component [prototype] of an
      errors object ([JsObject]).  [refs] is rebuilt by an object literal
      with a computed key and a spread, which define own properties whatever
      the key.
    - Vue attaches its observer to a reactive object under the
      non-enumerable property [__ob__]; that property is not modelled, and
      the statements about keys that are not registered leave that name out.
    - Provider instances are mutable objects shared between the observer and
      the rest of the application: they live in a heap indexed by locations,
      and [refs] stores locations.  A snapshot holds the values the provider
      had when it was taken.
    - Child observers are stored by value in the [observers] list of their
      parent, so an observer is a finite tree.
    - The provider component is not part of this development: its methods are
      the fields of the class [ProviderImpl], every call to one of them is
      recorded in a trace, and its effect on the heap is the one the
      implementation at hand gives.  What a provider method throws is not
      modelled.
    - A method of the observer is a function of the receiver and the heap
      that returns its value, the receiver and the heap after the call, and
      the trace of the calls it made.  [setErrors] is the one method of the
      observer that can throw by itself (it calls a method of what it read
      from [refs]); its value says whether it did.
    - [validate] is asynchronous: the model keeps the calls it issues, which
      are all issued before it awaits, and how it settles given how the
      providers' promises settle; what a provider does to itself while it
      validates is outside the model.
    - The watcher is modelled by its watched expression ([recompute]) and
      its callback ([onChange]).  The callback is debounced: in a sequence
      of registry calls it runs at the points marked [WatcherFires].
    - [OBSERVER_COUNTER] is a natural number without an upper bound. *)

From stdpp Require Import gmap strings list fin_maps pretty.

#[local] Set Warnings "-register-all".

(** ** Flags *)

Inductive Flag :=
  | pristine | dirty | touched | untouched | valid | invalid
  | pending | validated | changed | passed | failed.

#[global] Instance Flag_eq_dec : EqDecision Flag.
Proof. solve_decision. Defined.

Definition Flag_to_nat (f : Flag) : nat :=
  match f with
  | pristine => 0 | dirty => 1 | touched => 2 | untouched => 3
  | valid => 4 | invalid => 5 | pending => 6 | validated => 7
  | changed => 8 | passed => 9 | failed => 10
  end.

Definition Flag_of_nat (n : nat) : option Flag :=
  match n with
  | 0 => Some pristine | 1 => Some dirty | 2 => Some touched
  | 3 => Some untouched | 4 => Some valid | 5 => Some invalid
  | 6 => Some pending | 7 => Some validated | 8 => Some changed
  | 9 => Some passed | 10 => Some failed | _ => None
  end.

#[global] Instance Flag_countable : Countable Flag.
Proof. apply (inj_countable Flag_to_nat Flag_of_nat). by intros []. Defined.

(** A flags object: [f !! flag = None] is a missing property, which reads
    as [undefined]. *)
Abbreviation ValidationFlags := (gmap Flag bool).

(** Truthiness of [flags[flag]]. *)
Definition truthy (v : option bool) : bool := default false v.

(** The two array methods named in the strategy table. *)
Inductive Strategy := every | some.

Definition FLAGS_STRATEGIES : list (Flag * Strategy) :=
  [ (pristine, every); (dirty, some); (touched, some); (untouched, every);
    (valid, every); (invalid, some); (pending, some); (validated, every);
    (changed, some); (passed, every); (failed, some) ].

Definition array_method {A} (method : Strategy) (f : A → bool) (l : list A) : bool :=
  match method with
  | every => forallb f l
  | some => existsb f l
  end.

(** ** Providers and the heap *)

Definition loc := positive.

Module Provider.
(** Modelled from the spec: the type of a provider instance is declared
    outside the sources at hand.  These are the properties the observer
    reads, with the types section 6 of the spec gives them. *)
Record t := mk {
  id : string;
  flags : ValidationFlags;
  errors : list string;
  failedRules : gmap string (list string);
  disabled : bool;
  persist : bool
}.

Definition set_flags (f : ValidationFlags) (p : t) : t :=
  mk (id p) f (errors p) (failedRules p) (disabled p) (persist p).
Definition set_errors (e : list string) (p : t) : t :=
  mk (id p) (flags p) e (failedRules p) (disabled p) (persist p).
Definition set_failedRules (r : gmap string (list string)) (p : t) : t :=
  mk (id p) (flags p) (errors p) r (disabled p) (persist p).
End Provider.

#[global] Instance Provider_inhabited : Inhabited Provider.t :=
  populate (Provider.mk "" ∅ [] ∅ false false).

Abbreviation Heap := (gmap loc Provider.t).

Module InactiveRefCache.
(** Modelled from the spec: the type is declared outside the sources at
    hand.  The fields are those of the object [removeProvider] builds for a
    persistent provider, typed as the provider's. *)
Record t := mk {
  id : string;
  flags : ValidationFlags;
  errors : list string;
  failedRules : gmap string (list string)
}.
End InactiveRefCache.

Module ValidationResult.
(** Modelled from the spec: the type is declared outside the sources at
    hand.  The observer reads [valid] only. *)
Record t := mk { valid : bool; errors : list string }.
End ValidationResult.

(** How a promise settles. *)
Inductive Settled (A : Type) :=
  | Fulfilled (a : A)
  | Rejected.
Arguments Fulfilled {A} a.
Arguments Rejected {A}.

(** ** Objects written by assignment *)

Module JsObject.
(** An object that starts as [{}] and is written by assignments
    [o[key] = value] only, all of whose values are objects: its own
    properties, and the object that has taken the place of
    [Object.prototype] as its prototype, if any.  The properties of such a
    prototype are taken to be plain data properties (an assignment under
    the name of an accessor it had would reach that accessor instead). *)
Record t (V : Type) := mk {
  own : gmap string V;
  prototype : option V
}.
Arguments mk {V} own prototype.
Arguments own {V} _.
Arguments prototype {V} _.

(** [o[key] = value].  [__proto__] is an accessor of [Object.prototype]:
    assigning an object under that name replaces the prototype of [o] and
    defines no property. *)
Definition set {V} (key : string) (value : V) (o : t V) : t V :=
  if decide (key = "__proto__") then mk (own o) (Some value)
  else mk (<[key := value]> (own o)) (prototype o).

(** [o[key]], as far as it reads what [set] has written: an own property,
    and for [__proto__] the prototype that replaced [Object.prototype]. *)
Definition get {V} (key : string) (o : t V) : option V :=
  if decide (key = "__proto__") then prototype o else own o !! key.
End JsObject.

#[global] Instance JsObject_empty {V} : Empty (JsObject.t V) := JsObject.mk ∅ None.
#[global] Instance JsObject_lookup {V} : Lookup string V (JsObject.t V) := JsObject.get.

(** ** Observers *)

(** The value stored under an id of an [errors] object: the messages of a
    provider, or the [errors] object of a child observer. *)
Inductive ErrVal :=
  | Msgs (l : list string)
  | ById (m : JsObject.t ErrVal).

Module Observer.
(** [inactivePrototype] is the snapshot that an assignment
    [this.inactiveRefs['__proto__'] = {...}] has made the prototype of
    [inactiveRefs]; it is [None] as long as that prototype is
    [Object.prototype]. *)
Inductive t := mk {
  id : string;
  refs : gmap string loc;
  observers : list t;
  inactiveRefs : gmap string InactiveRefCache.t;
  inactivePrototype : option InactiveRefCache.t;
  errors : JsObject.t ErrVal;
  flags : ValidationFlags;
  disabled : bool
}.

Definition set_refs (r : gmap string loc) (s : t) : t :=
  mk (id s) r (observers s) (inactiveRefs s) (inactivePrototype s) (errors s) (flags s)
    (disabled s).
Definition set_observers (o : list t) (s : t) : t :=
  mk (id s) (refs s) o (inactiveRefs s) (inactivePrototype s) (errors s) (flags s)
    (disabled s).
Definition set_inactiveRefs (c : gmap string InactiveRefCache.t) (s : t) : t :=
  mk (id s) (refs s) (observers s) c (inactivePrototype s) (errors s) (flags s)
    (disabled s).
Definition set_inactivePrototype (c : option InactiveRefCache.t) (s : t) : t :=
  mk (id s) (refs s) (observers s) (inactiveRefs s) c (errors s) (flags s) (disabled s).
Definition set_errors (e : JsObject.t ErrVal) (s : t) : t :=
  mk (id s) (refs s) (observers s) (inactiveRefs s) (inactivePrototype s) e (flags s)
    (disabled s).
Definition set_flags (f : ValidationFlags) (s : t) : t :=
  mk (id s) (refs s) (observers s) (inactiveRefs s) (inactivePrototype s) (errors s) f
    (disabled s).
End Observer.

(** [data()] followed by the two props the model keeps. *)
Definition data (vid : string) (disabled : bool) : Observer.t :=
  Observer.mk vid ∅ [] ∅ None ∅ ∅ disabled.

(** [values(obj)] and [Object.keys(obj)]. *)
Definition values {V} (m : gmap string V) : list V := (map_to_list m).*2.
Definition keys {V} (m : gmap string V) : list string := (map_to_list m).*1.

(** ** Reading a dictionary by key *)

(** The names of the properties of [Object.prototype]. *)
Definition Object_prototype : list string :=
  [ "constructor"; "__defineGetter__"; "__defineSetter__"; "hasOwnProperty";
    "__lookupGetter__"; "__lookupSetter__"; "isPrototypeOf"; "propertyIsEnumerable";
    "toString"; "valueOf"; "__proto__"; "toLocaleString" ].

(** What [obj[key]] reads when it is not a value that was stored under
    [key]: a property of [Object.prototype] (a function, and for
    [__proto__] the object [Object.prototype] itself), or a field of the
    snapshot that has become the prototype of [inactiveRefs]. *)
Inductive Foreign :=
  | Inherited (name : string)
  | SnapshotId (id : string)
  | SnapshotFlags (flags : ValidationFlags)
  | SnapshotErrors (errors : list string)
  | SnapshotFailedRules (failedRules : gmap string (list string)).

Inductive Reading (V : Type) :=
  | Stored (v : V)
  | Other (x : Foreign)
  | Undefined.
Arguments Stored {V} v.
Arguments Other {V} x.
Arguments Undefined {V}.

(** [!reading]: objects and functions are truthy, a string is falsy when
    it is empty. *)
Definition falsy {V} (r : Reading V) : bool :=
  match r with
  | Undefined => true
  | Other (SnapshotId id) => String.eqb id ""
  | Stored _ | Other _ => false
  end.

Definition from_Object_prototype {V} (key : string) : Reading V :=
  if bool_decide (key ∈ Object_prototype) then Other (Inherited key) else Undefined.

(** [this.refs[key]] *)
Definition lookup_ref (refs : gmap string loc) (key : string) : Reading loc :=
  match refs !! key with
  | Some provider => Stored provider
  | None => from_Object_prototype key
  end.

(** [proto[key]] for the snapshot [proto], whose own properties are its
    four fields and whose prototype is [Object.prototype]. *)
Definition from_snapshot {V} (proto : InactiveRefCache.t) (key : string) : Reading V :=
  if String.eqb key "id" then Other (SnapshotId (InactiveRefCache.id proto))
  else if String.eqb key "flags" then Other (SnapshotFlags (InactiveRefCache.flags proto))
  else if String.eqb key "errors" then Other (SnapshotErrors (InactiveRefCache.errors proto))
  else if String.eqb key "failedRules"
       then Other (SnapshotFailedRules (InactiveRefCache.failedRules proto))
  else from_Object_prototype key.

(** [this.inactiveRefs[key]].  When a snapshot has replaced the prototype,
    the accessor [__proto__] returns that snapshot. *)
Definition lookup_inactive (s : Observer.t) (key : string) : Reading InactiveRefCache.t :=
  match Observer.inactiveRefs s !! key with
  | Some state => Stored state
  | None =>
      match Observer.inactivePrototype s with
      | Some proto => if String.eqb key "__proto__" then Stored proto
                      else from_snapshot proto key
      | None => from_Object_prototype key
      end
  end.

(** [this.inactiveRefs[id] = state].  Without an own property of that
    name, the assignment under [__proto__] goes to the accessor. *)
Definition assign_inactive (id : string) (state : InactiveRefCache.t) (s : Observer.t)
  : Observer.t :=
  if String.eqb id "__proto__" && bool_decide (Observer.inactiveRefs s !! id = None)
  then Observer.set_inactivePrototype (Some state) s
  else Observer.set_inactiveRefs (<[id := state]> (Observer.inactiveRefs s)) s.

(** ** Effects *)

(** The calls the observer makes on its collaborators.
    [CallSetFlagsForeign provider x] is the call [provider.setFlags(x.flags)]
    and [CallApplyResultForeign provider x] the call
    [provider.applyResult(x)] for an [x] that is not a snapshot; [x.flags]
    is then [undefined], unless [x] is a [failedRules] object with a rule
    named [flags]. *)
Inductive Event :=
  | CallSetFlags (provider : loc) (f : ValidationFlags)
  | CallApplyResult (provider : loc) (state : InactiveRefCache.t)
  | CallSetFlagsForeign (provider : loc) (x : Foreign)
  | CallApplyResultForeign (provider : loc) (x : Foreign)
  | CallSetErrors (provider : loc) (msgs : list string)
  | CallReset (provider : loc)
  | CallValidate (provider : loc)
  | CallValidateSilent (provider : loc)
  | Warn (msg : string).

(** The provider methods the observer calls.  The synchronous ones act on
    the provider; a validation is given by the way its promise settles. *)
Class ProviderImpl := {
  prov_setFlags : ValidationFlags → Provider.t → Provider.t;
  prov_applyResult : InactiveRefCache.t → Provider.t → Provider.t;
  prov_setFlagsForeign : Foreign → Provider.t → Provider.t;
  prov_applyResultForeign : Foreign → Provider.t → Provider.t;
  prov_setErrors : list string → Provider.t → Provider.t;
  prov_reset : Provider.t → Provider.t;
  prov_validate : Provider.t → Settled ValidationResult.t;
  prov_validateSilent : Provider.t → Settled ValidationResult.t
}.

(** The outcome of a method: its return value, the receiver and the heap
    after the call, and the calls made on the way. *)
Record Result (A : Type) := mkResult {
  value : A;
  this : Observer.t;
  heap : Heap;
  trace : list Event
}.
Arguments mkResult {A} value this heap trace.
Arguments value {A} r.
Arguments this {A} r.
Arguments heap {A} r.
Arguments trace {A} r.

Definition Method (A : Type) := Observer.t → Heap → Result A.

#[global] Instance Method_ret : MRet Method :=
  λ A a s h, mkResult a s h [].

#[global] Instance Method_bind : MBind Method :=
  λ A B k m s h,
    let r := m s h in
    let r' := k (value r) (this r) (heap r) in
    mkResult (value r') (this r') (heap r') (trace r ++ trace r').

(** Reading and writing the fields of [this]. *)
Definition get {A} (f : Observer.t → A) : Method A := λ s h, mkResult (f s) s h [].
Definition modify (f : Observer.t → Observer.t) : Method unit :=
  λ s h, mkResult tt (f s) h [].

(** Reading a provider object. *)
Definition read (l : loc) : Method Provider.t := λ s h, mkResult (h !!! l) s h [].

(** The [kind] argument of [subscribe] and [unsubscribe]: ['provider'] (the
    default) or ['observer'].  [subscribe] receives the subscriber together
    with its kind: a provider instance, or an observer. *)
Inductive Kind := kind_provider | kind_observer.

Inductive Subscriber :=
  | AsProvider (subscriber : loc)
  | AsObserver (subscriber : Observer.t).

(** [findIndex(arr, pred)], with [None] for [-1]. *)
Definition findIndex {A} (p : A → bool) (l : list A) : option nat :=
  fst <$> list_find (λ x, p x = true) l.

(** How a method of the observer completes: normally, or by throwing the
    [TypeError] of a call to something that is not a function. *)
Inductive Completion := Normal | TypeError.

(** What happens to the registry: a call of [subscribe], a call of
    [unsubscribe], or a run of the watcher's callback. *)
Inductive Op :=
  | Subscribe (sub : Subscriber)
  | Unsubscribe (id : string) (kind : Kind)
  | WatcherFires.

(** ** The watcher of [created] *)

(** What the watched expression reads of each element of [vms]. *)
Record VM := mkVM {
  vm_id : string;
  vm_errors : ErrVal;
  vm_flags : ValidationFlags
}.

Definition vm_of_provider (p : Provider.t) : VM :=
  mkVM (Provider.id p) (Msgs (Provider.errors p)) (Provider.flags p).
Definition vm_of_inactive (c : InactiveRefCache.t) : VM :=
  mkVM (InactiveRefCache.id c) (Msgs (InactiveRefCache.errors c)) (InactiveRefCache.flags c).
Definition vm_of_observer (o : Observer.t) : VM :=
  mkVM (Observer.id o) (ById (Observer.errors o)) (Observer.flags o).

(** [[...values(this.refs), ...values(this.inactiveRefs), ...this.observers]] *)
Definition vms (s : Observer.t) (h : Heap) : list VM :=
  ((λ l, vm_of_provider (h !!! l)) <$> values (Observer.refs s))
  ++ (vm_of_inactive <$> values (Observer.inactiveRefs s))
  ++ (vm_of_observer <$> Observer.observers s).

(** The loop [errors[vm.id] = vm.errors] on [errors = {}]. *)
Definition collect_errors (vms : list VM) : JsObject.t ErrVal :=
  foldl (λ errors vm, JsObject.set (vm_id vm) (vm_errors vm) errors) ∅ vms.

(** [FLAGS_STRATEGIES.forEach(([flag, method]) => flags[flag] = vms[method](vm => vm.flags[flag]))] *)
Definition collect_flags (vms : list VM) : ValidationFlags :=
  foldl (λ flags '(flag, method),
           <[flag := array_method method (λ vm, truthy (vm_flags vm !! flag)) vms]> flags)
        ∅ FLAGS_STRATEGIES.

(** The watched expression. *)
Definition recompute (s : Observer.t) (h : Heap) : JsObject.t ErrVal * ValidationFlags :=
  let vms := vms s h in
  (collect_errors vms, collect_flags vms).

(** The watcher's callback, once the debounce delay has passed. *)
Definition onChange (r : JsObject.t ErrVal * ValidationFlags) (s : Observer.t) : Observer.t :=
  Observer.set_flags r.2 (Observer.set_errors r.1 s).

Section Observer.
Context {impl : ProviderImpl}.
(** [process.env.NODE_ENV] *)
Variable NODE_ENV : string.

(** What a call does to the heap. *)
Definition effect (e : Event) (h : Heap) : Heap :=
  match e with
  | CallSetFlags l f => <[l := prov_setFlags f (h !!! l)]> h
  | CallApplyResult l st => <[l := prov_applyResult st (h !!! l)]> h
  | CallSetFlagsForeign l x => <[l := prov_setFlagsForeign x (h !!! l)]> h
  | CallApplyResultForeign l x => <[l := prov_applyResultForeign x (h !!! l)]> h
  | CallSetErrors l msgs => <[l := prov_setErrors msgs (h !!! l)]> h
  | CallReset l => <[l := prov_reset (h !!! l)]> h
  | CallValidate _ | CallValidateSilent _ | Warn _ => h
  end.

Definition perform (e : Event) : Method unit :=
  λ s h, mkResult tt s (effect e h) [e].

(** [arr.forEach(f)] for a callback acting on [this] and the heap. *)
Definition forEach {A} (f : A → Method unit) : list A → Method unit :=
  fix go l :=
    match l with
    | [] => mret tt
    | x :: l' => f x;; go l'
    end.

(** [this.observers.forEach(o => o.m())] where [os] is [this.observers]:
    each child is the receiver of its own call and is stored back. *)
Section ForEachObserver.
Variable m : Observer.t → Heap → Result unit.

Fixpoint observers_loop (os : list Observer.t) (h : Heap)
  : list Observer.t * Heap * list Event :=
  match os with
  | [] => ([], h, [])
  | o :: os' =>
      let r := m o h in
      let '(os'', h'', t) := observers_loop os' (heap r) in
      (this r :: os'', h'', trace r ++ t)
  end.

Definition forEachObserver (os : list Observer.t) : Method unit :=
  λ s h,
    let r := observers_loop os h in
    mkResult tt (Observer.set_observers r.1.1 s) r.1.2 r.2.
End ForEachObserver.

(** *** restoreProviderState *)
Definition restoreProviderState (provider : loc) : Method unit :=
  p ← read provider;
  let id := Provider.id p in
  state ← get (λ s, lookup_inactive s id);
  if falsy state then mret tt
  else
    match state with
    | Stored state =>
        perform (CallSetFlags provider (InactiveRefCache.flags state));;
        perform (CallApplyResult provider state)
    | Other x =>
        perform (CallSetFlagsForeign provider x);;
        perform (CallApplyResultForeign provider x)
    | Undefined => mret tt
    end;;
    p' ← read provider;
    modify (λ s, Observer.set_inactiveRefs
                   (delete (Provider.id p') (Observer.inactiveRefs s)) s).

(** *** subscribe *)
Definition subscribe (sub : Subscriber) : Method unit :=
  match sub with
  | AsObserver o =>
      modify (λ s, Observer.set_observers (Observer.observers s ++ [o]) s)
  | AsProvider l =>
      p ← read l;
      modify (λ s, Observer.set_refs (<[Provider.id p := l]> (Observer.refs s)) s);;
      if Provider.persist p then restoreProviderState l else mret tt
  end.

(** *** removeProvider *)
Definition persist_warning : string :=
  "Please provide a `vid` or a `name` prop when using `persist`, there might be unexpected issues otherwise.".

(** For a [provider] that is not one ([Other]) the property [persist]
    reads [undefined], and [$delete] finds no own property to delete.  The
    snapshot shares the flags, errors and failed rules objects of the
    provider; the model keeps their values at that moment, which are what
    the snapshot holds as long as nothing writes into these objects while
    the provider is away. *)
Definition removeProvider (id : string) : Method unit :=
  provider ← get (λ s, lookup_ref (Observer.refs s) id);
  match provider with
  | Undefined => mret tt
  | Other _ => mret tt
  | Stored provider =>
      p ← read provider;
      (if Provider.persist p then
         (if negb (String.eqb NODE_ENV "production") && String.prefix "_vee_" id
          then perform (Warn persist_warning) else mret tt);;
         modify (assign_inactive id
                   (InactiveRefCache.mk id (Provider.flags p) (Provider.errors p)
                      (Provider.failedRules p)))
       else mret tt);;
      modify (λ s, Observer.set_refs (delete id (Observer.refs s)) s)
  end.

(** *** unsubscribe *)
Definition unsubscribe (id : string) (kind : Kind) : Method unit :=
  match kind with
  | kind_provider => removeProvider id
  | kind_observer =>
      os ← get Observer.observers;
      match findIndex (λ o, String.eqb (Observer.id o) id) os with
      | Some idx => modify (Observer.set_observers (delete idx os))
      | None => mret tt
      end
  end.

(** *** Sequences of registry calls *)
Definition step (op : Op) : Method unit :=
  match op with
  | Subscribe sub => subscribe sub
  | Unsubscribe id kind => unsubscribe id kind
  | WatcherFires => λ s h, mkResult tt (onChange (recompute s h) s) h []
  end.

Definition run (ops : list Op) : Method unit := forEach step ops.
End Observer.

Section Orchestration.
Context {impl : ProviderImpl}.

(** *** reset

    The steps before the loop over the children do not assign
    [this.observers], so the list the loop reads is the one of the
    receiver at entry (lemma [reset_prefix_observers]). *)
Fixpoint reset (s : Observer.t) : Heap → Result unit :=
  (inactiveRefs ← get Observer.inactiveRefs;
   forEach (λ key, modify (λ s, Observer.set_inactiveRefs
                                  (delete key (Observer.inactiveRefs s)) s))
           (keys inactiveRefs);;
   refs ← get Observer.refs;
   forEach (λ ref, perform (CallReset ref)) (values refs);;
   forEachObserver reset (Observer.observers s)) s.

(** *** setErrors

    [provider.setErrors] is [undefined] on what [this.refs[key]] reads
    when it is not a provider, and calling it throws; the exception leaves
    [forEach] and the method.  As in [reset], the loop over the children
    reads the list of the receiver at entry: the loop over the keys leaves
    the receiver as it is (lemma [forEachUntil_setErrors_sound]). *)
Definition forEachUntil {A} (f : A → Method Completion) : list A → Method Completion :=
  fix go l :=
    match l with
    | [] => mret Normal
    | x :: l' => c ← f x; match c with Normal => go l' | TypeError => mret TypeError end
    end.

Section ForEachObserverUntil.
Variable m : Observer.t → Heap → Result Completion.

Fixpoint observers_loop_until (os : list Observer.t) (h : Heap)
  : list Observer.t * Heap * list Event * Completion :=
  match os with
  | [] => ([], h, [], Normal)
  | o :: os' =>
      let r := m o h in
      match value r with
      | TypeError => (this r :: os', heap r, trace r, TypeError)
      | Normal =>
          let '(os'', h'', t, c) := observers_loop_until os' (heap r) in
          (this r :: os'', h'', trace r ++ t, c)
      end
  end.

Definition forEachObserverUntil (os : list Observer.t) : Method Completion :=
  λ s h,
    let r := observers_loop_until os h in
    mkResult r.2 (Observer.set_observers r.1.1.1 s) r.1.1.2 r.1.2.
End ForEachObserverUntil.

Definition setErrors_key (errors : gmap string (list string)) (key : string)
  : Method Completion :=
  provider ← get (λ s, lookup_ref (Observer.refs s) key);
  match provider with
  | Undefined => mret Normal
  | Other _ => mret TypeError
  | Stored provider =>
      perform (CallSetErrors provider (default [] (errors !! key)));; mret Normal
  end.

Fixpoint setErrors (errors : gmap string (list string)) (s : Observer.t)
  : Heap → Result Completion :=
  (c ← forEachUntil (setErrors_key errors) (keys errors);
   match c with
   | TypeError => mret TypeError
   | Normal => forEachObserverUntil (setErrors errors) (Observer.observers s)
   end) s.
End Orchestration.

Section Validate.
Context {impl : ProviderImpl}.

(** A promise as far as the observer can tell: how it settles, and the
    calls issued to obtain it. *)
Definition Promise (A : Type) : Type := Settled A * list Event.

(** [p.then(f)] *)
Definition then_ {A B} (f : A → B) (p : Promise A) : Promise B :=
  (match p.1 with Fulfilled a => Fulfilled (f a) | Rejected => Rejected end, p.2).

(** [Promise.all(ps)] *)
Fixpoint all_settled {A} (ps : list (Settled A)) : Settled (list A) :=
  match ps with
  | [] => Fulfilled []
  | Fulfilled a :: ps' =>
      match all_settled ps' with
      | Fulfilled l => Fulfilled (a :: l)
      | Rejected => Rejected
      end
  | Rejected :: _ => Rejected
  end.

Definition Promise_all {A} (ps : list (Promise A)) : Promise (list A) :=
  (all_settled ps.*1, concat ps.*2).

(** [ref[silent ? 'validateSilent' : 'validate']()] *)
Definition call_validate (silent : bool) (h : Heap) (ref : loc)
  : Promise ValidationResult.t :=
  if silent then (prov_validateSilent (h !!! ref), [CallValidateSilent ref])
  else (prov_validate (h !!! ref), [CallValidate ref]).

(** *** validate

    The children that are not disabled are selected by [omap] rather
    than by [filter] followed by [map] (lemma [validate_unfold] gives the
    source's form). *)
Fixpoint validate (silent : bool) (s : Observer.t) (h : Heap) : Promise bool :=
  then_ (forallb (λ r : bool, r))
    (Promise_all
       (((λ ref, then_ ValidationResult.valid (call_validate silent h ref))
           <$> filter (λ r, Provider.disabled (h !!! r) = false)
                      (values (Observer.refs s)))
        ++ omap (λ obs, if Observer.disabled obs then None
                        else Some (validate silent obs h))
                (Observer.observers s))).
End Validate.

(** ** The default of the [vid] prop *)

(** [`obs_${OBSERVER_COUNTER++}`]: the id and the counter after the call. *)
Definition vid_default (OBSERVER_COUNTER : N) : string * N :=
  ("obs_" +:+ pretty OBSERVER_COUNTER, N.succ OBSERVER_COUNTER).

(** The ids of [n] observers created in a row without a [vid]. *)
Fixpoint vid_defaults (n : nat) (OBSERVER_COUNTER : N) : list string * N :=
  match n with
  | 0 => ([], OBSERVER_COUNTER)
  | S n' =>
      let '(id, c) := vid_default OBSERVER_COUNTER in
      let '(ids, c') := vid_defaults n' c in
      (id :: ids, c')
  end.

(** * Definitions used to state the properties *)

(** ** The strategy table as the spec words it *)

(** The flags reduced with AND are [pristine], [untouched], [valid],
    [validated] and [passed]; the other six are reduced with OR. *)
Definition strategy_of (flag : Flag) : Strategy :=
  match flag with
  | pristine | untouched | valid | validated | passed => every
  | dirty | touched | invalid | pending | changed | failed => some
  end.

(** The two partitions of the registry share no id. *)
Definition partitions_disjoint (s : Observer.t) : Prop :=
  ∀ id, ¬ (is_Some (Observer.refs s !! id) ∧ is_Some (Observer.inactiveRefs s !! id)).

(** The registrations the amended disjointness claim leaves out: a
    provider without [persist] is not registered while a snapshot is cached
    under its id.  [permits op s h] says so of one step, [permitted] of
    every step of a sequence, each at the moment it is made. *)
Definition permits (op : Op) (s : Observer.t) (h : Heap) : Prop :=
  match op with
  | Subscribe (AsProvider l) =>
      Provider.persist (h !!! l) = true
      ∨ Observer.inactiveRefs s !! Provider.id (h !!! l) = None
  | _ => True
  end.

Fixpoint permitted {impl : ProviderImpl} (NODE_ENV : string) (ops : list Op)
    (s : Observer.t) (h : Heap) : Prop :=
  match ops with
  | [] => True
  | op :: ops' =>
      permits op s h
      ∧ permitted NODE_ENV ops' (this (step NODE_ENV op s h)) (heap (step NODE_ENV op s h))
  end.

(** A name that reads as [undefined] on a dictionary in which it is not a
    key: not a property of [Object.prototype], and not the name under which
    Vue keeps its observer. *)
Definition ordinary (key : string) : Prop :=
  (key ∉ Object_prototype) ∧ key ≠ "__ob__".

(** The names of the fields of a snapshot. *)
Definition snapshot_fields : list string := ["id"; "flags"; "errors"; "failedRules"].

(** A name that reads as [undefined] on [inactiveRefs] when it is not a key
    of it: an ordinary name that, where a snapshot has become the prototype
    of [inactiveRefs], is not the name of a field of a snapshot. *)
Definition unshadowed (s : Observer.t) (key : string) : Prop :=
  ordinary key ∧ (Observer.inactivePrototype s = None ∨ key ∉ snapshot_fields).

(** The three parts of the candidates, in the order of the source. *)
Definition active_vms (s : Observer.t) (h : Heap) : list VM :=
  (λ l, vm_of_provider (h !!! l)) <$> values (Observer.refs s).
Definition cached_vms (s : Observer.t) : list VM :=
  vm_of_inactive <$> values (Observer.inactiveRefs s).
Definition nested_vms (s : Observer.t) : list VM :=
  vm_of_observer <$> Observer.observers s.

(** The last element of a list of candidates that carries [id]. *)
Definition last_with (id : string) (l : list VM) : option VM :=
  last (filter (λ vm, vm_id vm = id) l).

(** What [setFlags] followed by [applyResult] leaves of a provider that
    honours the contract. *)
Definition restored (st : InactiveRefCache.t) (p : Provider.t) : Provider.t :=
  Provider.mk (Provider.id p) (InactiveRefCache.flags st) (InactiveRefCache.errors st)
    (InactiveRefCache.failedRules st) (Provider.disabled p) (Provider.persist p).

(** The snapshot [removeProvider] takes of a provider. *)
Definition snapshot (id : string) (p : Provider.t) : InactiveRefCache.t :=
  InactiveRefCache.mk id (Provider.flags p) (Provider.errors p) (Provider.failedRules p).

(** The heap after a sequence of calls. *)
Definition replay {impl : ProviderImpl} (t : list Event) (h : Heap) : Heap :=
  foldl (λ h e, effect e h) h t.

(** [in_tree o s]: [o] is [s] or one of its descendants. *)
Inductive in_tree : Observer.t → Observer.t → Prop :=
  | in_tree_here s : in_tree s s
  | in_tree_child o c s : c ∈ Observer.observers s → in_tree o c → in_tree o s.

(** The observer [reset] leaves: every cache of the tree is empty. *)
Fixpoint cleared (s : Observer.t) : Observer.t :=
  Observer.mk (Observer.id s) (Observer.refs s) (cleared <$> Observer.observers s)
    ∅ (Observer.inactivePrototype s) (Observer.errors s) (Observer.flags s)
    (Observer.disabled s).

(** The calls of [reset]: the active providers, then child after child. *)
Fixpoint reset_calls (s : Observer.t) : list Event :=
  (CallReset <$> values (Observer.refs s)) ++ concat (reset_calls <$> Observer.observers s).

(** The calls of [setErrors]: for each key of the argument that is an active
    provider here, then child after child with the same argument. *)
Fixpoint setErrors_calls (errors : gmap string (list string)) (s : Observer.t)
  : list Event :=
  omap (λ key, (λ provider, CallSetErrors provider (default [] (errors !! key)))
                 <$> Observer.refs s !! key) (keys errors)
  ++ concat (setErrors_calls errors <$> Observer.observers s).

(** The call a provider receives from [validate({silent})]. *)
Definition validate_call (silent : bool) (ref : loc) : Event :=
  if silent then CallValidateSilent ref else CallValidate ref.

(** How that call settles. *)
Definition validate_outcome {impl : ProviderImpl} (silent : bool) (h : Heap) (ref : loc)
  : Settled ValidationResult.t :=
  if silent then prov_validateSilent (h !!! ref) else prov_validate (h !!! ref).

(** [reaches h s ref]: [ref] is an active provider that is not disabled, of
    [s] or of a descendant of [s] reached through children that are not
    disabled. *)
Inductive reaches (h : Heap) : Observer.t → loc → Prop :=
  | reaches_own s key ref :
      Observer.refs s !! key = Some ref →
      Provider.disabled (h !!! ref) = false →
      reaches h s ref
  | reaches_nested s obs ref :
      obs ∈ Observer.observers s →
      Observer.disabled obs = false →
      reaches h obs ref →
      reaches h s ref.

(** ** A provider implementation and sample states *)

(** Modelled from the spec: the provider component (Provider.ts) is not
    part of the sources at hand.  Of its methods the spec fixes [setFlags]
    (the given flags replace the member's flags), [applyResult] (the
    snapshot's [errors] and [failedRules] become the member's current
    result) and, through its [setErrors] scenario, [setErrors] (the messages
    become the member's errors).  It leaves [reset], the two validations
    and what the methods do with an argument that is not a snapshot to the
    collaborator; here [reset] empties the errors, a validation reports the
    member's [valid] flag, and such an argument is ignored. *)
Definition plain_provider : ProviderImpl := {|
  prov_setFlags f p := Provider.set_flags f p;
  prov_applyResult st p :=
    Provider.set_failedRules (InactiveRefCache.failedRules st)
      (Provider.set_errors (InactiveRefCache.errors st) p);
  prov_setFlagsForeign x p := p;
  prov_applyResultForeign x p := p;
  prov_setErrors msgs p := Provider.set_errors msgs p;
  prov_reset p := Provider.set_errors [] p;
  prov_validate p :=
    Fulfilled (ValidationResult.mk (truthy (Provider.flags p !! valid)) (Provider.errors p));
  prov_validateSilent p :=
    Fulfilled (ValidationResult.mk (truthy (Provider.flags p !! valid)) (Provider.errors p))
|}.

(** Modelled from the spec: what the spec says of the two provider methods
    [restoreProviderState] calls (Provider.ts is not part of the sources at
    hand): [setFlags] replaces the flags, [applyResult] installs the
    snapshot's [errors] and [failedRules]; neither touches anything else.
    Of a call with an argument that is not a snapshot the contract only
    keeps that the id and the [persist] marker are not written. *)
Class ProviderContract (impl : ProviderImpl) : Prop := {
  setFlags_replaces : ∀ f p, prov_setFlags f p = Provider.set_flags f p;
  applyResult_installs : ∀ st p,
    prov_applyResult st p =
      Provider.set_failedRules (InactiveRefCache.failedRules st)
        (Provider.set_errors (InactiveRefCache.errors st) p);
  setFlagsForeign_registered : ∀ x p,
    Provider.id (prov_setFlagsForeign x p) = Provider.id p
    ∧ Provider.persist (prov_setFlagsForeign x p) = Provider.persist p;
  applyResultForeign_registered : ∀ x p,
    Provider.id (prov_applyResultForeign x p) = Provider.id p
    ∧ Provider.persist (prov_applyResultForeign x p) = Provider.persist p
}.

(** Modelled from the spec: the id and the [persist] marker are properties
    a member is registered with (section 6), not part of the state the two
    methods write, whatever their argument; an implementation of them may
    write any other field. *)
Class ProviderKeepsIdentity (impl : ProviderImpl) : Prop := {
  setFlags_id : ∀ f p, Provider.id (prov_setFlags f p) = Provider.id p;
  setFlags_persist : ∀ f p, Provider.persist (prov_setFlags f p) = Provider.persist p;
  applyResult_id : ∀ st p, Provider.id (prov_applyResult st p) = Provider.id p;
  applyResult_persist : ∀ st p,
    Provider.persist (prov_applyResult st p) = Provider.persist p;
  setFlagsForeign_id : ∀ x p, Provider.id (prov_setFlagsForeign x p) = Provider.id p;
  setFlagsForeign_persist : ∀ x p,
    Provider.persist (prov_setFlagsForeign x p) = Provider.persist p;
  applyResultForeign_id : ∀ x p, Provider.id (prov_applyResultForeign x p) = Provider.id p;
  applyResultForeign_persist : ∀ x p,
    Provider.persist (prov_applyResultForeign x p) = Provider.persist p
}.

(** All eleven flags of a provider that has passed or failed validation. *)
Definition flags_of (ok : bool) : ValidationFlags :=
  list_to_map
    [ (pristine, false); (dirty, true); (touched, true); (untouched, false);
      (valid, ok); (invalid, negb ok); (pending, false); (validated, true);
      (changed, true); (passed, ok); (failed, negb ok) ].

(** The flags of a provider nobody has interacted with. *)
Definition fresh_flags : ValidationFlags :=
  list_to_map
    [ (pristine, true); (dirty, false); (touched, false); (untouched, true);
      (valid, false); (invalid, false); (pending, false); (validated, false);
      (changed, false); (passed, false); (failed, false) ].

Definition email_rules : gmap string (list string) := {[ "required" := ["required"] ]}.

(** Four provider instances: [1] is the field "email", persistent and
    failed; [2] is a second instance with the same id that is not
    persistent; [3] is a third instance with the same id that is
    persistent; [4] is the field "name", valid and not persistent. *)
Definition sample_heap : Heap :=
  {[ 1%positive := Provider.mk "email" (flags_of false) ["required"] email_rules false true;
     2%positive := Provider.mk "email" fresh_flags [] ∅ false false;
     3%positive := Provider.mk "email" fresh_flags [] ∅ false true;
     4%positive := Provider.mk "name" (flags_of true) [] ∅ false false ]}.

(** A form nobody has registered with. *)
Definition empty_form : Observer.t := data "form" false.

(** "email" registers, leaves, and a non-persistent instance takes its place. *)
Definition remount_plain : list Op :=
  [ Subscribe (AsProvider 1%positive);
    Unsubscribe "email" kind_provider;
    Subscribe (AsProvider 2%positive) ].

(** "email" registers, leaves, and a persistent instance takes its place. *)
Definition remount_persist : list Op :=
  [ Subscribe (AsProvider 1%positive);
    Unsubscribe "email" kind_provider;
    Subscribe (AsProvider 3%positive) ].

(** A form with a disabled child and an enabled grandchild. *)
Definition leaf_form (vid : string) (disabled : bool) (l : loc) (id : string) : Observer.t :=
  Observer.mk vid {[ id := l ]} [] ∅ None ∅ ∅ disabled.

Definition nested_form : Observer.t :=
  Observer.mk "form" {[ "name" := 4%positive ]}
    [ leaf_form "obs_0" true 2%positive "email";
      Observer.mk "obs_1" ∅ [ leaf_form "obs_2" false 1%positive "email" ]
        {[ "old" := InactiveRefCache.mk "old" fresh_flags [] ∅ ]} None ∅ ∅ false ]
    {[ "gone" := InactiveRefCache.mk "gone" (flags_of false) ["min"] ∅ ]} None ∅ ∅ false.

(** The scenario of the spec: a valid member "A" without messages and an
    invalid member "B" with the message "required". *)
Definition scenario_heap : Heap :=
  {[ 5%positive := Provider.mk "A" (flags_of true) [] ∅ false false;
     6%positive := Provider.mk "B" (flags_of false) ["required"] email_rules false false ]}.

Definition scenario_form : Observer.t :=
  Observer.mk "form" {[ "A" := 5%positive; "B" := 6%positive ]}
    [ leaf_form "obs_0" false 4%positive "name" ] ∅ None ∅ ∅ false.

(** * The rest of the component *)

Section Lifecycle.
Context {impl : ProviderImpl}.
Variable NODE_ENV : string.

(** [passes(cb)].  [cb] is [None] when no callback is passed, and else the
    way the call [cb()] settles.  The result is the promise [passes]
    returns ([None] for [undefined]) together with whether [cb] was
    called. *)
Definition passes {A} (cb : option (Settled A)) (s : Observer.t) (h : Heap)
  : Promise (option A) * bool :=
  let p := validate false s h in
  match p.1 with
  | Rejected => ((Rejected, p.2), false)
  | Fulfilled isValid =>
      match negb isValid, cb with
      | true, _ | false, None => ((Fulfilled None, p.2), false)
      | false, Some (Fulfilled a) => ((Fulfilled (Some a), p.2), true)
      | false, Some Rejected => ((Rejected, p.2), true)
      end
  end.

(** [register] and [unregister], called on [self]; [veeObserver] is the
    injected parent, [None] for [null].  The result is what the call does
    to the parent, if there is one. *)
Definition register (self : Observer.t) (veeObserver : option Observer.t) (h : Heap)
  : option (Result unit) :=
  match veeObserver with
  | Some parent => Some (subscribe (AsObserver self) parent h)
  | None => None
  end.

Definition unregister (self : Observer.t) (veeObserver : option Observer.t) (h : Heap)
  : option (Result unit) :=
  match veeObserver with
  | Some parent => Some (unsubscribe NODE_ENV (Observer.id self) kind_observer parent h)
  | None => None
  end.

(** The part of [created] that acts on the parent: the new observer has
    the state of [data()] and the id [vid], and registers. *)
Definition created (vid : string) (disabled : bool) (veeObserver : option Observer.t)
    (h : Heap) : option (Result unit) :=
  register (data vid disabled) veeObserver h.
End Lifecycle.

(** ** Definitions used to state the properties of the rest *)

(** Every cached snapshot is stored under its own id. *)
Definition cache_keyed (s : Observer.t) : Prop :=
  ∀ key c, Observer.inactiveRefs s !! key = Some c → InactiveRefCache.id c = key.

(** Every active provider is stored under its own id. *)
Definition refs_keyed (s : Observer.t) (h : Heap) : Prop :=
  ∀ key l, Observer.refs s !! key = Some l → Provider.id (h !!! l) = key.

(** The provider a call is made on. *)
Definition target (e : Event) : option loc :=
  match e with
  | CallSetFlags l _ | CallApplyResult l _
  | CallSetFlagsForeign l _ | CallApplyResultForeign l _ | CallSetErrors l _
  | CallReset l | CallValidate l | CallValidateSilent l => Some l
  | Warn _ => None
  end.

(** [l] is an active provider of [s] or of one of its descendants. *)
Definition active_in_tree (s : Observer.t) (l : loc) : Prop :=
  ∃ o key, in_tree o s ∧ Observer.refs o !! key = Some l.

(** The pairs of flags that say opposite things of a provider: the first
    is reduced with [every], the second with [some]. *)
Definition opposite_flags : list (Flag * Flag) :=
  [ (pristine, dirty); (untouched, touched); (valid, invalid); (passed, failed) ].

(** The flags of an observer without any candidate. *)
Definition empty_flags : ValidationFlags :=
  list_to_map
    [ (pristine, true); (dirty, false); (touched, false); (untouched, true);
      (valid, true); (invalid, false); (pending, false); (validated, true);
      (changed, false); (passed, true); (failed, false) ].

(** A provider implementation whose validations reject. *)
Definition rejecting_provider : ProviderImpl := {|
  prov_setFlags := @prov_setFlags plain_provider;
  prov_applyResult := @prov_applyResult plain_provider;
  prov_setFlagsForeign := @prov_setFlagsForeign plain_provider;
  prov_applyResultForeign := @prov_applyResultForeign plain_provider;
  prov_setErrors := @prov_setErrors plain_provider;
  prov_reset := @prov_reset plain_provider;
  prov_validate p := Rejected;
  prov_validateSilent p := Rejected
|}.

(** Further sample states: a form with the fields "email" and "name", a
    form with "email" alone, a form with "name" alone, a form that has
    cached "email", and a heap without persistent provider. *)
Definition registered_form : Observer.t :=
  Observer.mk "form" {[ "email" := 1%positive; "name" := 4%positive ]} [] ∅ None ∅ ∅ false.

Definition email_form : Observer.t := leaf_form "form" false 1%positive "email".

Definition name_form : Observer.t := leaf_form "form" false 4%positive "name".

Definition cached_form : Observer.t :=
  Observer.mk "form" ∅ []
    {[ "email" := snapshot "email"
                    (Provider.mk "email" (flags_of false) ["required"] email_rules false true) ]}
    None ∅ ∅ false.

Definition plain_heap : Heap :=
  {[ 4%positive := Provider.mk "name" (flags_of true) [] ∅ false false ]}.

(** Two persistent providers whose ids are names of [Object.prototype]:
    a field called "toString" and a field called "__proto__". *)
Definition builtin_heap : Heap :=
  {[ 7%positive := Provider.mk "toString" fresh_flags [] ∅ false true;
     8%positive := Provider.mk "__proto__" (flags_of false) ["required"] email_rules
                     false true ]}.

(** A form with the field "__proto__" registered, and one with a child. *)
Definition proto_form : Observer.t := leaf_form "form" false 8%positive "__proto__".

Definition parent_form : Observer.t :=
  Observer.mk "form" {[ "name" := 4%positive ]}
    [ leaf_form "obs_0" false 1%positive "email" ] ∅ None ∅ ∅ false.

(** * Properties *)

Ltac obs_simpl :=
  cbn [this heap trace value
       Observer.id Observer.refs Observer.observers Observer.inactiveRefs
       Observer.inactivePrototype Observer.errors Observer.flags Observer.disabled
       Observer.set_refs Observer.set_observers Observer.set_inactiveRefs
       Observer.set_inactivePrototype Observer.set_errors Observer.set_flags] in *.

Ltac unfold_bind :=
  unfold mbind, mret, Method_bind, Method_ret, get;
  cbn [value this heap trace].

Ltac unfold_method :=
  unfold mbind, mret, Method_bind, Method_ret, get, modify, read, perform in *;
  cbn [value this heap trace] in *.

(** ** Default ids *)

Lemma vid_defaults_counter n c : (vid_defaults n c).2 = (c + N.of_nat n)%N.
Proof.
  revert c; induction n as [|n IH]; intros c; cbn [vid_defaults].
  - cbn. lia.
  - unfold vid_default. specialize (IH (N.succ c)).
    destruct (vid_defaults n (N.succ c)) as [ids c'] eqn:E. cbn in *. lia.
Qed.

Lemma vid_defaults_elem n c id :
  id ∈ (vid_defaults n c).1 →
  ∃ k, (c ≤ k < c + N.of_nat n)%N ∧ id = "obs_" +:+ pretty k.
Proof.
  revert c; induction n as [|n IH]; intros c; cbn [vid_defaults].
  - cbn. by intros ?%elem_of_nil.
  - unfold vid_default. specialize (IH (N.succ c)).
    destruct (vid_defaults n (N.succ c)) as [ids c'] eqn:E. cbn in *.
    intros [->|Hin]%elem_of_cons.
    + exists c. split; [lia|done].
    + destruct (IH Hin) as (k & Hk & ->). exists k. split; [lia|done].
Qed.

Lemma obs_id_inj (k k' : N) : "obs_" +:+ pretty k = "obs_" +:+ pretty k' → k = k'.
Proof. intros H. cbn in H. injection H as H. by apply (inj pretty). Qed.

(** C9 (amended): an id generated by the default of [vid] is the text
    [obs_] followed by the decimal value of the process-wide counter, which
    the call increments; the ids of any number of observers created in a
    row carry the [obs_] prefix and are pairwise distinct. *)
Theorem vid_default_unique (n : nat) (c : N) :
  (vid_default c).1 = "obs_" +:+ pretty c
  ∧ (vid_default c).2 = N.succ c
  ∧ Forall (λ id, String.prefix "obs_" id = true) (vid_defaults n c).1
  ∧ NoDup (vid_defaults n c).1
  ∧ (vid_defaults n c).2 = (c + N.of_nat n)%N.
Proof.
  split; [done|]. split; [done|]. split; [|split; [|apply vid_defaults_counter]].
  - apply Forall_forall. intros id (k & _ & ->)%vid_defaults_elem.
    by destruct (pretty k).
  - revert c; induction n as [|n IH]; intros c; cbn [vid_defaults].
    + cbn. constructor.
    + unfold vid_default. specialize (IH (N.succ c)).
      destruct (vid_defaults n (N.succ c)) as [ids c'] eqn:E. cbn in *.
      constructor; [|done].
      intros Hin. assert (Hin' : ("obs_" +:+ pretty c) ∈ (vid_defaults n (N.succ c)).1)
        by (rewrite E; exact Hin).
      apply vid_defaults_elem in Hin' as (k & Hk & Heq).
      apply obs_id_inj in Heq. lia.
Qed.

(** C9, as stated, fails: the first generated id is [obs_0], which does not
    start with [scope_]. *)
Lemma vid_default_not_scope_prefix :
  (vid_default 0).1 = "obs_0" ∧ String.prefix "scope_" (vid_default 0).1 = false.
Proof. split; reflexivity. Qed.

(** ** The recompute: flags *)

Lemma array_method_every {A} (f : A → bool) (l : list A) :
  array_method every f l = true ↔ ∀ x, x ∈ l → f x = true.
Proof.
  cbn. rewrite forallb_forall. split; intros H x Hx; apply H.
  - by apply list_elem_of_In.
  - by apply list_elem_of_In.
Qed.

Lemma array_method_some {A} (f : A → bool) (l : list A) :
  array_method some f l = true ↔ ∃ x, x ∈ l ∧ f x = true.
Proof.
  cbn. rewrite existsb_exists. split; intros (x & Hx & Hf); exists x; split; try done.
  - by apply list_elem_of_In.
  - by apply list_elem_of_In.
Qed.

Lemma truthy_true (v : option bool) : truthy v = true ↔ v = Some true.
Proof. destruct v as [[]|]; cbn; split; congruence. Qed.

Lemma collect_flags_lookup (cands : list VM) (flag : Flag) :
  collect_flags cands !! flag =
    Some (array_method (strategy_of flag) (λ vm, truthy (vm_flags vm !! flag)) cands).
Proof.
  unfold collect_flags, FLAGS_STRATEGIES. cbn [foldl].
  destruct flag; cbn [strategy_of];
    repeat (first [ by rewrite lookup_insert_eq | rewrite lookup_insert_ne by done ]).
Qed.

(** *** The candidates *)

Lemma elem_of_values {V} (m : gmap string V) (v : V) :
  v ∈ values m ↔ ∃ key, m !! key = Some v.
Proof.
  unfold values. rewrite list_elem_of_fmap. split.
  - intros ([key v'] & -> & Hin). exists key. by apply elem_of_map_to_list.
  - intros (key & Hk). exists (key, v). split; [done|]. by apply elem_of_map_to_list.
Qed.

Lemma elem_of_keys {V} (m : gmap string V) (key : string) :
  key ∈ keys m ↔ is_Some (m !! key).
Proof.
  unfold keys. rewrite list_elem_of_fmap. split.
  - intros ([key' v] & -> & Hin). exists v. by apply elem_of_map_to_list.
  - intros (v & Hk). exists (key, v). split; [done|]. by apply elem_of_map_to_list.
Qed.

Lemma elem_of_active_vms (s : Observer.t) (h : Heap) (vm : VM) :
  vm ∈ active_vms s h ↔
    ∃ key l, Observer.refs s !! key = Some l ∧ vm = vm_of_provider (h !!! l).
Proof.
  unfold active_vms. rewrite list_elem_of_fmap. split.
  - intros (l & -> & (key & Hk)%elem_of_values). eauto.
  - intros (key & l & Hk & ->). exists l. split; [done|]. apply elem_of_values. eauto.
Qed.

Lemma elem_of_cached_vms (s : Observer.t) (vm : VM) :
  vm ∈ cached_vms s ↔
    ∃ key c, Observer.inactiveRefs s !! key = Some c ∧ vm = vm_of_inactive c.
Proof.
  unfold cached_vms. rewrite list_elem_of_fmap. split.
  - intros (c & -> & (key & Hk)%elem_of_values). eauto.
  - intros (key & c & Hk & ->). exists c. split; [done|]. apply elem_of_values. eauto.
Qed.

Lemma elem_of_nested_vms (s : Observer.t) (vm : VM) :
  vm ∈ nested_vms s ↔ ∃ o, o ∈ Observer.observers s ∧ vm = vm_of_observer o.
Proof.
  unfold nested_vms. rewrite list_elem_of_fmap. split.
  - intros (o & -> & Ho). eauto.
  - intros (o & Ho & ->). eauto.
Qed.

Lemma vms_parts (s : Observer.t) (h : Heap) :
  vms s h = active_vms s h ++ cached_vms s ++ nested_vms s.
Proof. reflexivity. Qed.

Lemma elem_of_vms (s : Observer.t) (h : Heap) (vm : VM) :
  vm ∈ vms s h ↔
    (∃ key l, Observer.refs s !! key = Some l ∧ vm = vm_of_provider (h !!! l))
    ∨ (∃ key c, Observer.inactiveRefs s !! key = Some c ∧ vm = vm_of_inactive c)
    ∨ (∃ o, o ∈ Observer.observers s ∧ vm = vm_of_observer o).
Proof.
  rewrite vms_parts, !elem_of_app, elem_of_active_vms, elem_of_cached_vms,
    elem_of_nested_vms. done.
Qed.

(** C1: the flags the watcher assigns are the recomputed ones, and every
    one of them is the reduction the strategy table names, over the
    candidates, which are the active providers, the cached snapshots and
    the child observers, and nothing else.  The flags reduced with [every]
    are true exactly when the flag is true in every active provider, in
    every cached snapshot and in every child observer; the flags reduced
    with [some] exactly when the flag is true in an active provider, in a
    cached snapshot or in a child observer; in particular for [valid] and
    [invalid]. *)
Theorem recompute_flags_strategy (s : Observer.t) (h : Heap) :
  let cands := vms s h in
  let agg := (recompute s h).2 in
  let in_all (flag : Flag) : Prop :=
    (∀ key l, Observer.refs s !! key = Some l →
              Provider.flags (h !!! l) !! flag = Some true)
    ∧ (∀ key c, Observer.inactiveRefs s !! key = Some c →
                InactiveRefCache.flags c !! flag = Some true)
    ∧ (∀ o, o ∈ Observer.observers s → Observer.flags o !! flag = Some true) in
  let in_one (flag : Flag) : Prop :=
    (∃ key l, Observer.refs s !! key = Some l
              ∧ Provider.flags (h !!! l) !! flag = Some true)
    ∨ (∃ key c, Observer.inactiveRefs s !! key = Some c
                ∧ InactiveRefCache.flags c !! flag = Some true)
    ∨ (∃ o, o ∈ Observer.observers s ∧ Observer.flags o !! flag = Some true) in
  Observer.flags (onChange (recompute s h) s) = agg
  ∧ (∀ flag, agg !! flag =
     Some (array_method (strategy_of flag) (λ vm, truthy (vm_flags vm !! flag)) cands))
  ∧ (∀ flag, flag ∈ [pristine; untouched; valid; validated; passed] →
       (agg !! flag = Some true ↔ ∀ vm, vm ∈ cands → vm_flags vm !! flag = Some true))
  ∧ (∀ flag, flag ∈ [dirty; touched; invalid; pending; changed; failed] →
       (agg !! flag = Some true ↔ ∃ vm, vm ∈ cands ∧ vm_flags vm !! flag = Some true))
  ∧ (agg !! valid = Some true ↔ ∀ vm, vm ∈ cands → vm_flags vm !! valid = Some true)
  ∧ (agg !! invalid = Some true ↔ ∃ vm, vm ∈ cands ∧ vm_flags vm !! invalid = Some true)
  ∧ cands = ((λ l, vm_of_provider (h !!! l)) <$> values (Observer.refs s))
            ++ (vm_of_inactive <$> values (Observer.inactiveRefs s))
            ++ (vm_of_observer <$> Observer.observers s)
  ∧ (∀ vm, vm ∈ cands ↔
       (∃ key l, Observer.refs s !! key = Some l ∧ vm = vm_of_provider (h !!! l))
       ∨ (∃ key c, Observer.inactiveRefs s !! key = Some c ∧ vm = vm_of_inactive c)
       ∨ (∃ o, o ∈ Observer.observers s ∧ vm = vm_of_observer o))
  ∧ (∀ flag, flag ∈ [pristine; untouched; valid; validated; passed] →
       (agg !! flag = Some true ↔ in_all flag))
  ∧ (∀ flag, flag ∈ [dirty; touched; invalid; pending; changed; failed] →
       (agg !! flag = Some true ↔ in_one flag))
  ∧ (agg !! valid = Some true ↔ in_all valid)
  ∧ (agg !! invalid = Some true ↔ in_one invalid).
Proof.
  intros cands agg in_all in_one.
  assert (Hall : ∀ flag, agg !! flag =
     Some (array_method (strategy_of flag) (λ vm, truthy (vm_flags vm !! flag)) cands))
    by (intros flag; apply collect_flags_lookup).
  assert (Hevery : ∀ flag, strategy_of flag = every →
     (agg !! flag = Some true ↔ ∀ vm, vm ∈ cands → vm_flags vm !! flag = Some true)).
  { intros flag Hs. rewrite Hall, Hs. split.
    - intros [= H] vm Hvm. apply truthy_true. by eapply array_method_every in H.
    - intros H. f_equal. apply array_method_every. intros vm Hvm.
      apply truthy_true. by apply H. }
  assert (Hsome : ∀ flag, strategy_of flag = some →
     (agg !! flag = Some true ↔ ∃ vm, vm ∈ cands ∧ vm_flags vm !! flag = Some true)).
  { intros flag Hs. rewrite Hall, Hs. split.
    - intros [= H]. apply array_method_some in H as (vm & Hvm & Ht).
      exists vm. split; [done|]. by apply truthy_true.
    - intros (vm & Hvm & Ht). f_equal. apply array_method_some.
      exists vm. split; [done|]. by apply truthy_true. }
  assert (Hparts_all : ∀ flag,
     (∀ vm, vm ∈ cands → vm_flags vm !! flag = Some true) ↔ in_all flag).
  { intros flag. subst in_all. cbn beta. split.
    - intros H. repeat split.
      + intros key l Hk. apply (H (vm_of_provider (h !!! l))), elem_of_vms. eauto 6.
      + intros key c Hk. apply (H (vm_of_inactive c)), elem_of_vms. eauto 6.
      + intros o Ho. apply (H (vm_of_observer o)), elem_of_vms. eauto 6.
    - intros (Ha & Hc & Hn) vm
        [(key & l & Hk & ->)|[(key & c & Hk & ->)|(o & Ho & ->)]]%elem_of_vms; cbn; eauto. }
  assert (Hparts_one : ∀ flag,
     (∃ vm, vm ∈ cands ∧ vm_flags vm !! flag = Some true) ↔ in_one flag).
  { intros flag. subst in_one. cbn beta. split.
    - intros (vm & [(key & l & Hk & ->)|[(key & c & Hk & ->)|(o & Ho & ->)]]%elem_of_vms
                 & Hf); cbn in Hf; eauto 8.
    - intros [(key & l & Hk & Hf)|[(key & c & Hk & Hf)|(o & Ho & Hf)]].
      + exists (vm_of_provider (h !!! l)). split; [apply elem_of_vms; eauto 6 | done].
      + exists (vm_of_inactive c). split; [apply elem_of_vms; eauto 6 | done].
      + exists (vm_of_observer o). split; [apply elem_of_vms; eauto 6 | done]. }
  assert (Hin_every : ∀ flag, flag ∈ [pristine; untouched; valid; validated; passed] →
                               strategy_of flag = every).
  { intros flag Hin.
    repeat (apply elem_of_cons in Hin as [->|Hin]; [done|]). by apply elem_of_nil in Hin. }
  assert (Hin_some : ∀ flag, flag ∈ [dirty; touched; invalid; pending; changed; failed] →
                              strategy_of flag = some).
  { intros flag Hin.
    repeat (apply elem_of_cons in Hin as [->|Hin]; [done|]). by apply elem_of_nil in Hin. }
  split; [done|]. split; [done|].
  split; [by intros flag Hin; apply Hevery, Hin_every|].
  split; [by intros flag Hin; apply Hsome, Hin_some|].
  split; [by apply Hevery|]. split; [by apply Hsome|].
  split; [done|]. split; [apply elem_of_vms|].
  split; [by intros flag Hin; rewrite <- Hparts_all; apply Hevery, Hin_every|].
  split; [by intros flag Hin; rewrite <- Hparts_one; apply Hsome, Hin_some|].
  split; [rewrite <- Hparts_all; by apply Hevery | rewrite <- Hparts_one; by apply Hsome].
Qed.

(** ** Reading and writing the dictionaries *)

Lemma lookup_ref_Some (refs : gmap string loc) (key : string) (l : loc) :
  refs !! key = Some l → lookup_ref refs key = Stored l.
Proof. intros H. unfold lookup_ref. by rewrite H. Qed.

Lemma lookup_ref_None (refs : gmap string loc) (key : string) :
  refs !! key = None → lookup_ref refs key = from_Object_prototype key.
Proof. intros H. unfold lookup_ref. by rewrite H. Qed.

Lemma from_Object_prototype_ordinary {V} (key : string) :
  key ∉ Object_prototype → from_Object_prototype (V:=V) key = Undefined.
Proof. intros H. unfold from_Object_prototype. by rewrite bool_decide_eq_false_2. Qed.

Lemma from_Object_prototype_inherited {V} (key : string) :
  key ∈ Object_prototype → from_Object_prototype (V:=V) key = Other (Inherited key).
Proof. intros H. unfold from_Object_prototype. by rewrite bool_decide_eq_true_2. Qed.

Lemma from_Object_prototype_not_Stored {V} (key : string) (v : V) :
  from_Object_prototype key ≠ Stored v.
Proof. unfold from_Object_prototype. by destruct (bool_decide _). Qed.

Lemma lookup_ref_Stored (refs : gmap string loc) (key : string) (l : loc) :
  lookup_ref refs key = Stored l ↔ refs !! key = Some l.
Proof.
  split; [|apply lookup_ref_Some]. unfold lookup_ref.
  destruct (refs !! key) as [l'|]; [by intros [= ->]|].
  by intros ?%from_Object_prototype_not_Stored.
Qed.

Lemma lookup_inactive_Some (s : Observer.t) (key : string) (st : InactiveRefCache.t) :
  Observer.inactiveRefs s !! key = Some st → lookup_inactive s key = Stored st.
Proof. intros H. unfold lookup_inactive. by rewrite H. Qed.

Lemma lookup_inactive_set_refs (r : gmap string loc) (s : Observer.t) (key : string) :
  lookup_inactive (Observer.set_refs r s) key = lookup_inactive s key.
Proof. reflexivity. Qed.

(** A reading of [inactiveRefs] that is not a stored snapshot says that the
    key is not an own property. *)
Lemma lookup_inactive_own (s : Observer.t) (key : string) :
  (∀ st, lookup_inactive s key ≠ Stored st) → Observer.inactiveRefs s !! key = None.
Proof.
  intros H. destruct (Observer.inactiveRefs s !! key) as [st|] eqn:Hk; [|done].
  by destruct (H st (lookup_inactive_Some s key st Hk)).
Qed.

Lemma falsy_own (s : Observer.t) (key : string) :
  falsy (lookup_inactive s key) = true → Observer.inactiveRefs s !! key = None.
Proof. intros H. apply lookup_inactive_own. intros st Hst. by rewrite Hst in H. Qed.

(** Without an own property and with [Object.prototype] as the prototype,
    an ordinary name reads as [undefined]. *)
Lemma lookup_inactive_ordinary (s : Observer.t) (key : string) :
  Observer.inactiveRefs s !! key = None →
  Observer.inactivePrototype s = None →
  key ∉ Object_prototype →
  lookup_inactive s key = Undefined.
Proof.
  intros Hk Hp Ho. unfold lookup_inactive. rewrite Hk, Hp.
  by apply from_Object_prototype_ordinary.
Qed.

Lemma assign_inactive_ordinary (id : string) (st : InactiveRefCache.t) (s : Observer.t) :
  id ≠ "__proto__" →
  assign_inactive id st s
  = Observer.set_inactiveRefs (<[id := st]> (Observer.inactiveRefs s)) s.
Proof.
  intros Hid. unfold assign_inactive.
  destruct (String.eqb_spec id "__proto__") as [Heq|_]; [done|]. reflexivity.
Qed.

Lemma assign_inactive_proto (st : InactiveRefCache.t) (s : Observer.t) :
  Observer.inactiveRefs s !! "__proto__" = None →
  assign_inactive "__proto__" st s = Observer.set_inactivePrototype (Some st) s.
Proof.
  intros Hk. unfold assign_inactive. by rewrite bool_decide_eq_true_2.
Qed.

Lemma assign_inactive_cases (id : string) (st : InactiveRefCache.t) (s : Observer.t) :
  (id = "__proto__" ∧ Observer.inactiveRefs s !! id = None
   ∧ assign_inactive id st s = Observer.set_inactivePrototype (Some st) s)
  ∨ ((id ≠ "__proto__" ∨ is_Some (Observer.inactiveRefs s !! id))
     ∧ assign_inactive id st s
       = Observer.set_inactiveRefs (<[id := st]> (Observer.inactiveRefs s)) s).
Proof.
  unfold assign_inactive. destruct (String.eqb_spec id "__proto__") as [->|Hne]; cbn.
  - destruct (Observer.inactiveRefs s !! "__proto__") as [c|] eqn:Hk.
    + right. rewrite bool_decide_eq_false_2 by done. split; [right; eauto | done].
    + left. by rewrite bool_decide_eq_true_2.
  - right. split; [by left | done].
Qed.

(** After the assignment the key reads as the snapshot assigned. *)
Lemma lookup_inactive_assign (id : string) (st : InactiveRefCache.t) (s : Observer.t) :
  lookup_inactive (assign_inactive id st s) id = Stored st.
Proof.
  destruct (assign_inactive_cases id st s) as [(-> & Hk & ->)|[_ ->]].
  - unfold lookup_inactive. cbn. by rewrite Hk.
  - apply lookup_inactive_Some. cbn. apply lookup_insert_eq.
Qed.

Lemma assign_inactive_lookup_ne (id key : string) (st : InactiveRefCache.t) (s : Observer.t) :
  key ≠ id →
  Observer.inactiveRefs (assign_inactive id st s) !! key = Observer.inactiveRefs s !! key.
Proof.
  intros Hne. destruct (assign_inactive_cases id st s) as [(_ & _ & ->)|[_ ->]]; cbn.
  - done.
  - by apply lookup_insert_ne.
Qed.

Lemma assign_inactive_fields (id : string) (st : InactiveRefCache.t) (s : Observer.t) :
  let s' := assign_inactive id st s in
  Observer.id s' = Observer.id s ∧ Observer.refs s' = Observer.refs s
  ∧ Observer.observers s' = Observer.observers s
  ∧ Observer.errors s' = Observer.errors s ∧ Observer.flags s' = Observer.flags s
  ∧ Observer.disabled s' = Observer.disabled s.
Proof. cbn zeta. by destruct (assign_inactive_cases id st s) as [(_ & _ & ->)|[_ ->]]. Qed.

(** ** The registry: equations of [subscribe] and [unsubscribe] *)

Section Registry.
Context {impl : ProviderImpl}.
Variable NODE_ENV : string.

Implicit Types (s : Observer.t) (h : Heap) (l : loc) (id : string).

Lemma subscribe_not_persist s h l :
  Provider.persist (h !!! l) = false →
  subscribe (AsProvider l) s h =
    mkResult tt (Observer.set_refs (<[Provider.id (h !!! l) := l]> (Observer.refs s)) s) h [].
Proof. intros Hp. unfold subscribe. unfold_method. by rewrite Hp. Qed.

Lemma subscribe_persist_falsy s h l :
  Provider.persist (h !!! l) = true →
  falsy (lookup_inactive s (Provider.id (h !!! l))) = true →
  subscribe (AsProvider l) s h =
    mkResult tt (Observer.set_refs (<[Provider.id (h !!! l) := l]> (Observer.refs s)) s) h [].
Proof.
  intros Hp Hc. unfold subscribe. unfold_method. rewrite Hp.
  unfold restoreProviderState. unfold_method. rewrite lookup_inactive_set_refs, Hc.
  reflexivity.
Qed.

Lemma subscribe_persist_fresh s h l :
  Provider.persist (h !!! l) = true →
  lookup_inactive s (Provider.id (h !!! l)) = Undefined →
  subscribe (AsProvider l) s h =
    mkResult tt (Observer.set_refs (<[Provider.id (h !!! l) := l]> (Observer.refs s)) s) h [].
Proof. intros Hp Hc. apply subscribe_persist_falsy; [done|]. by rewrite Hc. Qed.

Lemma subscribe_persist_stored {keeps : ProviderKeepsIdentity impl} s h l st :
  Provider.persist (h !!! l) = true →
  lookup_inactive s (Provider.id (h !!! l)) = Stored st →
  subscribe (AsProvider l) s h =
    mkResult tt
      (Observer.set_inactiveRefs
         (delete (Provider.id (h !!! l)) (Observer.inactiveRefs s))
         (Observer.set_refs (<[Provider.id (h !!! l) := l]> (Observer.refs s)) s))
      (<[l := prov_applyResult st (prov_setFlags (InactiveRefCache.flags st) (h !!! l))]> h)
      [CallSetFlags l (InactiveRefCache.flags st); CallApplyResult l st].
Proof.
  intros Hp Hc. unfold subscribe. unfold_method. rewrite Hp.
  unfold restoreProviderState. unfold_method. rewrite lookup_inactive_set_refs, Hc.
  cbn. rewrite !lookup_total_insert_eq, insert_insert_eq.
  by rewrite applyResult_id, setFlags_id.
Qed.

Lemma subscribe_persist_cached_calls {keeps : ProviderKeepsIdentity impl} s h l st :
  Provider.persist (h !!! l) = true →
  Observer.inactiveRefs s !! Provider.id (h !!! l) = Some st →
  subscribe (AsProvider l) s h =
    mkResult tt
      (Observer.set_inactiveRefs
         (delete (Provider.id (h !!! l)) (Observer.inactiveRefs s))
         (Observer.set_refs (<[Provider.id (h !!! l) := l]> (Observer.refs s)) s))
      (<[l := prov_applyResult st (prov_setFlags (InactiveRefCache.flags st) (h !!! l))]> h)
      [CallSetFlags l (InactiveRefCache.flags st); CallApplyResult l st].
Proof.
  intros Hp Hc. apply subscribe_persist_stored; [done|]. by apply lookup_inactive_Some.
Qed.

Lemma subscribe_persist_foreign {keeps : ProviderKeepsIdentity impl} s h l x :
  Provider.persist (h !!! l) = true →
  lookup_inactive s (Provider.id (h !!! l)) = Other x →
  falsy (Other (V:=InactiveRefCache.t) x) = false →
  subscribe (AsProvider l) s h =
    mkResult tt
      (Observer.set_inactiveRefs
         (delete (Provider.id (h !!! l)) (Observer.inactiveRefs s))
         (Observer.set_refs (<[Provider.id (h !!! l) := l]> (Observer.refs s)) s))
      (<[l := prov_applyResultForeign x (prov_setFlagsForeign x (h !!! l))]> h)
      [CallSetFlagsForeign l x; CallApplyResultForeign l x].
Proof.
  intros Hp Hc Hf. unfold subscribe. unfold_method. rewrite Hp.
  unfold restoreProviderState. unfold_method. rewrite lookup_inactive_set_refs, Hc, Hf.
  cbn. rewrite !lookup_total_insert_eq, insert_insert_eq.
  by rewrite applyResultForeign_id, setFlagsForeign_id.
Qed.

(** The three ways [subscribe] goes for a provider with [persist]. *)
Lemma subscribe_persist_cases {keeps : ProviderKeepsIdentity impl} s h l :
  Provider.persist (h !!! l) = true →
  let id := Provider.id (h !!! l) in
  let registered := Observer.set_refs (<[id := l]> (Observer.refs s)) s in
  let purged := Observer.set_inactiveRefs (delete id (Observer.inactiveRefs s)) registered in
  (Observer.inactiveRefs s !! id = None
   ∧ subscribe (AsProvider l) s h = mkResult tt registered h [])
  ∨ (∃ st, lookup_inactive s id = Stored st
           ∧ subscribe (AsProvider l) s h =
               mkResult tt purged
                 (<[l := prov_applyResult st
                           (prov_setFlags (InactiveRefCache.flags st) (h !!! l))]> h)
                 [CallSetFlags l (InactiveRefCache.flags st); CallApplyResult l st])
  ∨ (∃ x, lookup_inactive s id = Other x
          ∧ Observer.inactiveRefs s !! id = None
          ∧ subscribe (AsProvider l) s h =
              mkResult tt purged
                (<[l := prov_applyResultForeign x (prov_setFlagsForeign x (h !!! l))]> h)
                [CallSetFlagsForeign l x; CallApplyResultForeign l x]).
Proof.
  intros Hp id registered purged.
  destruct (falsy (lookup_inactive s id)) eqn:Hf.
  - left. split; [by apply falsy_own | by apply subscribe_persist_falsy].
  - destruct (lookup_inactive s id) as [st|x|] eqn:Hc; [| |done].
    + right; left. exists st. split; [done|]. by apply subscribe_persist_stored.
    + right; right. exists x. split; [done|]. split.
      * apply lookup_inactive_own. intros st Hst. subst id. congruence.
      * by apply subscribe_persist_foreign.
Qed.

Lemma removeProvider_absent s h id :
  Observer.refs s !! id = None →
  removeProvider NODE_ENV id s h = mkResult tt s h [].
Proof.
  intros Hr. unfold removeProvider. unfold_method. rewrite (lookup_ref_None _ _ Hr).
  unfold from_Object_prototype. by destruct (bool_decide _).
Qed.

Lemma removeProvider_not_persist s h id l :
  Observer.refs s !! id = Some l →
  Provider.persist (h !!! l) = false →
  removeProvider NODE_ENV id s h =
    mkResult tt (Observer.set_refs (delete id (Observer.refs s)) s) h [].
Proof.
  intros Hr Hp. unfold removeProvider. unfold_method.
  by rewrite (lookup_ref_Some _ _ _ Hr), Hp.
Qed.

Lemma removeProvider_persist s h id l :
  Observer.refs s !! id = Some l →
  Provider.persist (h !!! l) = true →
  let r := removeProvider NODE_ENV id s h in
  this r = Observer.set_refs (delete id (Observer.refs s))
             (assign_inactive id (snapshot id (h !!! l)) s)
  ∧ heap r = h
  ∧ trace r = if negb (String.eqb NODE_ENV "production") && String.prefix "_vee_" id
              then [Warn persist_warning] else [].
Proof.
  intros Hr Hp. unfold removeProvider. unfold_method.
  rewrite (lookup_ref_Some _ _ _ Hr), Hp.
  pose proof (assign_inactive_fields id (snapshot id (h !!! l)) s) as (_ & Hrefs & _).
  unfold snapshot in *.
  destruct (negb (String.eqb NODE_ENV "production") && String.prefix "_vee_" id); cbn;
    by rewrite Hrefs.
Qed.

Lemma removeProvider_refs_cases s h id :
  Observer.refs (this (removeProvider NODE_ENV id s h)) = delete id (Observer.refs s).
Proof.
  destruct (Observer.refs s !! id) as [l|] eqn:Hr.
  - destruct (Provider.persist (h !!! l)) eqn:Hp.
    + by destruct (removeProvider_persist s h id l Hr Hp) as (-> & _).
    + by rewrite (removeProvider_not_persist s h id l Hr Hp).
  - rewrite removeProvider_absent by done. cbn. by rewrite delete_id.
Qed.

Lemma removeProvider_refs s h id :
  Observer.refs (this (removeProvider NODE_ENV id s h)) !! id = None.
Proof. rewrite removeProvider_refs_cases. apply lookup_delete_eq. Qed.

Lemma removeProvider_heap s h id : heap (removeProvider NODE_ENV id s h) = h.
Proof.
  destruct (Observer.refs s !! id) as [l|] eqn:Hr.
  - destruct (Provider.persist (h !!! l)) eqn:Hp.
    + by destruct (removeProvider_persist s h id l Hr Hp) as (_ & -> & _).
    + by rewrite (removeProvider_not_persist s h id l Hr Hp).
  - by rewrite removeProvider_absent.
Qed.

Lemma unsubscribe_heap s h id kind : heap (unsubscribe NODE_ENV id kind s h) = h.
Proof.
  destruct kind; cbn [unsubscribe]; [apply removeProvider_heap|].
  unfold_method. by destruct (findIndex _ _).
Qed.

Lemma run_cons op ops s h :
  run NODE_ENV (op :: ops) s h =
    let r := step NODE_ENV op s h in
    let r' := run NODE_ENV ops (this r) (heap r) in
    mkResult (value r') (this r') (heap r') (trace r ++ trace r').
Proof. reflexivity. Qed.
End Registry.

(** C10, as stated, fails, and the code is at fault: a provider with
    [persist] whose id is "toString" registers with a new observer, whose
    cache has no entry at all.  [this.inactiveRefs["toString"]] reads the
    function inherited from [Object.prototype], the guard [if (!state)]
    lets it through, and the provider receives [setFlags(undefined)] and
    [applyResult] with that function. *)
Theorem subscribe_persist_inherited_id :
  let r := subscribe (impl:=plain_provider) (AsProvider 7%positive) empty_form
             builtin_heap in
  Provider.id (builtin_heap !!! 7%positive) = "toString"
  ∧ Provider.persist (builtin_heap !!! 7%positive) = true
  ∧ Observer.inactiveRefs empty_form = ∅
  ∧ trace r = [ CallSetFlagsForeign 7%positive (Inherited "toString");
                CallApplyResultForeign 7%positive (Inherited "toString") ].
Proof. cbn zeta. repeat split; reflexivity. Qed.

(** C8: for an id that is not a key of [refs], [unsubscribe(id)] with kind
    ['provider'] returns with the observer and the heap as they were and
    without a call; and whatever the state, a second [unsubscribe(id)] right
    after the first changes nothing and calls nothing. *)
Theorem unsubscribe_absent_is_noop {impl : ProviderImpl} (NODE_ENV : string)
    (s : Observer.t) (h : Heap) (id : string) :
  (Observer.refs s !! id = None →
     unsubscribe NODE_ENV id kind_provider s h = mkResult tt s h [])
  ∧ (let once := unsubscribe NODE_ENV id kind_provider s h in
     let twice := unsubscribe NODE_ENV id kind_provider (this once) (heap once) in
     this twice = this once ∧ heap twice = heap once
     ∧ trace once ++ trace twice = trace once).
Proof.
  split.
  - intros Hr. cbn [unsubscribe]. by apply removeProvider_absent.
  - cbn [unsubscribe]. cbn zeta.
    pose proof (removeProvider_refs NODE_ENV s h id) as Hgone.
    rewrite (removeProvider_absent NODE_ENV _ _ id Hgone). cbn.
    by rewrite app_nil_r.
Qed.

(** ** Disjointness along a run *)

Section Identity.
Context {impl : ProviderImpl} {keeps : ProviderKeepsIdentity impl}.
Variable NODE_ENV : string.

Implicit Types (s : Observer.t) (h : Heap) (l : loc) (id : string).

(** Registry calls change neither the id nor the [persist] prop of any
    provider. *)
Lemma subscribe_identity s h sub l :
  Provider.id (heap (subscribe sub s h) !!! l) = Provider.id (h !!! l)
  ∧ Provider.persist (heap (subscribe sub s h) !!! l) = Provider.persist (h !!! l).
Proof.
  destruct sub as [m|o]; [|done].
  destruct (Provider.persist (h !!! m)) eqn:Hp.
  - destruct (subscribe_persist_cases s h m Hp)
      as [[_ ->]|[(st & _ & ->)|(x & _ & _ & ->)]]; [done| |]; cbn;
      (destruct (decide (l = m)) as [->|Hne];
       [rewrite lookup_total_insert_eq | by rewrite lookup_total_insert_ne]).
    + by rewrite applyResult_id, setFlags_id, applyResult_persist, setFlags_persist.
    + by rewrite applyResultForeign_id, setFlagsForeign_id,
        applyResultForeign_persist, setFlagsForeign_persist.
  - by rewrite (subscribe_not_persist s h m Hp).
Qed.

Lemma step_identity s h op l :
  Provider.id (heap (step NODE_ENV op s h) !!! l) = Provider.id (h !!! l)
  ∧ Provider.persist (heap (step NODE_ENV op s h) !!! l) = Provider.persist (h !!! l).
Proof.
  destruct op as [sub|id kind|]; cbn [step].
  - apply subscribe_identity.
  - by rewrite unsubscribe_heap.
  - done.
Qed.

Lemma subscribe_registers s h l :
  Observer.refs (this (subscribe (AsProvider l) s h)) !! Provider.id (h !!! l) = Some l.
Proof.
  destruct (Provider.persist (h !!! l)) eqn:Hp.
  - destruct (subscribe_persist_cases s h l Hp)
      as [[_ ->]|[(st & _ & ->)|(x & _ & _ & ->)]]; cbn; apply lookup_insert_eq.
  - rewrite (subscribe_not_persist s h l Hp). cbn. apply lookup_insert_eq.
Qed.

Lemma step_disjoint s h op :
  partitions_disjoint s →
  permits op s h →
  partitions_disjoint (this (step NODE_ENV op s h)).
Proof.
  intros Hd Hop. destruct op as [[l|o]|id [|]|]; cbn [step].
  - assert (Hfresh : ∀ s', Observer.refs s' = <[Provider.id (h !!! l) := l]> (Observer.refs s) →
              Observer.inactiveRefs s' !! Provider.id (h !!! l) = None →
              (∀ id, id ≠ Provider.id (h !!! l) →
                     Observer.inactiveRefs s' !! id = Observer.inactiveRefs s !! id) →
              partitions_disjoint s').
    { intros s' Hrefs Hnone Hsame id [Hr Hi].
      destruct (decide (id = Provider.id (h !!! l))) as [->|Hne].
      - rewrite Hnone in Hi. by destruct Hi.
      - rewrite Hrefs, lookup_insert_ne in Hr by done. rewrite Hsame in Hi by done.
        by apply (Hd id). }
    destruct (Provider.persist (h !!! l)) eqn:Hp.
    + destruct (subscribe_persist_cases s h l Hp)
        as [[Hnone ->]|[(st & _ & ->)|(x & _ & Hnone & ->)]]; cbn [this];
        apply Hfresh; obs_simpl; try done;
        try apply lookup_delete_eq; by intros id Hne; rewrite lookup_delete_ne.
    + rewrite (subscribe_not_persist s h l Hp). cbn [this].
      destruct Hop as [Hop|Hnone]; [cbn in Hop; congruence|].
      by apply Hfresh.
  - done.
  - cbn [unsubscribe]. destruct (Observer.refs s !! id) as [l|] eqn:Hr.
    + destruct (Provider.persist (h !!! l)) eqn:Hp.
      * destruct (removeProvider_persist NODE_ENV s h id l Hr Hp) as (-> & _).
        intros id' [Hr' Hi']. obs_simpl.
        destruct (decide (id' = id)) as [->|Hne].
        -- rewrite lookup_delete_eq in Hr'. by destruct Hr'.
        -- rewrite lookup_delete_ne in Hr' by done.
           rewrite assign_inactive_lookup_ne in Hi' by done. by apply (Hd id').
      * rewrite (removeProvider_not_persist NODE_ENV s h id l Hr Hp).
        intros id' [Hr' Hi']. obs_simpl.
        destruct (decide (id' = id)) as [->|Hne].
        -- rewrite lookup_delete_eq in Hr'. by destruct Hr'.
        -- rewrite lookup_delete_ne in Hr' by done. by apply (Hd id').
    + by rewrite removeProvider_absent.
  - cbn [unsubscribe]. unfold_method.
    by destruct (findIndex _ _).
  - done.
Qed.

(** C5 (amended): starting from an observer whose [refs] and
    [inactiveRefs] share no id, the two stay disjoint after every step of
    a sequence of [subscribe] and [unsubscribe] calls (and runs of the
    watcher) in which no provider without [persist] is registered while a
    snapshot is cached under its id, provided the providers' [setFlags] and
    [applyResult] leave the id and the [persist] marker of the provider
    alone. *)
Theorem partitions_disjoint_without_stale_entry s h ops :
  partitions_disjoint s →
  permitted NODE_ENV ops s h →
  ∀ k, partitions_disjoint (this (run NODE_ENV (take k ops) s h)).
Proof.
  revert s h. induction ops as [|op ops IH]; intros s h Hd Hok k.
  - by rewrite take_nil.
  - destruct k as [|k]; [done|]. cbn [take]. rewrite run_cons. cbn.
    destruct Hok as [Hop Hok]. apply IH; [by apply step_disjoint | done].
Qed.
End Identity.

(** ** Restoration and the round trip *)

#[global] Instance contract_keeps_identity {impl : ProviderImpl}
  {contract : ProviderContract impl} : ProviderKeepsIdentity impl.
Proof.
  split; intros; rewrite ?setFlags_replaces, ?applyResult_installs; try done;
    first [ apply setFlagsForeign_registered | apply applyResultForeign_registered ].
Qed.

Section Restoration.
Context {impl : ProviderImpl} {contract : ProviderContract impl}.
Variable NODE_ENV : string.

Implicit Types (s : Observer.t) (h : Heap) (l : loc) (id : string).

Lemma subscribe_persist_restored s h l st :
  Provider.persist (h !!! l) = true →
  lookup_inactive s (Provider.id (h !!! l)) = Stored st →
  subscribe (AsProvider l) s h =
    mkResult tt
      (Observer.set_inactiveRefs
         (delete (Provider.id (h !!! l)) (Observer.inactiveRefs s))
         (Observer.set_refs (<[Provider.id (h !!! l) := l]> (Observer.refs s)) s))
      (<[l := restored st (h !!! l)]> h)
      [CallSetFlags l (InactiveRefCache.flags st); CallApplyResult l st].
Proof.
  intros Hp Hc. rewrite (subscribe_persist_stored s h l st Hp Hc).
  by rewrite applyResult_installs, setFlags_replaces.
Qed.

Lemma subscribe_persist_cached s h l st :
  Provider.persist (h !!! l) = true →
  Observer.inactiveRefs s !! Provider.id (h !!! l) = Some st →
  subscribe (AsProvider l) s h =
    mkResult tt
      (Observer.set_inactiveRefs
         (delete (Provider.id (h !!! l)) (Observer.inactiveRefs s))
         (Observer.set_refs (<[Provider.id (h !!! l) := l]> (Observer.refs s)) s))
      (<[l := restored st (h !!! l)]> h)
      [CallSetFlags l (InactiveRefCache.flags st); CallApplyResult l st].
Proof.
  intros Hp Hc. apply subscribe_persist_restored; [done|]. by apply lookup_inactive_Some.
Qed.

(** C4 (amended): restoration is guarded by the [persist] prop of the
    incoming provider.  When [inactiveRefs] holds a snapshot under its id,
    a provider with [persist] set is registered, receives
    [setFlags(state.flags)] and [applyResult(state)] in this order, which
    leaves it with the snapshot's flags, errors and failed rules, and the
    cache entry is deleted; a provider without [persist] is registered
    and nothing else happens: no call, and the cache entry stays.  Hence
    registering a persistent provider [m], removing it, and registering
    a persistent provider [n] with the same id leaves [n] with the flags,
    errors and failed rules [m] had when it was removed, and no cache
    entry under that id. *)
Theorem restore_requires_persist s h m n st :
  let id := Provider.id (h !!! m) in
  (Observer.inactiveRefs s !! id = Some st →
     let r := subscribe (AsProvider m) s h in
     if Provider.persist (h !!! m) then
       trace r = [CallSetFlags m (InactiveRefCache.flags st); CallApplyResult m st]
       ∧ heap r = <[m := restored st (h !!! m)]> h
       ∧ Provider.flags (heap r !!! m) = InactiveRefCache.flags st
       ∧ Provider.errors (heap r !!! m) = InactiveRefCache.errors st
       ∧ Provider.failedRules (heap r !!! m) = InactiveRefCache.failedRules st
       ∧ Observer.inactiveRefs (this r) = delete id (Observer.inactiveRefs s)
       ∧ Observer.refs (this r) !! id = Some m
     else
       trace r = [] ∧ heap r = h
       ∧ Observer.inactiveRefs (this r) = Observer.inactiveRefs s
       ∧ Observer.refs (this r) !! id = Some m)
  ∧ (Provider.persist (h !!! m) = true →
     Provider.persist (h !!! n) = true →
     Provider.id (h !!! n) = id →
     let r1 := subscribe (AsProvider m) s h in
     let before := heap r1 !!! m in
     let r2 := unsubscribe NODE_ENV id kind_provider (this r1) (heap r1) in
     let r3 := subscribe (AsProvider n) (this r2) (heap r2) in
     Provider.flags (heap r3 !!! n) = Provider.flags before
     ∧ Provider.errors (heap r3 !!! n) = Provider.errors before
     ∧ Provider.failedRules (heap r3 !!! n) = Provider.failedRules before
     ∧ Observer.inactiveRefs (this r3) !! id = None
     ∧ Observer.refs (this r3) !! id = Some n).
Proof.
  intros id. split.
  - intros Hc r. subst r id. destruct (Provider.persist (h !!! m)) eqn:Hp.
    + rewrite (subscribe_persist_cached s h m st Hp Hc). cbn.
      rewrite lookup_total_insert_eq. cbn. repeat split. apply lookup_insert_eq.
    + rewrite (subscribe_not_persist s h m Hp). cbn.
      repeat split. apply lookup_insert_eq.
  - intros Hpm Hpn Hid r1 before r2 r3.
    destruct (subscribe_identity s h (AsProvider m) m) as [Hidm Hpm1].
    destruct (subscribe_identity s h (AsProvider m) n) as [Hidn Hpn1].
    fold r1 in Hidm, Hpm1, Hidn, Hpn1. fold before in Hidm, Hpm1.
    pose proof (subscribe_registers s h m) as Hreg. fold r1 id in Hreg.
    assert (Hpb : Provider.persist before = true) by congruence.
    destruct (removeProvider_persist NODE_ENV (this r1) (heap r1) id m Hreg Hpb)
      as (Hthis & Hheap & _).
    change (removeProvider NODE_ENV id (this r1) (heap r1)) with r2 in Hthis, Hheap.
    assert (Hn : Provider.id (heap r2 !!! n) = id) by (rewrite Hheap; congruence).
    assert (Hpn2 : Provider.persist (heap r2 !!! n) = true) by (rewrite Hheap; congruence).
    assert (Hc : lookup_inactive (this r2) (Provider.id (heap r2 !!! n))
                 = Stored (snapshot id before)).
    { rewrite Hn, Hthis, lookup_inactive_set_refs. apply lookup_inactive_assign. }
    subst r3. rewrite (subscribe_persist_restored _ _ n _ Hpn2 Hc).
    cbn [heap this]. rewrite lookup_total_insert_eq, Hn.
    repeat split; [apply lookup_delete_eq | apply lookup_insert_eq].
Qed.

End Restoration.

(** ** The recompute: errors *)

Lemma JsObject_lookup_empty {V} (key : string) : (∅ : JsObject.t V) !! key = None.
Proof.
  change (JsObject.get key (JsObject.mk (V:=V) ∅ None) = None). unfold JsObject.get.
  by destruct (decide (key = "__proto__")).
Qed.

Lemma JsObject_lookup_set {V} (key : string) (v : V) (o : JsObject.t V) :
  JsObject.set key v o !! key = Some v.
Proof.
  change (JsObject.get key (JsObject.set key v o) = Some v).
  unfold JsObject.get, JsObject.set.
  destruct (decide (key = "__proto__")); cbn; [done | apply lookup_insert_eq].
Qed.

Lemma JsObject_lookup_set_ne {V} (key key' : string) (v : V) (o : JsObject.t V) :
  key ≠ key' → JsObject.set key v o !! key' = o !! key'.
Proof.
  intros Hne. change (JsObject.get key' (JsObject.set key v o) = JsObject.get key' o).
  unfold JsObject.get, JsObject.set.
  destruct (decide (key = "__proto__")) as [->|Hk]; cbn.
  - rewrite !decide_False by congruence. done.
  - destruct (decide (key' = "__proto__")); [done | by apply lookup_insert_ne].
Qed.

Lemma JsObject_own_lookup {V} (o : JsObject.t V) (key : string) :
  key ≠ "__proto__" → JsObject.own o !! key = o !! key.
Proof.
  intros Hne. change (JsObject.own o !! key = JsObject.get key o).
  unfold JsObject.get. by rewrite decide_False.
Qed.

Lemma JsObject_prototype_lookup {V} (o : JsObject.t V) :
  JsObject.prototype o = o !! "__proto__".
Proof. reflexivity. Qed.

Lemma JsObject_own_set_proto {V} (key : string) (v : V) (o : JsObject.t V) :
  JsObject.own (JsObject.set key v o) !! "__proto__" = JsObject.own o !! "__proto__".
Proof.
  unfold JsObject.set. destruct (decide (key = "__proto__")); cbn; [done|].
  by apply lookup_insert_ne.
Qed.

Lemma JsObject_eq {V} (o o' : JsObject.t V) :
  JsObject.own o = JsObject.own o' → JsObject.prototype o = JsObject.prototype o' → o = o'.
Proof. destruct o, o'; cbn. by intros -> ->. Qed.

(** The entry under [id] is written by the last candidate carrying [id]. *)
Lemma collect_errors_foldl (cands : list VM) (acc : JsObject.t ErrVal) (id : string) :
  foldl (λ errors vm, JsObject.set (vm_id vm) (vm_errors vm) errors) acc cands !! id =
    match last_with id cands with
    | Some vm => Some (vm_errors vm)
    | None => acc !! id
    end.
Proof.
  unfold last_with. revert acc. induction cands as [|vm cands IH]; intros acc; [done|].
  cbn [foldl]. rewrite IH. rewrite filter_cons.
  destruct (decide (vm_id vm = id)) as [Heq|Hne].
  - destruct (filter _ cands) as [|vm' l] eqn:Hf.
    + subst id. cbn [last]. apply JsObject_lookup_set.
    + rewrite last_cons_cons. destruct (last (vm' :: l)) eqn:Hl; [done|].
      by apply last_None in Hl.
  - destruct (last _); [done|]. by apply JsObject_lookup_set_ne.
Qed.

Lemma collect_errors_last (cands : list VM) (id : string) :
  collect_errors cands !! id = vm_errors <$> last (filter (λ vm, vm_id vm = id) cands).
Proof.
  unfold collect_errors. rewrite collect_errors_foldl. unfold last_with.
  destruct (last _); [done|]. apply JsObject_lookup_empty.
Qed.

(** No candidate gives the errors object an own property [__proto__]. *)
Lemma collect_errors_own_proto (cands : list VM) :
  JsObject.own (collect_errors cands) !! "__proto__" = None.
Proof.
  unfold collect_errors.
  assert (H : ∀ acc, JsObject.own
                (foldl (λ errors vm, JsObject.set (vm_id vm) (vm_errors vm) errors) acc cands)
                !! "__proto__" = JsObject.own acc !! "__proto__").
  { induction cands as [|vm cands IH]; intros acc; [done|].
    cbn [foldl]. by rewrite IH, JsObject_own_set_proto. }
  by rewrite H.
Qed.

Lemma collect_errors_own (cands : list VM) (id : string) :
  JsObject.own (collect_errors cands) !! id =
    if decide (id = "__proto__") then None else collect_errors cands !! id.
Proof.
  destruct (decide (id = "__proto__")) as [->|Hne].
  - apply collect_errors_own_proto.
  - by apply JsObject_own_lookup.
Qed.

Lemma last_filter_NoDup (cands : list VM) (vm : VM) :
  NoDup (vm_id <$> cands) → vm ∈ cands →
  last (filter (λ vm', vm_id vm' = vm_id vm) cands) = Some vm.
Proof.
  induction cands as [|x cands IH]; intros Hnd Hin; [by apply elem_of_nil in Hin|].
  rewrite fmap_cons in Hnd. apply NoDup_cons in Hnd as [Hx Hnd].
  rewrite filter_cons. apply elem_of_cons in Hin as [->|Hin].
  - rewrite decide_True by done.
    assert (Hnone : filter (λ vm', vm_id vm' = vm_id x) cands = []).
    { destruct (filter (λ vm', vm_id vm' = vm_id x) cands) as [|y l] eqn:Hf; [done|].
      exfalso.
      assert (Hy : y ∈ filter (λ vm', vm_id vm' = vm_id x) cands)
        by (rewrite Hf; left).
      apply list_elem_of_filter in Hy as [Heq Hy].
      apply Hx. rewrite <- Heq. by apply list_elem_of_fmap_2. }
    by rewrite Hnone.
  - rewrite decide_False.
    + by apply IH.
    + intros Heq. apply Hx. rewrite Heq. by apply list_elem_of_fmap_2.
Qed.

Lemma last_with_app (id : string) (l1 l2 : list VM) :
  last_with id (l1 ++ l2) =
    match last_with id l2 with
    | Some vm => Some vm
    | None => last_with id l1
    end.
Proof. unfold last_with. by rewrite filter_app, last_app. Qed.

(** C2 (amended): the candidates are the active providers, the cached
    snapshots and the child observers, in this order, and nothing else.
    The [errors] the watcher assigns is the recomputed one.  Provided no
    candidate has the id [__proto__]: [errors] has an entry under an id
    exactly when a candidate has that id, and the entry is the whole errors
    value of the last candidate with that id, that is of the last child
    observer with that id if there is one, else of a cached snapshot, else
    of an active provider; and when the ids of the candidates are pairwise
    distinct, every candidate has its errors as the entry under its id. *)
Theorem recompute_errors_last_wins (s : Observer.t) (h : Heap) :
  let active := (λ l, vm_of_provider (h !!! l)) <$> values (Observer.refs s) in
  let cached := vm_of_inactive <$> values (Observer.inactiveRefs s) in
  let nested := vm_of_observer <$> Observer.observers s in
  let cands := vms s h in
  let errors := JsObject.own (recompute s h).1 in
  Observer.errors (onChange (recompute s h) s) = (recompute s h).1
  ∧ cands = active ++ cached ++ nested
  ∧ (∀ vm, vm ∈ cands ↔
     (∃ key l, Observer.refs s !! key = Some l ∧ vm = vm_of_provider (h !!! l))
     ∨ (∃ key c, Observer.inactiveRefs s !! key = Some c ∧ vm = vm_of_inactive c)
     ∨ (∃ o, o ∈ Observer.observers s ∧ vm = vm_of_observer o))
  ∧ ((∀ vm, vm ∈ cands → vm_id vm ≠ "__proto__") →
     JsObject.prototype (recompute s h).1 = None
     ∧ (∀ id, errors !! id = vm_errors <$> last (filter (λ vm, vm_id vm = id) cands))
     ∧ (∀ id, errors !! id =
          vm_errors <$>
            match last_with id nested with
            | Some vm => Some vm
            | None => match last_with id cached with
                      | Some vm => Some vm
                      | None => last_with id active
                      end
            end)
     ∧ (∀ id, is_Some (errors !! id) ↔ ∃ vm, vm ∈ cands ∧ vm_id vm = id)
     ∧ (NoDup (vm_id <$> cands) →
        ∀ vm, vm ∈ cands → errors !! vm_id vm = Some (vm_errors vm))).
Proof.
  intros active cached nested cands errors.
  split; [done|]. split; [done|]. split; [apply elem_of_vms|].
  intros Hplain.
  assert (Hnone : last (filter (λ vm, vm_id vm = "__proto__") cands) = None).
  { destruct (last (filter (λ vm, vm_id vm = "__proto__") cands)) as [vm|] eqn:Hl; [|done].
    apply last_Some_elem_of, list_elem_of_filter in Hl as [Hid Hin].
    by destruct (Hplain vm Hin). }
  assert (Hlast : ∀ id, errors !! id
                        = vm_errors <$> last (filter (λ vm, vm_id vm = id) cands)).
  { intros id. subst errors. unfold recompute. cbn [fst].
    rewrite collect_errors_own. destruct (decide (id = "__proto__")) as [->|Hne].
    - by rewrite Hnone.
    - apply collect_errors_last. }
  split.
  { unfold recompute. cbn [fst].
    rewrite JsObject_prototype_lookup, collect_errors_last. fold cands.
    by rewrite Hnone. }
  split; [done|]. split.
  { intros id. rewrite Hlast. f_equal.
    change (last (filter (λ vm, vm_id vm = id) cands))
      with (last_with id (active ++ cached ++ nested)).
    rewrite !last_with_app.
    by destruct (last_with id nested), (last_with id cached). }
  split.
  { intros id. rewrite Hlast, fmap_is_Some. split.
    + intros [vm Hvm]. exists vm.
      assert (Hin : vm ∈ filter (λ vm, vm_id vm = id) cands).
      { apply last_Some in Hvm as [l' ->]. apply elem_of_app. right. by left. }
      by apply list_elem_of_filter in Hin as [? ?].
    + intros (vm & Hin & Hid).
      destruct (filter (λ vm, vm_id vm = id) cands) as [|x l] eqn:Hf.
      * assert (Hin' : vm ∈ filter (λ vm, vm_id vm = id) cands)
          by (by apply list_elem_of_filter).
        rewrite Hf in Hin'. by apply elem_of_nil in Hin'.
      * by apply last_is_Some. }
  intros Hnd vm Hin.
  by rewrite Hlast, (last_filter_NoDup cands vm Hnd Hin).
Qed.

(** ** Trees of observers *)

Lemma Observer_tree_ind (P : Observer.t → Prop) :
  (∀ s, Forall P (Observer.observers s) → P s) → ∀ s, P s.
Proof.
  intros H. fix IH 1. intros s. apply H.
  destruct s as [id refs obs inactive proto errors flags disabled]. cbn.
  induction obs as [|o obs IHobs]; constructor; [apply IH | exact IHobs].
Qed.

Lemma elem_of_concat {A} (x : A) (ls : list (list A)) :
  x ∈ concat ls ↔ ∃ l, l ∈ ls ∧ x ∈ l.
Proof.
  induction ls as [|l ls IH]; cbn.
  - split; [by intros ?%elem_of_nil | by intros (l & ?%elem_of_nil & _)].
  - rewrite elem_of_app, IH. split.
    + intros [Hx|(l' & Hl' & Hx)]; [exists l | exists l']; split; try done.
      * by left.
      * by right.
    + intros (l' & [->|Hl']%elem_of_cons & Hx); [by left | right; eauto].
Qed.

Lemma Observer_eta_inactiveRefs (s : Observer.t) :
  Observer.set_inactiveRefs (Observer.inactiveRefs s) s = s.
Proof. by destruct s. Qed.

Lemma Observer_eta_observers (s : Observer.t) :
  Observer.set_observers (Observer.observers s) s = s.
Proof. by destruct s. Qed.

Section Traversals.
Context {impl : ProviderImpl}.

Implicit Types (s : Observer.t) (h : Heap).

Lemma bind_unfold {A B} (m : Method A) (k : A → Method B) s h :
  (m ≫= k) s h =
    mkResult (value (k (value (m s h)) (this (m s h)) (heap (m s h))))
             (this (k (value (m s h)) (this (m s h)) (heap (m s h))))
             (heap (k (value (m s h)) (this (m s h)) (heap (m s h))))
             (trace (m s h) ++ trace (k (value (m s h)) (this (m s h)) (heap (m s h)))).
Proof. reflexivity. Qed.

Lemma replay_app (t1 t2 : list Event) h :
  replay (t1 ++ t2) h = replay t2 (replay t1 h).
Proof. apply foldl_app. Qed.

Lemma forEach_perform {A} (f : A → Event) (l : list A) s h :
  forEach (λ x, perform (f x)) l s h = mkResult tt s (replay (f <$> l) h) (f <$> l).
Proof.
  revert h. induction l as [|x l IH]; intros h; [done|].
  cbn [forEach]. unfold_method. rewrite IH. reflexivity.
Qed.

Lemma forEach_delete (ks : list string) s h :
  forEach (λ key, modify (λ s, Observer.set_inactiveRefs
                                 (delete key (Observer.inactiveRefs s)) s)) ks s h =
    mkResult tt
      (Observer.set_inactiveRefs (foldl (λ m k, delete k m) (Observer.inactiveRefs s) ks) s)
      h [].
Proof.
  revert s. induction ks as [|k ks IH]; intros s.
  - cbn. by rewrite Observer_eta_inactiveRefs.
  - cbn [forEach]. unfold_method. rewrite IH. reflexivity.
Qed.

Lemma foldl_delete_lookup {V} (ks : list string) (m : gmap string V) (k : string) :
  foldl (λ m k, delete k m) m ks !! k = if decide (k ∈ ks) then None else m !! k.
Proof.
  revert m. induction ks as [|k' ks IH]; intros m; [done|].
  cbn [foldl]. rewrite IH. destruct (decide (k ∈ ks)) as [Hin|Hnin].
  - rewrite decide_True; [done | by right].
  - destruct (decide (k = k')) as [->|Hne].
    + rewrite decide_True by (by left). apply lookup_delete_eq.
    + rewrite decide_False.
      * by apply lookup_delete_ne.
      * by intros [?|?]%elem_of_cons.
Qed.

Lemma foldl_delete_keys {V} (m : gmap string V) :
  foldl (λ m k, delete k m) m (keys m) = ∅.
Proof.
  apply map_eq. intros k. rewrite foldl_delete_lookup, lookup_empty.
  destruct (decide (k ∈ keys m)) as [Hin|Hnin]; [done|].
  destruct (m !! k) as [v|] eqn:Hk; [|done].
  exfalso. apply Hnin, elem_of_keys. eauto.
Qed.

Lemma forEachObserver_spec (m : Observer.t → Heap → Result unit)
    (f_this : Observer.t → Observer.t) (f_trace : Observer.t → list Event)
    (os : list Observer.t) :
  Forall (λ o, ∀ h, m o h = mkResult tt (f_this o) (replay (f_trace o) h) (f_trace o)) os →
  ∀ s h, forEachObserver m os s h =
           mkResult tt (Observer.set_observers (f_this <$> os) s)
             (replay (concat (f_trace <$> os)) h) (concat (f_trace <$> os)).
Proof.
  intros Hos s h. unfold forEachObserver.
  assert (Hgo : ∀ h, observers_loop m os h =
            (f_this <$> os, replay (concat (f_trace <$> os)) h, concat (f_trace <$> os))).
  { clear s h. induction Hos as [|o os Ho Hos IH]; intros h; [done|].
    cbn [observers_loop]. rewrite Ho. cbn [heap this trace]. rewrite IH.
    rewrite !fmap_cons. cbn [concat]. by rewrite replay_app. }
  by rewrite Hgo.
Qed.

(** *** reset *)

Lemma reset_unfold s :
  reset s =
    (inactiveRefs ← get Observer.inactiveRefs;
     forEach (λ key, modify (λ s, Observer.set_inactiveRefs
                                    (delete key (Observer.inactiveRefs s)) s))
             (keys inactiveRefs);;
     refs ← get Observer.refs;
     forEach (λ ref, perform (CallReset ref)) (values refs);;
     forEachObserver reset (Observer.observers s)) s.
Proof. by destruct s. Qed.

(** The steps of [reset] that come before the loop over the children
    leave [this.observers] alone. *)
Lemma reset_prefix_observers s h :
  let r := (inactiveRefs ← get Observer.inactiveRefs;
            forEach (λ key, modify (λ s, Observer.set_inactiveRefs
                                           (delete key (Observer.inactiveRefs s)) s))
                    (keys inactiveRefs);;
            refs ← get Observer.refs;
            forEach (λ ref, perform (CallReset ref)) (values refs)) s h in
  Observer.observers (this r) = Observer.observers s
  ∧ Observer.inactiveRefs (this r) = ∅
  ∧ trace r = CallReset <$> values (Observer.refs s).
Proof.
  unfold_bind. rewrite forEach_delete. obs_simpl.
  rewrite forEach_perform. obs_simpl. by rewrite foldl_delete_keys.
Qed.

Lemma reset_spec s h :
  reset s h = mkResult tt (cleared s) (replay (reset_calls s) h) (reset_calls s).
Proof.
  revert h. induction s as [s IH] using Observer_tree_ind. intros h.
  rewrite reset_unfold. unfold_bind.
  rewrite forEach_delete. obs_simpl. rewrite forEach_perform. obs_simpl.
  rewrite (forEachObserver_spec reset cleared reset_calls _ IH). obs_simpl.
  rewrite foldl_delete_keys.
  destruct s as [id refs obs inactive proto errors flags disabled].
  cbn [cleared reset_calls app]. obs_simpl. by rewrite replay_app.
Qed.

Lemma elem_of_reset_calls s e :
  e ∈ reset_calls s ↔
    ∃ o key l, in_tree o s ∧ Observer.refs o !! key = Some l ∧ e = CallReset l.
Proof.
  induction s as [s IH] using Observer_tree_ind.
  destruct s as [id refs obs inactive proto errors flags disabled].
  cbn [reset_calls Observer.refs Observer.observers] in *.
  rewrite elem_of_app, list_elem_of_fmap, elem_of_concat. split.
  - intros [(l & -> & (key & Hk)%elem_of_values)|(t & Ht & He)].
    + eexists _, key, l. split; [apply in_tree_here|]. by split.
    + apply list_elem_of_fmap in Ht as (c & -> & Hc).
      rewrite Forall_forall in IH. apply (IH c Hc) in He as (o & key & l & Ho & Hk & ->).
      exists o, key, l. split; [|done]. by eapply in_tree_child.
  - intros (o & key & l & Ho & Hk & ->). inversion Ho as [|o' c s' Hc Hoc]; subst.
    + left. exists l. split; [done|]. apply elem_of_values. eauto.
    + right. cbn in Hc. exists (reset_calls c). split; [by apply list_elem_of_fmap_2|].
      rewrite Forall_forall in IH. apply (IH c Hc). eauto 6.
Qed.
End Traversals.

(** C6: [reset] returns nothing.  It first empties [inactiveRefs], so that
    the calls that follow are made by an observer without cached snapshots,
    then calls [reset] on every active provider and on every child observer,
    disabled or not; the children do the same, so that every cache of the
    tree ends up empty and the calls are exactly one [reset] per active
    provider of each observer of the tree. *)
Theorem reset_clears_then_resets {impl : ProviderImpl} (s : Observer.t) (h : Heap) :
  let r := reset s h in
  value r = tt
  ∧ reset s h =
      (refs ← get Observer.refs;
       forEach (λ ref, perform (CallReset ref)) (values refs);;
       forEachObserver reset (Observer.observers s))
        (Observer.set_inactiveRefs ∅ s) h
  ∧ Observer.inactiveRefs (this r) = ∅
  ∧ Observer.refs (this r) = Observer.refs s
  ∧ Observer.observers (this r) = (λ o, this (reset o h)) <$> Observer.observers s
  ∧ this r = cleared s
  ∧ trace r = (CallReset <$> values (Observer.refs s))
              ++ concat ((λ o, trace (reset o h)) <$> Observer.observers s)
  ∧ heap r = replay (trace r) h
  ∧ (∀ e, e ∈ trace r ↔
       ∃ o key l, in_tree o s ∧ Observer.refs o !! key = Some l ∧ e = CallReset l).
Proof.
  intros r. subst r. split; [by destruct (value (reset s h))|]. split.
  { rewrite reset_unfold. unfold_bind. rewrite forEach_delete. obs_simpl.
    by rewrite foldl_delete_keys. }
  assert (Hchildren_this : (λ o, this (reset o h)) <$> Observer.observers s
                           = cleared <$> Observer.observers s).
  { apply list_fmap_ext. intros i o _. by rewrite reset_spec. }
  assert (Hchildren_trace : (λ o, trace (reset o h)) <$> Observer.observers s
                            = reset_calls <$> Observer.observers s).
  { apply list_fmap_ext. intros i o _. by rewrite reset_spec. }
  rewrite Hchildren_this, Hchildren_trace, reset_spec. obs_simpl.
  destruct s as [id refs obs inactive proto errors flags disabled].
  cbn [cleared reset_calls]. obs_simpl. repeat split; try done.
  - by intros ?%(elem_of_reset_calls (Observer.mk id refs obs inactive proto errors flags disabled)).
  - by intros ?%(elem_of_reset_calls (Observer.mk id refs obs inactive proto errors flags disabled)).
Qed.

(** ** setErrors *)

Section SetErrors.
Context {impl : ProviderImpl}.

Implicit Types (s : Observer.t) (h : Heap) (errors : gmap string (list string)).

Lemma setErrors_unfold errors s :
  setErrors errors s =
    (c ← forEachUntil (setErrors_key errors) (keys errors);
     match c with
     | TypeError => mret TypeError
     | Normal => forEachObserverUntil (setErrors errors) (Observer.observers s)
     end) s.
Proof. by destruct s. Qed.

Lemma setErrors_key_registered errors key s h l :
  Observer.refs s !! key = Some l →
  setErrors_key errors key s h =
    mkResult Normal s (effect (CallSetErrors l (default [] (errors !! key))) h)
      [CallSetErrors l (default [] (errors !! key))].
Proof.
  intros Hk. unfold setErrors_key. unfold_method. by rewrite (lookup_ref_Some _ _ _ Hk).
Qed.

Lemma setErrors_key_ordinary errors key s h :
  Observer.refs s !! key = None → key ∉ Object_prototype →
  setErrors_key errors key s h = mkResult Normal s h [].
Proof.
  intros Hk Ho. unfold setErrors_key. unfold_method.
  by rewrite (lookup_ref_None _ _ Hk), from_Object_prototype_ordinary.
Qed.

Lemma setErrors_key_inherited errors key s h :
  Observer.refs s !! key = None → key ∈ Object_prototype →
  setErrors_key errors key s h = mkResult TypeError s h [].
Proof.
  intros Hk Ho. unfold setErrors_key. unfold_method.
  by rewrite (lookup_ref_None _ _ Hk), from_Object_prototype_inherited.
Qed.

Lemma forEachUntil_cons {A} (f : A → Method Completion) (x : A) (l : list A) s h :
  forEachUntil f (x :: l) s h =
    (c ← f x; match c with Normal => forEachUntil f l | TypeError => mret TypeError end) s h.
Proof. reflexivity. Qed.

(** The loop over the keys when no key that is not registered is a name
    of [Object.prototype]. *)
Lemma forEachUntil_setErrors_normal errors (ks : list string) s h :
  (∀ key, key ∈ ks → Observer.refs s !! key = None → key ∉ Object_prototype) →
  let calls := omap (λ key, (λ provider, CallSetErrors provider (default [] (errors !! key)))
                              <$> Observer.refs s !! key) ks in
  forEachUntil (setErrors_key errors) ks s h = mkResult Normal s (replay calls h) calls.
Proof.
  revert h. induction ks as [|k ks IH]; intros h Hks; [done|].
  rewrite forEachUntil_cons, bind_unfold. cbn [omap list_omap].
  destruct (Observer.refs s !! k) as [l|] eqn:Hk.
  - rewrite (setErrors_key_registered errors k s h l Hk). cbn [value this heap trace].
    rewrite IH by (intros key Hin; apply Hks; by right). reflexivity.
  - rewrite (setErrors_key_ordinary errors k s h Hk) by (apply Hks; [by left | done]).
    cbn [value this heap trace].
    rewrite IH by (intros key Hin; apply Hks; by right). reflexivity.
Qed.

(** The loop over the keys in general: the receiver is untouched, every
    call is a [setErrors] on a provider registered under a key of the loop,
    and a throw comes from a key that is not registered and is a name of
    [Object.prototype]. *)
Lemma forEachUntil_setErrors_sound errors (ks : list string) s h :
  let r := forEachUntil (setErrors_key errors) ks s h in
  this r = s
  ∧ heap r = replay (trace r) h
  ∧ (∀ e, e ∈ trace r →
       ∃ key l, key ∈ ks ∧ Observer.refs s !! key = Some l
                ∧ e = CallSetErrors l (default [] (errors !! key)))
  ∧ (value r = TypeError ↔
       ∃ key, key ∈ ks ∧ Observer.refs s !! key = None ∧ key ∈ Object_prototype).
Proof.
  revert h. induction ks as [|k ks IH]; intros h.
  - cbn. split; [done|]. split; [done|]. split; [by intros e ?%elem_of_nil|].
    split; [done | by intros (key & ?%elem_of_nil & _)].
  - cbn zeta. rewrite forEachUntil_cons, bind_unfold.
    destruct (Observer.refs s !! k) as [l|] eqn:Hk.
    + rewrite (setErrors_key_registered errors k s h l Hk). cbn [value this heap trace].
      destruct (IH (effect (CallSetErrors l (default [] (errors !! k))) h))
        as (Hthis & Hheap & Htrace & Hthrow).
      split; [done|]. split; [by rewrite Hheap|]. split.
      * intros e [->|He]%elem_of_cons.
        -- exists k, l. split; [by left | done].
        -- destruct (Htrace e He) as (key & l' & Hin & Hl' & ->).
           exists key, l'. split; [by right | done].
      * rewrite Hthrow. split.
        -- intros (key & Hin & Hkey). exists key. split; [by right | done].
        -- intros (key & [->|Hin]%elem_of_cons & Hnone & Hproto); [congruence | eauto].
    + destruct (decide (k ∈ Object_prototype)) as [Hproto|Hord].
      * rewrite (setErrors_key_inherited errors k s h Hk Hproto). cbn.
        split; [done|]. split; [done|]. split; [by intros e ?%elem_of_nil|].
        split; [|done]. intros _. exists k. split; [by left | done].
      * rewrite (setErrors_key_ordinary errors k s h Hk Hord). cbn [value this heap trace].
        destruct (IH h) as (Hthis & Hheap & Htrace & Hthrow).
        split; [done|]. split; [done|]. split.
        -- intros e He. destruct (Htrace e He) as (key & l' & Hin & Hl' & ->).
           exists key, l'. split; [by right | done].
        -- rewrite Hthrow. split.
           ++ intros (key & Hin & Hkey). exists key. split; [by right | done].
           ++ intros (key & [->|Hin]%elem_of_cons & Hnone & Hproto); [done | eauto].
Qed.

(** The loop over the children when none of them throws. *)
Lemma forEachObserverUntil_normal (m : Observer.t → Heap → Result Completion)
    (f_trace : Observer.t → list Event) (os : list Observer.t) :
  Forall (λ o, ∀ h, m o h = mkResult Normal o (replay (f_trace o) h) (f_trace o)) os →
  ∀ s h, forEachObserverUntil m os s h =
           mkResult Normal (Observer.set_observers os s)
             (replay (concat (f_trace <$> os)) h) (concat (f_trace <$> os)).
Proof.
  intros Hos s h. unfold forEachObserverUntil.
  assert (Hgo : ∀ h, observers_loop_until m os h =
            (os, replay (concat (f_trace <$> os)) h, concat (f_trace <$> os), Normal)).
  { clear s h. induction Hos as [|o os Ho Hos IH]; intros h; [done|].
    cbn [observers_loop_until]. rewrite Ho. cbn [value heap this trace]. rewrite IH.
    rewrite !fmap_cons. cbn [concat]. by rewrite replay_app. }
  by rewrite Hgo.
Qed.

(** The loop over the children in general. *)
Lemma forEachObserverUntil_sound (m : Observer.t → Heap → Result Completion)
    (P : Observer.t → Event → Prop) (os : list Observer.t) :
  Forall (λ o, ∀ h, this (m o h) = o ∧ heap (m o h) = replay (trace (m o h)) h
                    ∧ (∀ e, e ∈ trace (m o h) → P o e)) os →
  ∀ s h, let r := forEachObserverUntil m os s h in
         this r = Observer.set_observers os s
         ∧ heap r = replay (trace r) h
         ∧ (∀ e, e ∈ trace r → ∃ o, o ∈ os ∧ P o e)
         ∧ (value r = TypeError → ∃ o h', o ∈ os ∧ value (m o h') = TypeError).
Proof.
  intros Hos s h. unfold forEachObserverUntil. cbn zeta. cbn [this heap trace value].
  assert (Hgo : ∀ h, let r := observers_loop_until m os h in
            r.1.1.1 = os ∧ r.1.1.2 = replay r.1.2 h
            ∧ (∀ e, e ∈ r.1.2 → ∃ o, o ∈ os ∧ P o e)
            ∧ (r.2 = TypeError → ∃ o h', o ∈ os ∧ value (m o h') = TypeError)).
  { clear s h. induction Hos as [|o os Ho Hos IH]; intros h.
    - cbn. split; [done|]. split; [done|]. split; [by intros e ?%elem_of_nil | done].
    - cbn zeta. cbn [observers_loop_until].
      destruct (Ho h) as (Hthis & Hheap & Htrace).
      destruct (value (m o h)) eqn:Hv.
      + destruct (IH (heap (m o h))) as (IH1 & IH2 & IH3 & IH4).
        destruct (observers_loop_until m os (heap (m o h))) as [[[os' h'] t] c].
        cbn [fst snd] in *. subst os' h'. rewrite Hthis.
        split; [done|]. split; [by rewrite replay_app, <- Hheap|]. split.
        * intros e [He|He]%elem_of_app.
          -- exists o. split; [by left | by apply Htrace].
          -- destruct (IH3 e He) as (o' & Ho' & HP). exists o'. split; [by right | done].
        * intros Hc. destruct (IH4 Hc) as (o' & h' & Ho' & Hv').
          exists o', h'. split; [by right | done].
      + cbn [fst snd]. rewrite Hthis. split; [done|]. split; [done|]. split.
        * intros e He. exists o. split; [by left | by apply Htrace].
        * intros _. exists o, h. split; [by left | done]. }
  destruct (Hgo h) as (H1 & H2 & H3 & H4). rewrite H1. done.
Qed.

(** A child that throws whatever the heap makes the loop throw. *)
Lemma forEachObserverUntil_throws (m : Observer.t → Heap → Result Completion)
    (os : list Observer.t) (o : Observer.t) :
  o ∈ os → (∀ h, value (m o h) = TypeError) →
  ∀ s h, value (forEachObserverUntil m os s h) = TypeError.
Proof.
  intros Ho Hthrow s h. unfold forEachObserverUntil. cbn [value].
  revert h. induction os as [|o' os IH]; intros h; [by apply elem_of_nil in Ho|].
  cbn [observers_loop_until]. destruct (value (m o' h)) eqn:Hv; [|done].
  apply elem_of_cons in Ho as [->|Ho]; [by rewrite Hthrow in Hv|].
  specialize (IH Ho (heap (m o' h))).
  by destruct (observers_loop_until m os (heap (m o' h))) as [[[os' h'] t] c].
Qed.

Lemma elem_of_setErrors_calls errors s e :
  e ∈ setErrors_calls errors s ↔
    ∃ o key l msgs, in_tree o s ∧ errors !! key = Some msgs
                    ∧ Observer.refs o !! key = Some l ∧ e = CallSetErrors l msgs.
Proof.
  induction s as [s IH] using Observer_tree_ind.
  destruct s as [id refs obs inactive proto errs flags disabled].
  cbn [setErrors_calls Observer.refs Observer.observers] in *.
  rewrite elem_of_app, list_elem_of_omap, elem_of_concat. split.
  - intros [(key & [msgs Hm]%elem_of_keys & Hsome)|(t & Ht & He)].
    + destruct (refs !! key) as [l|] eqn:Hk; [|done]. cbn in Hsome.
      injection Hsome as <-. rewrite Hm. cbn.
      eexists _, key, l, msgs. split; [apply in_tree_here|]. by repeat split.
    + apply list_elem_of_fmap in Ht as (c & -> & Hc).
      rewrite Forall_forall in IH.
      apply (IH c Hc) in He as (o & key & l & msgs & Ho & Hm & Hk & ->).
      exists o, key, l, msgs. split; [|done]. by eapply in_tree_child.
  - intros (o & key & l & msgs & Ho & Hm & Hk & ->).
    inversion Ho as [|o' c s' Hc Hoc]; subst.
    + left. exists key. split; [apply elem_of_keys; eauto|].
      cbn in Hk. by rewrite Hk, Hm.
    + right. cbn in Hc. exists (setErrors_calls errors c).
      split; [by apply list_elem_of_fmap_2|].
      rewrite Forall_forall in IH. apply (IH c Hc). eauto 8.
Qed.

(** [setErrors] when no key of the argument is, for an observer of the
    tree that has no provider under it, a name of [Object.prototype]. *)
Lemma setErrors_normal errors s h :
  (∀ o key, in_tree o s → is_Some (errors !! key) →
            Observer.refs o !! key = None → key ∉ Object_prototype) →
  setErrors errors s h =
    mkResult Normal s (replay (setErrors_calls errors s) h) (setErrors_calls errors s).
Proof.
  revert h. induction s as [s IH] using Observer_tree_ind. intros h Hok.
  rewrite setErrors_unfold, bind_unfold.
  rewrite forEachUntil_setErrors_normal
    by (intros key Hin%elem_of_keys; by apply (Hok s key (in_tree_here s))).
  cbn [value this heap trace].
  assert (Hchildren : Forall (λ o, ∀ h, setErrors errors o h =
              mkResult Normal o (replay (setErrors_calls errors o) h)
                (setErrors_calls errors o)) (Observer.observers s)).
  { rewrite Forall_forall in IH |- *. intros c Hc h'. apply (IH c Hc).
    intros o key Ho. apply Hok. by eapply in_tree_child. }
  rewrite (forEachObserverUntil_normal (setErrors errors) (setErrors_calls errors) _ Hchildren).
  cbn [value this heap trace]. rewrite Observer_eta_observers.
  destruct s as [id refs obs inactive proto errs flags disabled].
  cbn [setErrors_calls]. obs_simpl. by rewrite replay_app.
Qed.

(** [setErrors] in general: the observers are untouched, the heap is the
    one its calls leave, every call is a [setErrors] on a provider
    registered somewhere in the tree under a key of the argument, and a
    throw comes from a key that some observer of the tree does not have
    and [Object.prototype] has. *)
Lemma setErrors_sound errors s h :
  let r := setErrors errors s h in
  this r = s
  ∧ heap r = replay (trace r) h
  ∧ (∀ e, e ∈ trace r → e ∈ setErrors_calls errors s)
  ∧ (value r = TypeError →
       ∃ o key, in_tree o s ∧ is_Some (errors !! key)
                ∧ Observer.refs o !! key = None ∧ key ∈ Object_prototype).
Proof.
  revert h. induction s as [s IH] using Observer_tree_ind. intros h. cbn zeta.
  rewrite setErrors_unfold, bind_unfold.
  destruct (forEachUntil_setErrors_sound errors (keys errors) s h)
    as (Hthis & Hheap & Htrace & Hthrow).
  assert (Hown : ∀ e, e ∈ trace (forEachUntil (setErrors_key errors) (keys errors) s h) →
                      e ∈ setErrors_calls errors s).
  { intros e He. destruct (Htrace e He) as (key & l & [msgs Hm]%elem_of_keys & Hl & ->).
    apply elem_of_setErrors_calls. exists s, key, l, msgs.
    split; [apply in_tree_here|]. by rewrite Hm. }
  destruct (value (forEachUntil (setErrors_key errors) (keys errors) s h)) eqn:Hv.
  - rewrite Hthis.
    assert (Hchildren : Forall (λ o, ∀ h, this (setErrors errors o h) = o
              ∧ heap (setErrors errors o h) = replay (trace (setErrors errors o h)) h
              ∧ (∀ e, e ∈ trace (setErrors errors o h) →
                      e ∈ setErrors_calls errors o)) (Observer.observers s)).
    { rewrite Forall_forall in IH |- *. intros c Hc h'.
      destruct (IH c Hc h') as (? & ? & ? & _). done. }
    destruct (forEachObserverUntil_sound (setErrors errors)
                (λ o e, e ∈ setErrors_calls errors o) _ Hchildren s
                (heap (forEachUntil (setErrors_key errors) (keys errors) s h)))
      as (Hthis' & Hheap' & Htrace' & Hthrow').
    cbn [value this heap trace].
    split; [by rewrite Hthis', Observer_eta_observers|].
    split; [by rewrite replay_app, <- Hheap|]. split.
    + intros e [He|He]%elem_of_app; [by apply Hown|].
      destruct (Htrace' e He) as (o & Ho & Hcalls).
      apply elem_of_setErrors_calls in Hcalls as (o' & key & l & msgs & Ho' & Hrest).
      apply elem_of_setErrors_calls. exists o', key, l, msgs.
      split; [by eapply in_tree_child | done].
    + intros Hc. destruct (Hthrow' Hc) as (o & h' & Ho & Hvo).
      rewrite Forall_forall in IH. destruct (IH o Ho h') as (_ & _ & _ & Horigin).
      destruct (Horigin Hvo) as (o' & key & Ho' & Hrest).
      exists o', key. split; [by eapply in_tree_child | done].
  - cbn [value this heap trace]. rewrite app_nil_r.
    split; [done|]. split; [done|]. split; [done|].
    intros _. destruct (proj1 Hthrow eq_refl) as (key & Hin%elem_of_keys & Hnone & Hproto).
    exists s, key. split; [apply in_tree_here | done].
Qed.

(** A key of the argument that an observer of the tree does not have and
    [Object.prototype] has makes [setErrors] throw. *)
Lemma setErrors_throws errors s h o key :
  in_tree o s → is_Some (errors !! key) →
  Observer.refs o !! key = None → key ∈ Object_prototype →
  value (setErrors errors s h) = TypeError.
Proof.
  intros Ho Hm Hk Hproto. revert h.
  induction Ho as [s|o c s Hc Hoc IH]; intros h; rewrite setErrors_unfold, bind_unfold.
  - destruct (forEachUntil_setErrors_sound errors (keys errors) s h) as (_ & _ & _ & Hthrow).
    rewrite (proj2 Hthrow); [done|]. exists key. split; [by apply elem_of_keys | done].
  - destruct (value (forEachUntil (setErrors_key errors) (keys errors) s h)) eqn:Hv; [|done].
    cbn [value].
    destruct (forEachUntil_setErrors_sound errors (keys errors) s h) as (-> & _).
    by apply (forEachObserverUntil_throws (setErrors errors) _ c Hc (IH Hk)).
Qed.
End SetErrors.

(** C7, as stated, fails, and the code is at fault: "toString" is a key
    of the argument and no provider is registered under it, here or in the
    child.  [this.refs["toString"]] reads the function inherited from
    [Object.prototype], the guard [if (!provider)] lets it through, and the
    call of its [setErrors], which is [undefined], throws a [TypeError]:
    the key is not ignored, the provider registered under the other key
    gets no call, and the child observer never receives the argument.  A
    key that is not a name of [Object.prototype] is ignored. *)
Theorem setErrors_inherited_key_throws :
  let errors : gmap string (list string) :=
    {[ "toString" := ["taken"]; "email" := ["bad"] ]} in
  let r := setErrors (impl:=plain_provider) errors parent_form sample_heap in
  (∀ o, in_tree o parent_form → Observer.refs o !! "toString" = None)
  ∧ value r = TypeError
  ∧ (CallSetErrors 1%positive ["bad"] ∉ trace r)
  ∧ setErrors (impl:=plain_provider) {[ "zip" := ["taken"]; "email" := ["bad"] ]}
      parent_form sample_heap
    = mkResult Normal parent_form
        (<[1%positive := Provider.set_errors ["bad"] (sample_heap !!! 1%positive)]> sample_heap)
        [CallSetErrors 1%positive ["bad"]].
Proof.
  cbn zeta. split; [|split; [|split]].
  - intros o Ho. inversion Ho as [|o' c s' Hc Hoc]; subst; [reflexivity|].
    cbn in Hc. apply list_elem_of_singleton in Hc as ->.
    inversion Hoc as [|o'' c' s'' Hc' Hoc']; subst; [reflexivity|].
    cbn in Hc'. by apply elem_of_nil in Hc'.
  - reflexivity.
  - vm_compute. by intros ?%elem_of_nil.
  - reflexivity.
Qed.

(** ** validate *)

Section ValidateProps.
Context {impl : ProviderImpl}.

Implicit Types (s : Observer.t) (h : Heap) (silent : bool).

Lemma omap_enabled {B} (f : Observer.t → B) (os : list Observer.t) :
  omap (λ obs, if Observer.disabled obs then None else Some (f obs)) os =
    f <$> filter (λ o, Observer.disabled o = false) os.
Proof.
  induction os as [|o os IH]; [done|].
  cbn [omap list_omap]. rewrite filter_cons.
  destruct (Observer.disabled o) eqn:Hd.
  - by rewrite decide_False.
  - rewrite decide_True by done. by rewrite fmap_cons, <- IH.
Qed.

(** The body of [validate] as the source has it. *)
Lemma validate_unfold silent s h :
  validate silent s h =
    then_ (forallb (λ r : bool, r))
      (Promise_all
         (((λ ref, then_ ValidationResult.valid (call_validate silent h ref))
             <$> filter (λ r, Provider.disabled (h !!! r) = false)
                        (values (Observer.refs s)))
          ++ ((λ obs, validate silent obs h)
                <$> filter (λ o, Observer.disabled o = false) (Observer.observers s)))).
Proof. rewrite <- omap_enabled. by destruct s. Qed.

Lemma call_validate_eq silent h ref :
  call_validate silent h ref = (validate_outcome silent h ref, [validate_call silent ref]).
Proof. by destruct silent. Qed.

Lemma all_settled_true (ps : list (Promise bool)) :
  (then_ (forallb (λ r : bool, r)) (Promise_all ps)).1 = Fulfilled true
  ↔ Forall (λ p, p.1 = Fulfilled true) ps.
Proof.
  unfold then_, Promise_all. cbn [fst].
  induction ps as [|[[b|] t] ps IH]; cbn.
  - split; [constructor | done].
  - destruct (all_settled ps.*1) as [rs|] eqn:Hall.
    + cbn in *. rewrite Forall_cons. cbn. destruct b; cbn.
      * rewrite IH. tauto.
      * split; [done | by intros [? _]].
    + rewrite Forall_cons. cbn in IH. split; [done | intros [_ H]]. by apply IH in H.
  - rewrite Forall_cons. cbn. split; [done | by intros [? _]].
Qed.

Lemma leaf_promise_true silent h ref :
  (then_ ValidationResult.valid (call_validate silent h ref)).1 = Fulfilled true
  ↔ ∃ r, validate_outcome silent h ref = Fulfilled r ∧ ValidationResult.valid r = true.
Proof.
  rewrite call_validate_eq. unfold then_. cbn.
  destruct (validate_outcome silent h ref) as [r|]; split.
  - intros [= Hv]. eauto.
  - by intros (r' & [= <-] & ->).
  - done.
  - by intros (r' & ? & _).
Qed.

Lemma elem_of_enabled_refs s h ref :
  ref ∈ filter (λ r, Provider.disabled (h !!! r) = false) (values (Observer.refs s))
  ↔ (∃ key, Observer.refs s !! key = Some ref) ∧ Provider.disabled (h !!! ref) = false.
Proof. rewrite list_elem_of_filter, elem_of_values. tauto. Qed.

Lemma validate_trace silent s h :
  (validate silent s h).2 =
    (validate_call silent <$> filter (λ r, Provider.disabled (h !!! r) = false)
                                     (values (Observer.refs s)))
    ++ concat ((λ obs, (validate silent obs h).2)
                 <$> filter (λ o, Observer.disabled o = false) (Observer.observers s)).
Proof.
  rewrite validate_unfold. unfold then_ at 1, Promise_all. cbn [snd].
  rewrite fmap_app, concat_app. f_equal.
  - induction (filter _ (values _)) as [|ref l IH]; [done|].
    rewrite !fmap_cons. cbn [concat]. rewrite IH, call_validate_eq. done.
  - by rewrite <- list_fmap_compose.
Qed.

Lemma validate_result silent s h :
  (validate silent s h).1 = Fulfilled true ↔
    (∀ ref, ref ∈ filter (λ r, Provider.disabled (h !!! r) = false)
                         (values (Observer.refs s)) →
       ∃ r, validate_outcome silent h ref = Fulfilled r ∧ ValidationResult.valid r = true)
    ∧ (∀ obs, obs ∈ filter (λ o, Observer.disabled o = false) (Observer.observers s) →
         (validate silent obs h).1 = Fulfilled true).
Proof.
  rewrite validate_unfold, all_settled_true, Forall_app, !Forall_fmap, !Forall_forall.
  split; intros [Hl Ho]; (split; [intros ref Href | done]).
  - apply leaf_promise_true. by apply Hl.
  - apply leaf_promise_true. by apply Hl.
Qed.

Lemma reaches_inv h s ref :
  reaches h s ref ↔
    ref ∈ filter (λ r, Provider.disabled (h !!! r) = false) (values (Observer.refs s))
    ∨ ∃ obs, obs ∈ filter (λ o, Observer.disabled o = false) (Observer.observers s)
             ∧ reaches h obs ref.
Proof.
  rewrite elem_of_enabled_refs. setoid_rewrite list_elem_of_filter. split.
  - intros H. inversion H; subst; [left; eauto | right; eauto].
  - intros [[[key Hk] Hd]|(obs & [Hd Hin] & Hr)].
    + by eapply reaches_own.
    + by eapply reaches_nested.
Qed.

Lemma validate_trace_reaches silent s h e :
  e ∈ (validate silent s h).2 ↔ ∃ ref, reaches h s ref ∧ e = validate_call silent ref.
Proof.
  induction s as [s IH] using Observer_tree_ind. rewrite Forall_forall in IH.
  rewrite validate_trace, elem_of_app, list_elem_of_fmap, elem_of_concat.
  setoid_rewrite reaches_inv at 1. split.
  - intros [(ref & -> & Href)|(t & Ht & He)]; [eauto|].
    apply list_elem_of_fmap in Ht as (obs & -> & Hobs).
    assert (Hin : obs ∈ Observer.observers s)
      by (by apply list_elem_of_filter in Hobs as [_ ?]).
    apply (IH obs Hin) in He as (ref & Hr & ->). eauto 6.
  - intros (ref & [Href|(obs & Hobs & Hr)] & ->); [left; eauto|].
    right. exists (validate silent obs h).2. split.
    + by apply (list_elem_of_fmap_2 (λ obs, (validate silent obs h).2)).
    + assert (Hin : obs ∈ Observer.observers s)
        by (by apply list_elem_of_filter in Hobs as [_ ?]).
      apply (IH obs Hin). eauto.
Qed.

Lemma validate_result_reaches silent s h :
  (validate silent s h).1 = Fulfilled true ↔
    ∀ ref, reaches h s ref →
      ∃ r, validate_outcome silent h ref = Fulfilled r ∧ ValidationResult.valid r = true.
Proof.
  induction s as [s IH] using Observer_tree_ind. rewrite Forall_forall in IH.
  rewrite validate_result. split.
  - intros [Hl Ho] ref [Href|(obs & Hobs & Hr)]%reaches_inv; [by apply Hl|].
    assert (Hin : obs ∈ Observer.observers s)
      by (by apply list_elem_of_filter in Hobs as [_ ?]).
    by apply (IH obs Hin); [apply Ho|].
  - intros H. split.
    + intros ref Href. apply H, reaches_inv. by left.
    + intros obs Hobs.
      assert (Hin : obs ∈ Observer.observers s)
        by (by apply list_elem_of_filter in Hobs as [_ ?]).
      apply (IH obs Hin). intros ref Hr. apply H, reaches_inv. right. eauto.
Qed.
End ValidateProps.

(** C3: [validate({silent})] calls [validateSilent()] (when [silent]) or
    [validate()] (otherwise) on the active providers that are not disabled
    and on no other provider of the observer, and [validate({silent})] on
    the child observers that are not disabled; it is fulfilled with [true]
    exactly when every one of these calls is fulfilled with a true outcome
    (the [valid] field for a provider), so with no eligible member it is
    fulfilled with [true].  Down the tree: the calls are the one fitting
    [silent] on each provider reached, and the result is [true] exactly when
    each of them reports [valid]. *)
Theorem validate_fans_out {impl : ProviderImpl} (silent : bool) (s : Observer.t) (h : Heap) :
  let leaves := filter (λ r, Provider.disabled (h !!! r) = false) (values (Observer.refs s)) in
  let children := filter (λ o, Observer.disabled o = false) (Observer.observers s) in
  (∀ ref, ref ∈ leaves ↔
     (∃ key, Observer.refs s !! key = Some ref) ∧ Provider.disabled (h !!! ref) = false)
  ∧ (validate silent s h).2 =
      (validate_call silent <$> leaves)
      ++ concat ((λ obs, (validate silent obs h).2) <$> children)
  ∧ ((validate silent s h).1 = Fulfilled true ↔
       (∀ ref, ref ∈ leaves →
          ∃ r, validate_outcome silent h ref = Fulfilled r ∧ ValidationResult.valid r = true)
       ∧ (∀ obs, obs ∈ children → (validate silent obs h).1 = Fulfilled true))
  ∧ (leaves = [] → children = [] → validate silent s h = (Fulfilled true, []))
  ∧ (∀ e, e ∈ (validate silent s h).2 ↔
       ∃ ref, reaches h s ref ∧ e = validate_call silent ref)
  ∧ ((validate silent s h).1 = Fulfilled true ↔
       ∀ ref, reaches h s ref →
         ∃ r, validate_outcome silent h ref = Fulfilled r ∧ ValidationResult.valid r = true).
Proof.
  intros leaves children.
  split; [intros ref; apply elem_of_enabled_refs|].
  split; [apply validate_trace|].
  split; [apply validate_result|].
  split; [|split; [intros e; apply validate_trace_reaches | apply validate_result_reaches]].
  intros Hl Hc. rewrite validate_unfold. fold leaves children. by rewrite Hl, Hc.
Qed.

(** * The properties on the sample states *)

Lemma plain_provider_contract : ProviderContract plain_provider.
Proof. split; intros; try split; reflexivity. Qed.

(** ** Where the registry departs from the spec *)

(** C4, as stated, fails: "email" was cached when the persistent instance
    [1] left; the instance [2] has the same id but no [persist], and
    registering it calls nothing, leaves its flags as they were and keeps
    the cache entry. *)
Lemma restore_skipped_without_persist :
  let s := this (run (impl:=plain_provider) "development" (take 2 remount_plain)
                   empty_form sample_heap) in
  let r := subscribe (impl:=plain_provider) (AsProvider 2%positive) s sample_heap in
  Provider.id (sample_heap !!! 2%positive) = "email"
  ∧ Observer.inactiveRefs s !! "email" = Some (snapshot "email" (sample_heap !!! 1%positive))
  ∧ trace r = []
  ∧ Observer.inactiveRefs (this r) !! "email" ≠ None
  ∧ Provider.flags (heap r !!! 2%positive)
      ≠ InactiveRefCache.flags (snapshot "email" (sample_heap !!! 1%positive)).
Proof.
  cbn zeta. split; [reflexivity|]. split; [reflexivity|]. split; [reflexivity|]. split.
  - vm_compute. discriminate.
  - intros H. apply (f_equal (λ f : ValidationFlags, f !! pristine)) in H.
    vm_compute in H. discriminate.
Qed.

(** C5, as stated, fails: after the same three calls on a fresh observer,
    "email" is a key of [refs] and of [inactiveRefs]. *)
Lemma partitions_overlap_after_remount :
  ¬ partitions_disjoint
      (this (run (impl:=plain_provider) "development" remount_plain empty_form sample_heap)).
Proof.
  intros H. apply (H "email"). split; vm_compute; eauto.
Qed.

(** C2, as stated, fails: in that state the active provider [2] is a
    candidate with no error, and [errors] maps its id to the messages of the
    cached snapshot.  It fails in a second way: the provider [8], whose id
    is "__proto__", is the one candidate of the form it is registered
    with, and the recomputed [errors] has no property at all. *)
Lemma stale_snapshot_shadows_member :
  let r := run (impl:=plain_provider) "development" remount_plain empty_form sample_heap in
  let vm := vm_of_provider (heap r !!! 2%positive) in
  let vm' := vm_of_provider (builtin_heap !!! 8%positive) in
  vm ∈ vms (this r) (heap r)
  ∧ vm_errors vm = Msgs []
  ∧ (recompute (this r) (heap r)).1 !! vm_id vm = Some (Msgs ["required"])
  ∧ (recompute (this r) (heap r)).1 !! vm_id vm ≠ Some (vm_errors vm)
  ∧ vms proto_form builtin_heap = [vm']
  ∧ vm_id vm' = "__proto__"
  ∧ JsObject.own (recompute proto_form builtin_heap).1 = ∅.
Proof.
  cbn zeta. split; [|split; [reflexivity|split; [reflexivity|split]]].
  - apply elem_of_vms. left. exists "email", 2%positive. split; reflexivity.
  - vm_compute. intros [=].
  - split; [|split]; reflexivity.
Qed.

(** ** The theorems at work *)

Lemma recompute_flags_strategy_witness :
  valid ∈ [pristine; untouched; valid; validated; passed]
  ∧ Observer.inactiveRefs nested_form !! "gone"
    = Some (InactiveRefCache.mk "gone" (flags_of false) ["min"] ∅)
  ∧ (recompute nested_form sample_heap).2 !! valid ≠ Some true.
Proof.
  assert (Hin : valid ∈ [pristine; untouched; valid; validated; passed])
    by (do 2 right; left).
  split; [exact Hin|]. split; [reflexivity|].
  destruct (recompute_flags_strategy nested_form sample_heap)
    as (_ & _ & _ & _ & _ & _ & _ & _ & Hevery & _).
  intros Hvalid. apply (Hevery valid Hin) in Hvalid as (_ & Hcached & _).
  specialize (Hcached "gone" _ eq_refl). vm_compute in Hcached. discriminate.
Defined.

Lemma recompute_errors_last_wins_witness :
  (∀ vm, vm ∈ vms nested_form sample_heap → vm_id vm ≠ "__proto__")
  ∧ NoDup (vm_id <$> vms nested_form sample_heap)
  ∧ JsObject.own (recompute nested_form sample_heap).1 !! "gone" = Some (Msgs ["min"]).
Proof.
  assert (Hplain : ∀ vm, vm ∈ vms nested_form sample_heap → vm_id vm ≠ "__proto__").
  { intros vm Hin Hid.
    assert (Hmem : "__proto__" ∈ vm_id <$> vms nested_form sample_heap)
      by (rewrite <- Hid; by apply list_elem_of_fmap_2).
    revert Hmem. refine (bool_decide_unpack _ _). vm_compute. exact I. }
  assert (Hnd : NoDup (vm_id <$> vms nested_form sample_heap))
    by (refine (bool_decide_unpack _ _); vm_compute; exact I).
  split; [exact Hplain|]. split; [exact Hnd|].
  destruct (recompute_errors_last_wins nested_form sample_heap) as (_ & _ & _ & Hentries).
  destruct (Hentries Hplain) as (_ & _ & _ & _ & Hown).
  apply (Hown Hnd (vm_of_inactive (InactiveRefCache.mk "gone" (flags_of false) ["min"] ∅))).
  apply elem_of_vms. right; left. eexists "gone", _. split; reflexivity.
Defined.

Lemma validate_fans_out_witness :
  validate (impl:=plain_provider) true empty_form sample_heap = (Fulfilled true, []).
Proof.
  destruct (validate_fans_out (impl:=plain_provider) true empty_form sample_heap)
    as (_ & _ & _ & Hvacuous & _).
  apply Hvacuous; reflexivity.
Defined.

Lemma restore_requires_persist_witness :
  let r1 := subscribe (impl:=plain_provider) (AsProvider 1%positive) empty_form sample_heap in
  let r2 := unsubscribe (impl:=plain_provider) "development" "email" kind_provider
              (this r1) (heap r1) in
  let r3 := subscribe (impl:=plain_provider) (AsProvider 3%positive) (this r2) (heap r2) in
  Provider.flags (heap r3 !!! 3%positive) = Provider.flags (sample_heap !!! 1%positive)
  ∧ Provider.errors (heap r3 !!! 3%positive) = ["required"]
  ∧ Provider.failedRules (heap r3 !!! 3%positive) = email_rules
  ∧ Observer.inactiveRefs (this r3) !! "email" = None.
Proof.
  destruct (restore_requires_persist (impl:=plain_provider)
              (contract:=plain_provider_contract) "development"
              empty_form sample_heap 1%positive 3%positive
              (snapshot "email" (sample_heap !!! 1%positive))) as [_ Hround].
  specialize (Hround eq_refl eq_refl eq_refl). cbn zeta in Hround.
  destruct Hround as (Hf & He & Hr & Hc & _).
  split; [exact Hf|]. split; [exact He|]. split; [exact Hr | exact Hc].
Defined.

Lemma partitions_disjoint_without_stale_entry_witness :
  let ops := remount_persist ++ [Subscribe (AsProvider 4%positive)] in
  Provider.persist (sample_heap !!! 4%positive) = false
  ∧ partitions_disjoint
      (this (run (impl:=plain_provider) "development" ops empty_form sample_heap)).
Proof.
  cbn zeta. split; [reflexivity|].
  apply (partitions_disjoint_without_stale_entry (impl:=plain_provider)
           (keeps:=contract_keeps_identity (contract:=plain_provider_contract))
           "development" empty_form sample_heap
           (remount_persist ++ [Subscribe (AsProvider 4%positive)])) with (k := 4).
  - intros id [[l Hl] _]. cbn in Hl. by rewrite lookup_empty in Hl.
  - cbn. split; [by left|]. split; [exact I|]. split; [by left|].
    split; [right; reflexivity | exact I].
Defined.

Lemma reset_clears_then_resets_witness :
  CallReset 1%positive ∈ trace (reset (impl:=plain_provider) nested_form sample_heap)
  ∧ Observer.inactiveRefs (this (reset (impl:=plain_provider) nested_form sample_heap)) = ∅.
Proof.
  destruct (reset_clears_then_resets (impl:=plain_provider) nested_form sample_heap)
    as (_ & _ & Hcache & _ & _ & _ & _ & _ & Hcalls).
  split; [|exact Hcache].
  apply Hcalls. exists (leaf_form "obs_2" false 1%positive "email"), "email", 1%positive.
  split; [|split; reflexivity].
  eapply in_tree_child; [cbn; right; left|].
  eapply in_tree_child; [cbn; left|]. apply in_tree_here.
Defined.

Lemma unsubscribe_absent_is_noop_witness :
  unsubscribe (impl:=plain_provider) "development" "email" kind_provider
    empty_form sample_heap = mkResult tt empty_form sample_heap [].
Proof.
  apply (unsubscribe_absent_is_noop (impl:=plain_provider) "development"
           empty_form sample_heap "email").
  reflexivity.
Defined.

(** ** The scenarios of the spec *)

(** Two members, one valid and one not: the aggregate is invalid and
    [errors] lists both. *)
Example scenario_recompute :
  let r := recompute (Observer.set_observers [] scenario_form) scenario_heap in
  r.2 !! valid = Some false
  ∧ r.2 !! invalid = Some true
  ∧ JsObject.own r.1 = {[ "A" := Msgs []; "B" := Msgs ["required"] ]}
  ∧ JsObject.prototype r.1 = None.
Proof. cbn zeta. split; [|split; [|split]]; reflexivity. Qed.

(** A child observer that has not been recomputed yet has no flag: every
    aggregate flag reduced with [every] is false. *)
Example scenario_recompute_fresh_child :
  let r := recompute scenario_form scenario_heap in
  r.2 !! pristine = Some false
  ∧ r.1 !! "obs_0" = Some (ById ∅).
Proof. cbn zeta. split; reflexivity. Qed.

(** A silent validation takes the silent path of each member, at any depth,
    and is the conjunction of their [valid]. *)
Example scenario_validate_silent :
  validate (impl:=plain_provider) true scenario_form
    (<[4%positive := Provider.mk "name" (flags_of true) [] ∅ false false]> scenario_heap)
  = (Fulfilled false,
     [CallValidateSilent 5%positive; CallValidateSilent 6%positive;
      CallValidateSilent 4%positive])
  ∧ validate (impl:=plain_provider) false nested_form sample_heap
    = (Fulfilled false, [CallValidate 4%positive; CallValidate 1%positive]).
Proof. split; reflexivity. Qed.

(** [setErrors] reaches the member that is there and ignores the other
    key; the argument goes to the child as it is. *)
Example scenario_setErrors :
  let r := setErrors (impl:=plain_provider) {[ "A" := ["bad"]; "fieldB" := ["worse"] ]}
             scenario_form scenario_heap in
  trace r = [CallSetErrors 5%positive ["bad"]]
  ∧ this r = scenario_form
  ∧ Provider.errors (heap r !!! 5%positive) = ["bad"]
  ∧ heap r !!! 6%positive = scenario_heap !!! 6%positive.
Proof. cbn zeta. repeat split; reflexivity. Qed.

(** [reset] visits the disabled child too. *)
Example scenario_reset :
  trace (reset (impl:=plain_provider) nested_form sample_heap)
  = [CallReset 4%positive; CallReset 2%positive; CallReset 1%positive].
Proof. reflexivity. Qed.

(** Removing a child twice removes two children when two carry the id:
    the idempotence of [unsubscribe] is that of the provider kind. *)
Example scenario_unsubscribe_observer_twice :
  let twins := Observer.set_observers
                 [ data "obs_0" false; data "obs_0" false ] empty_form in
  let once := unsubscribe (impl:=plain_provider) "development" "obs_0" kind_observer
                twins sample_heap in
  let twice := unsubscribe (impl:=plain_provider) "development" "obs_0" kind_observer
                 (this once) (heap once) in
  Observer.observers (this once) = [ data "obs_0" false ]
  ∧ Observer.observers (this twice) = [].
Proof. cbn zeta. split; reflexivity. Qed.

(** The first ids generated by the default of [vid]. *)
Example scenario_vid_defaults :
  vid_defaults 3 9 = (["obs_9"; "obs_10"; "obs_11"], 12%N).
Proof. reflexivity. Qed.

(** * Further properties of the registry *)

Section RegistryMore.
Context {impl : ProviderImpl}.
Variable NODE_ENV : string.

Implicit Types (s : Observer.t) (h : Heap) (l : loc) (id : string).

Lemma prefix_app_iff (p x : string) :
  String.prefix p x = true ↔ ∃ rest, x = p +:+ rest.
Proof.
  revert x. induction p as [|a p IH]; intros x.
  - split; [intros _; by exists x | intros _; by destruct x].
  - destruct x as [|b x]; cbn.
    + split; [done | by intros [rest ?]].
    + destruct (Ascii.ascii_dec a b) as [->|Hne].
      * rewrite IH. split; intros [rest Hr]; exists rest; [by rewrite Hr | by injection Hr].
      * split; [done|]. intros [rest Hr]. by injection Hr.
Qed.

(** What [subscribe] does to the receiver for a provider, whatever the
    provider implementation. *)
Lemma subscribe_provider_this s h l :
  let r := subscribe (AsProvider l) s h in
  Observer.refs (this r) = <[Provider.id (h !!! l) := l]> (Observer.refs s)
  ∧ Observer.observers (this r) = Observer.observers s
  ∧ Observer.id (this r) = Observer.id s
  ∧ Observer.errors (this r) = Observer.errors s
  ∧ Observer.flags (this r) = Observer.flags s
  ∧ Observer.disabled (this r) = Observer.disabled s
  ∧ Observer.inactivePrototype (this r) = Observer.inactivePrototype s
  ∧ (Observer.inactiveRefs (this r) = Observer.inactiveRefs s
     ∨ ∃ key, Observer.inactiveRefs (this r) = delete key (Observer.inactiveRefs s)).
Proof.
  unfold subscribe. unfold_method. destruct (Provider.persist (h !!! l)); cbn.
  - unfold restoreProviderState. unfold_method. rewrite lookup_inactive_set_refs.
    destruct (falsy (lookup_inactive s (Provider.id (h !!! l)))); cbn; [eauto 10|].
    destruct (lookup_inactive s (Provider.id (h !!! l))); cbn; eauto 12.
  - eauto 10.
Qed.

Lemma removeProvider_this s h id :
  let r := removeProvider NODE_ENV id s h in
  Observer.observers (this r) = Observer.observers s
  ∧ Observer.id (this r) = Observer.id s
  ∧ Observer.errors (this r) = Observer.errors s
  ∧ Observer.flags (this r) = Observer.flags s
  ∧ Observer.disabled (this r) = Observer.disabled s.
Proof.
  cbn zeta. destruct (Observer.refs s !! id) as [l|] eqn:Hr.
  - destruct (Provider.persist (h !!! l)) eqn:Hp.
    + destruct (removeProvider_persist NODE_ENV s h id l Hr Hp) as (-> & _).
      by destruct (assign_inactive_fields id (snapshot id (h !!! l)) s)
        as (? & _ & ? & ? & ? & ?).
    + by rewrite (removeProvider_not_persist NODE_ENV s h id l Hr Hp).
  - by rewrite removeProvider_absent.
Qed.

(** X1: removing a provider that is registered and has no [persist]
    deletes its entry of [refs] and does nothing else: no snapshot is
    stored, nothing is called, the heap is as before. *)
Theorem removeProvider_discards s h id l :
  Observer.refs s !! id = Some l →
  Provider.persist (h !!! l) = false →
  let r := unsubscribe NODE_ENV id kind_provider s h in
  Observer.refs (this r) = delete id (Observer.refs s)
  ∧ Observer.refs (this r) !! id = None
  ∧ Observer.inactiveRefs (this r) = Observer.inactiveRefs s
  ∧ Observer.observers (this r) = Observer.observers s
  ∧ heap r = h
  ∧ trace r = [].
Proof.
  intros Hr Hp r. subst r. cbn [unsubscribe].
  rewrite (removeProvider_not_persist NODE_ENV s h id l Hr Hp). cbn.
  repeat split. apply lookup_delete_eq.
Qed.

(** X2: removing a provider that is registered and has [persist] takes
    a snapshot of the flags, errors and failed rules it has at that moment
    and assigns it under its key, so that the key now reads as that
    snapshot, and deletes its entry of [refs]; the provider itself is not
    called.  Under a key other than [__proto__] the snapshot is an entry of
    [inactiveRefs], replacing an older one; under [__proto__] it becomes the
    prototype of [inactiveRefs] and no entry is added.  No other entry
    changes.  The warning is issued exactly when [NODE_ENV] is not
    "production" and the key starts with [_vee_]. *)
Theorem removeProvider_caches s h id l :
  Observer.refs s !! id = Some l →
  Provider.persist (h !!! l) = true →
  let r := unsubscribe NODE_ENV id kind_provider s h in
  let state := InactiveRefCache.mk id (Provider.flags (h !!! l)) (Provider.errors (h !!! l))
                 (Provider.failedRules (h !!! l)) in
  lookup_inactive (this r) id = Stored state
  ∧ (id ≠ "__proto__" →
       Observer.inactiveRefs (this r) !! id = Some state
       ∧ Observer.inactivePrototype (this r) = Observer.inactivePrototype s)
  ∧ (id = "__proto__" → Observer.inactiveRefs s !! id = None →
       Observer.inactiveRefs (this r) = Observer.inactiveRefs s
       ∧ Observer.inactivePrototype (this r) = Some state)
  ∧ (∀ key, key ≠ id →
       Observer.inactiveRefs (this r) !! key = Observer.inactiveRefs s !! key)
  ∧ Observer.refs (this r) = delete id (Observer.refs s)
  ∧ heap r = h
  ∧ (∀ e, e ∈ trace r → e = Warn persist_warning)
  ∧ (Warn persist_warning ∈ trace r ↔
       NODE_ENV ≠ "production" ∧ ∃ rest, id = "_vee_" +:+ rest).
Proof.
  intros Hr Hp r state. subst r. cbn [unsubscribe].
  destruct (removeProvider_persist NODE_ENV s h id l Hr Hp) as (-> & -> & ->).
  change (snapshot id (h !!! l)) with state.
  split; [rewrite lookup_inactive_set_refs; apply lookup_inactive_assign|].
  split. { intros Hne. rewrite (assign_inactive_ordinary id state s Hne). cbn.
           split; [apply lookup_insert_eq | done]. }
  split. { intros -> Hnone. by rewrite (assign_inactive_proto state s Hnone). }
  split. { intros key Hne. obs_simpl. cbn. by apply assign_inactive_lookup_ne. }
  split. { by destruct (assign_inactive_fields id state s) as (_ & ? & _). }
  split; [done|].
  pose proof (prefix_app_iff "_vee_" id) as Hprefix.
  destruct (String.eqb_spec NODE_ENV "production") as [Henv|Henv]; cbn.
  - split; [by intros e ?%elem_of_nil|]. split; [by intros ?%elem_of_nil | by intros [? _]].
  - destruct (String.prefix "_vee_" id) eqn:Hpre.
    + split; [by intros e ->%list_elem_of_singleton|].
      split; [intros _; split; [done | by apply Hprefix] | intros _; by left].
    + split; [by intros e ?%elem_of_nil|].
      split; [by intros ?%elem_of_nil|]. intros [_ Hex]. apply Hprefix in Hex. discriminate.
Qed.

(** X3: registering a provider under an id that is already a key of [refs]
    replaces the instance stored there: the key now leads to the incoming
    provider, the set of keys is the same, and every other key leads where
    it did.  This holds with and without [persist], and whatever the
    provider's methods do. *)
Theorem subscribe_replaces s h l :
  is_Some (Observer.refs s !! Provider.id (h !!! l)) →
  let r := subscribe (AsProvider l) s h in
  Observer.refs (this r) !! Provider.id (h !!! l) = Some l
  ∧ dom (Observer.refs (this r)) = dom (Observer.refs s)
  ∧ (∀ key, key ≠ Provider.id (h !!! l) →
       Observer.refs (this r) !! key = Observer.refs s !! key)
  ∧ Observer.observers (this r) = Observer.observers s.
Proof.
  intros Hold r. destruct (subscribe_provider_this s h l) as (Hrefs & Hobs & _).
  fold r in Hrefs, Hobs. rewrite Hrefs. split; [apply lookup_insert_eq|].
  split; [|split; [by intros key Hne; apply lookup_insert_ne | done]].
  by apply dom_insert_lookup_L.
Qed.

(** *** Invariants of a run *)

Lemma step_this s h op :
  let r := step NODE_ENV op s h in
  Observer.id (this r) = Observer.id s
  ∧ Observer.disabled (this r) = Observer.disabled s
  ∧ (op ≠ WatcherFires →
       Observer.errors (this r) = Observer.errors s
       ∧ Observer.flags (this r) = Observer.flags s).
Proof.
  destruct op as [[l|o]|id [|]|]; cbn [step unsubscribe].
  - destruct (subscribe_provider_this s h l) as (_ & _ & ? & ? & ? & ? & _). done.
  - done.
  - destruct (removeProvider_this s h id) as (_ & ? & ? & ? & ?). done.
  - unfold_method. by destruct (findIndex _ _).
  - done.
Qed.

Lemma run_app_this ops ops' s h :
  this (run NODE_ENV (ops ++ ops') s h)
  = this (run NODE_ENV ops' (this (run NODE_ENV ops s h)) (heap (run NODE_ENV ops s h)))
  ∧ heap (run NODE_ENV (ops ++ ops') s h)
    = heap (run NODE_ENV ops' (this (run NODE_ENV ops s h)) (heap (run NODE_ENV ops s h))).
Proof.
  revert s h. induction ops as [|op ops IH]; intros s h; [done|].
  cbn [app]. rewrite !run_cons. cbn. apply IH.
Qed.

(** An invariant of [step] holds after every call of a run. *)
Lemma run_invariant (P : Observer.t → Heap → Prop) :
  (∀ s h op, P s h → P (this (step NODE_ENV op s h)) (heap (step NODE_ENV op s h))) →
  ∀ ops s h, P s h → ∀ k,
    P (this (run NODE_ENV (take k ops) s h)) (heap (run NODE_ENV (take k ops) s h)).
Proof.
  intros Hstep ops. induction ops as [|op ops IH]; intros s h HP k.
  - by rewrite take_nil.
  - destruct k as [|k]; [done|]. cbn [take]. rewrite run_cons. cbn.
    apply IH. by apply Hstep.
Qed.

Lemma run_between_firings ops s h :
  WatcherFires ∉ ops →
  Observer.errors (this (run NODE_ENV ops s h)) = Observer.errors s
  ∧ Observer.flags (this (run NODE_ENV ops s h)) = Observer.flags s.
Proof.
  revert s h. induction ops as [|op ops IH]; intros s h Hno; [done|].
  rewrite run_cons. cbn.
  assert (Hop : op ≠ WatcherFires) by (intros ->; apply Hno; by left).
  destruct (step_this s h op) as (_ & _ & Hsame). destruct (Hsame Hop) as [<- <-].
  apply IH. intros Hin. apply Hno. by right.
Qed.

(** X4: [subscribe] and [unsubscribe] never write the observer's own [id],
    [disabled], [errors] or [flags].  After every step of a sequence of
    calls and runs of the watcher's callback, [id] and [disabled] are what
    they were; [errors] and [flags] are what they were as long as the
    callback has not run, and else what the watched expression was worth
    when the callback last ran, whatever the registry has become since. *)
Theorem registry_keeps_aggregates s h (ops : list Op) (k : nat) :
  let r := run NODE_ENV (take k ops) s h in
  Observer.id (this r) = Observer.id s
  ∧ Observer.disabled (this r) = Observer.disabled s
  ∧ (WatcherFires ∉ take k ops →
       Observer.errors (this r) = Observer.errors s
       ∧ Observer.flags (this r) = Observer.flags s)
  ∧ (∀ pre post, take k ops = pre ++ WatcherFires :: post → WatcherFires ∉ post →
       let fired := run NODE_ENV pre s h in
       Observer.errors (this r) = (recompute (this fired) (heap fired)).1
       ∧ Observer.flags (this r) = (recompute (this fired) (heap fired)).2).
Proof.
  cbn zeta.
  assert (Hfixed : Observer.id (this (run NODE_ENV (take k ops) s h)) = Observer.id s
                   ∧ Observer.disabled (this (run NODE_ENV (take k ops) s h))
                     = Observer.disabled s).
  { apply (run_invariant (λ s' _, Observer.id s' = Observer.id s
      ∧ Observer.disabled s' = Observer.disabled s)); [|done].
    intros s' h' op (Hi & Hd). destruct (step_this s' h' op) as (-> & -> & _). done. }
  destruct Hfixed as [Hid Hdis]. split; [done|]. split; [done|].
  split; [apply run_between_firings|].
  intros pre post -> Hpost.
  destruct (run_app_this pre (WatcherFires :: post) s h) as [-> _].
  rewrite run_cons. cbn [this heap step].
  by destruct (run_between_firings post
                 (onChange (recompute (this (run NODE_ENV pre s h))
                                      (heap (run NODE_ENV pre s h)))
                    (this (run NODE_ENV pre s h)))
                 (heap (run NODE_ENV pre s h)) Hpost) as [-> ->].
Qed.

Lemma step_cache_keyed s h op :
  cache_keyed s → cache_keyed (this (step NODE_ENV op s h)).
Proof.
  intros Hk. unfold cache_keyed in *.
  destruct op as [[l|o]|id [|]|]; cbn [step unsubscribe].
  - destruct (subscribe_provider_this s h l)
      as (_ & _ & _ & _ & _ & _ & _ & [->|[key ->]]); [done|].
    intros key' c Hc. apply lookup_delete_Some in Hc as [_ Hc]. by apply Hk.
  - done.
  - destruct (Observer.refs s !! id) as [l|] eqn:Hr.
    + destruct (Provider.persist (h !!! l)) eqn:Hp.
      * destruct (removeProvider_persist NODE_ENV s h id l Hr Hp) as (-> & _).
        intros key c Hc. obs_simpl.
        destruct (assign_inactive_cases id (snapshot id (h !!! l)) s)
          as [(_ & _ & Heq)|[_ Heq]]; rewrite Heq in Hc; cbn in Hc.
        -- by apply Hk.
        -- apply lookup_insert_Some in Hc as [[<- <-]|[_ Hc]]; [done | by apply Hk].
      * by rewrite (removeProvider_not_persist NODE_ENV s h id l Hr Hp).
    + by rewrite removeProvider_absent.
  - unfold_method. by destruct (findIndex _ _).
  - done.
Qed.

(** X5: every snapshot is stored under the id it records: if this holds of
    an observer (as it does of a new one), it holds after every call of a
    sequence of [subscribe] and [unsubscribe] calls, whatever the provider's
    methods do. *)
Theorem cache_keyed_along_run s h (ops : list Op) (k : nat) :
  cache_keyed s →
  cache_keyed (this (run NODE_ENV (take k ops) s h)).
Proof.
  intros Hk. apply (run_invariant (λ s' _, cache_keyed s')); [|done].
  intros s' h' op. apply step_cache_keyed.
Qed.

(** X6: where no provider has [persist], the registry never calls a
    provider, never issues the warning and never stores a snapshot:
    after any sequence of [subscribe] and [unsubscribe] calls the heap and
    [inactiveRefs] are what they were and the trace is empty. *)
Theorem registry_without_persist s h (ops : list Op) :
  (∀ l, Provider.persist (h !!! l) = false) →
  let r := run NODE_ENV ops s h in
  heap r = h ∧ trace r = [] ∧ Observer.inactiveRefs (this r) = Observer.inactiveRefs s.
Proof.
  intros Hp. revert s. induction ops as [|op ops IH]; intros s; [done|].
  cbn zeta. rewrite run_cons. cbn zeta.
  assert (Hstep : heap (step NODE_ENV op s h) = h ∧ trace (step NODE_ENV op s h) = []
                  ∧ Observer.inactiveRefs (this (step NODE_ENV op s h))
                    = Observer.inactiveRefs s).
  { destruct op as [[l|o]|id [|]|]; cbn [step unsubscribe].
    - by rewrite (subscribe_not_persist s h l (Hp l)).
    - done.
    - destruct (Observer.refs s !! id) as [l|] eqn:Hr.
      + by rewrite (removeProvider_not_persist NODE_ENV s h id l Hr (Hp l)).
      + by rewrite removeProvider_absent.
    - unfold_method. by destruct (findIndex _ _).
    - done. }
  destruct Hstep as (Hh & Ht & Hc). rewrite Hh, Ht. cbn.
  destruct (IH (this (step NODE_ENV op s h))) as (-> & -> & ->). done.
Qed.
End RegistryMore.

Section IdentityMore.
Context {impl : ProviderImpl} {keeps : ProviderKeepsIdentity impl}.
Variable NODE_ENV : string.

Implicit Types (s : Observer.t) (h : Heap) (l : loc) (id : string).

Lemma step_refs_keyed s h op :
  refs_keyed s h →
  refs_keyed (this (step NODE_ENV op s h)) (heap (step NODE_ENV op s h)).
Proof.
  intros Hk. unfold refs_keyed in *. destruct op as [[l|o]|id [|]|]; cbn [step unsubscribe].
  - destruct (subscribe_provider_this s h l) as (-> & _).
    intros key l' Hl'. destruct (subscribe_identity s h (AsProvider l) l') as [-> _].
    apply lookup_insert_Some in Hl' as [[<- <-]|[_ Hl']]; [done | by apply Hk].
  - done.
  - rewrite removeProvider_refs_cases, removeProvider_heap.
    intros key l' [_ Hl']%lookup_delete_Some. by apply Hk.
  - unfold_method. by destruct (findIndex _ _).
  - done.
Qed.

(** X7: as long as the provider's [setFlags] and [applyResult] leave ids
    alone, every active provider is stored under its own id after every
    call of a sequence of [subscribe] and [unsubscribe] calls, if it was so
    at the start; hence no two active providers have the same id. *)
Theorem refs_keyed_along_run s h (ops : list Op) (k : nat) :
  refs_keyed s h →
  let r := run NODE_ENV (take k ops) s h in
  refs_keyed (this r) (heap r)
  ∧ NoDup ((λ l, Provider.id (heap r !!! l)) <$> values (Observer.refs (this r))).
Proof.
  intros Hk r.
  assert (Hr : refs_keyed (this r) (heap r)).
  { apply (run_invariant NODE_ENV refs_keyed); [|done].
    intros s' h' op. apply step_refs_keyed. }
  split; [done|]. unfold values. rewrite <- list_fmap_compose.
  assert (Heq : (λ l, Provider.id (heap r !!! l)) ∘ snd <$> map_to_list (Observer.refs (this r))
                = (map_to_list (Observer.refs (this r))).*1).
  { apply list_fmap_ext. intros i [key l] Hi. cbn.
    apply (Hr key l). apply elem_of_map_to_list. by eapply list_elem_of_lookup_2. }
  rewrite Heq. apply NoDup_fst_map_to_list.
Qed.
End IdentityMore.

Section RemountMore.
Context {impl : ProviderImpl} {contract : ProviderContract impl}.
Variable NODE_ENV : string.

(** X8: a persistent provider that leaves and comes back is where it was.
    If it is registered under its id, which is not [__proto__], and no
    snapshot is cached under that id, then [unsubscribe] followed by
    [subscribe] of the same instance gives back the observer as it was and
    leaves every provider of the heap as it was; the two calls made on the
    way are [setFlags] and [applyResult] with the provider's own state (and
    the warning, if its conditions are met).  Under [__proto__] the observer
    is not given back as it was ([scenario_remount_under_proto]). *)
Theorem remount_restores_state (s : Observer.t) (h : Heap) (l : loc) :
  let id := Provider.id (h !!! l) in
  id ≠ "__proto__" →
  Observer.refs s !! id = Some l →
  Provider.persist (h !!! l) = true →
  Observer.inactiveRefs s !! id = None →
  let r1 := unsubscribe NODE_ENV id kind_provider s h in
  let r2 := subscribe (AsProvider l) (this r1) (heap r1) in
  this r2 = s
  ∧ (∀ l', heap r2 !!! l' = h !!! l')
  ∧ (∀ e, e ∈ trace r2 →
       e = CallSetFlags l (Provider.flags (h !!! l))
       ∨ e = CallApplyResult l (snapshot id (h !!! l))).
Proof.
  intros id Hid Hr Hp Hc r1 r2. subst r1 r2. cbn [unsubscribe].
  destruct (removeProvider_persist NODE_ENV s h id l Hr Hp) as (Hthis & Hheap & _).
  rewrite Hthis, Hheap, (assign_inactive_ordinary id _ s Hid).
  assert (Hcached : Observer.inactiveRefs
            (Observer.set_refs (delete id (Observer.refs s))
               (Observer.set_inactiveRefs
                  (<[id:=snapshot id (h !!! l)]> (Observer.inactiveRefs s)) s))
            !! Provider.id (h !!! l) = Some (snapshot id (h !!! l)))
    by (cbn; apply lookup_insert_eq).
  rewrite (subscribe_persist_cached _ h l _ Hp Hcached). obs_simpl. fold id.
  split; [|split].
  - rewrite delete_insert_eq, insert_delete_eq, (delete_id _ _ Hc), (insert_id _ _ _ Hr).
    by destruct s.
  - intros l'. destruct (decide (l' = l)) as [->|Hne].
    + rewrite lookup_total_insert_eq. by destruct (h !!! l).
    + by rewrite lookup_total_insert_ne.
  - intros e [->|[->|?%elem_of_nil]%elem_of_cons]%elem_of_cons; [by left | by right | done].
Qed.
End RemountMore.

(** * The channel of the child observers *)

Section ObserversChannel.
Context {impl : ProviderImpl}.
Variable NODE_ENV : string.

Implicit Types (s self parent : Observer.t) (h : Heap) (id : string).

Lemma findIndex_first (pre post : list Observer.t) (o : Observer.t) id :
  Observer.id o = id →
  (∀ o', o' ∈ pre → Observer.id o' ≠ id) →
  findIndex (λ o, String.eqb (Observer.id o) id) (pre ++ o :: post) = Some (length pre).
Proof.
  intros Ho Hpre. unfold findIndex.
  assert (Hfind : list_find (λ x, String.eqb (Observer.id x) id = true) (pre ++ o :: post)
                  = Some (length pre, o)); [|by rewrite Hfind].
  apply list_find_Some. split; [apply list_lookup_middle; done|].
  split; [by apply String.eqb_eq|].
  intros j y Hj Hlt Hy. apply String.eqb_eq in Hy.
  rewrite lookup_app_l in Hj by done.
  apply (Hpre y); [by eapply list_elem_of_lookup_2 | done].
Qed.

Lemma findIndex_none (os : list Observer.t) id :
  (∀ o, o ∈ os → Observer.id o ≠ id) →
  findIndex (λ o, String.eqb (Observer.id o) id) os = None.
Proof.
  intros Hos. unfold findIndex.
  assert (Hfind : list_find (λ x, String.eqb (Observer.id x) id = true) os = None);
    [|by rewrite Hfind].
  apply list_find_None, Forall_forall. intros o Ho Heq.
  apply String.eqb_eq in Heq. by apply (Hos o).
Qed.

Lemma unsubscribe_observer_at s h id pre o post :
  Observer.observers s = pre ++ o :: post →
  Observer.id o = id →
  (∀ o', o' ∈ pre → Observer.id o' ≠ id) →
  unsubscribe NODE_ENV id kind_observer s h =
    mkResult tt (Observer.set_observers (pre ++ post) s) h [].
Proof.
  intros Hos Ho Hpre. cbn [unsubscribe]. unfold_method.
  rewrite Hos, (findIndex_first pre post o id Ho Hpre). cbn.
  by rewrite delete_middle.
Qed.

(** X9: [unsubscribe(id, 'observer')] removes the first child whose id is
    [id] and no other: the children before it and after it stay, in
    order.  Without such a child nothing changes.  In both cases [refs],
    [inactiveRefs] and the heap are untouched and nothing is called. *)
Theorem unsubscribe_observer_first s h id :
  ((∀ o, o ∈ Observer.observers s → Observer.id o ≠ id) →
     unsubscribe NODE_ENV id kind_observer s h = mkResult tt s h [])
  ∧ (∀ pre o post,
       Observer.observers s = pre ++ o :: post →
       Observer.id o = id →
       (∀ o', o' ∈ pre → Observer.id o' ≠ id) →
       unsubscribe NODE_ENV id kind_observer s h =
         mkResult tt (Observer.set_observers (pre ++ post) s) h []).
Proof.
  split.
  - intros Hnone. cbn [unsubscribe]. unfold_method. by rewrite findIndex_none.
  - intros pre o post. apply unsubscribe_observer_at.
Qed.

(** X10: without a parent, [register] and [unregister] do nothing.  With a
    parent none of whose children has the id of [self], [register] appends
    [self] to the parent's children and [unregister] after it gives the
    parent back as it was; after two [register] calls and one [unregister]
    the parent still has [self] among its children, once. *)
Theorem register_unregister self parent h :
  register self None h = None
  ∧ unregister NODE_ENV self None h = None
  ∧ ((∀ o, o ∈ Observer.observers parent → Observer.id o ≠ Observer.id self) →
     let registered := Observer.set_observers (Observer.observers parent ++ [self]) parent in
     let twice := Observer.set_observers (Observer.observers parent ++ [self; self]) parent in
     register self (Some parent) h = Some (mkResult tt registered h [])
     ∧ unregister NODE_ENV self (Some registered) h = Some (mkResult tt parent h [])
     ∧ register self (Some registered) h = Some (mkResult tt twice h [])
     ∧ unregister NODE_ENV self (Some twice) h = Some (mkResult tt registered h [])).
Proof.
  split; [done|]. split; [done|]. intros Hfresh registered twice.
  split; [done|]. split; [|split].
  - cbn [unregister]. f_equal.
    rewrite (unsubscribe_observer_at registered h (Observer.id self)
               (Observer.observers parent) self []); [|done..].
    subst registered. cbn. rewrite app_nil_r. by destruct parent.
  - cbn [register subscribe]. unfold_method. subst registered twice. cbn.
    by rewrite <- app_assoc.
  - cbn [unregister]. f_equal.
    rewrite (unsubscribe_observer_at twice h (Observer.id self)
               (Observer.observers parent) self [self]); [|done..].
    by subst registered twice.
Qed.

(** X11: a child observer is created without flags and without errors.
    Right after [created] the parent's watched expression maps the child's
    id to an empty [errors] object, whatever was stored under that id, and
    every flag reduced with [every] ([pristine], [untouched], [valid],
    [validated], [passed]) is false, whatever the other candidates say. *)
Theorem created_child_clears_every_flags (vid : string) (disabled : bool)
    (parent : Observer.t) (h : Heap) :
  ∃ r, created vid disabled (Some parent) h = Some r
       ∧ heap r = h ∧ trace r = []
       ∧ Observer.observers (this r) = Observer.observers parent ++ [data vid disabled]
       ∧ (recompute (this r) h).1 !! vid = Some (ById ∅)
       ∧ (∀ flag, strategy_of flag = every →
            (recompute (this r) h).2 !! flag = Some false).
Proof.
  set (p' := Observer.set_observers (Observer.observers parent ++ [data vid disabled]) parent).
  exists (mkResult tt p' h []). split; [reflexivity|]. obs_simpl.
  split; [done|]. split; [done|]. split; [done|].
  assert (Hlast : vms p' h = (((λ l, vm_of_provider (h !!! l)) <$> values (Observer.refs parent))
                    ++ (vm_of_inactive <$> values (Observer.inactiveRefs parent))
                    ++ (vm_of_observer <$> Observer.observers parent))
                    ++ [vm_of_observer (data vid disabled)]).
  { unfold vms, p'. obs_simpl. by rewrite fmap_app, <- !app_assoc. }
  split.
  - unfold recompute. cbn [fst]. rewrite collect_errors_last, Hlast, filter_app.
    rewrite filter_cons, decide_True by done. cbn [filter list_filter].
    by rewrite last_snoc.
  - intros flag Hs. unfold recompute. cbn [snd].
    rewrite collect_flags_lookup, Hs. f_equal.
    destruct (array_method every _ (vms p' h)) eqn:Hall; [|done].
    apply (proj1 (array_method_every _ _)) with (x := vm_of_observer (data vid disabled)) in Hall.
    + done.
    + rewrite Hlast. apply elem_of_app. right. by left.
Qed.
End ObserversChannel.

(** * Further properties of validate and passes *)

Section ValidateMore.
Context {impl : ProviderImpl}.

Implicit Types (s : Observer.t) (h : Heap) (silent : bool).

Lemma all_settled_rejected (ps : list (Promise bool)) :
  (then_ (forallb (λ r : bool, r)) (Promise_all ps)).1 = Rejected
  ↔ Exists (λ p, p.1 = Rejected) ps.
Proof.
  unfold then_, Promise_all. cbn [fst].
  induction ps as [|[[b|] t] ps IH]; cbn.
  - split; [done | by intros ?%Exists_nil].
  - rewrite Exists_cons. cbn. destruct (all_settled ps.*1) as [rs|] eqn:Hall; cbn in *.
    + split; [done|]. intros [?|H]; [done|]. by apply IH in H.
    + split; [intros _; right; by apply IH | done].
  - rewrite Exists_cons. cbn. split; [by left | done].
Qed.

Lemma all_settled_false (ps : list (Promise bool)) :
  (then_ (forallb (λ r : bool, r)) (Promise_all ps)).1 = Fulfilled false
  ↔ Forall (λ p, p.1 ≠ Rejected) ps ∧ Exists (λ p, p.1 = Fulfilled false) ps.
Proof.
  unfold then_, Promise_all. cbn [fst].
  induction ps as [|[[b|] t] ps IH]; cbn.
  - split; [done | by intros [_ ?%Exists_nil]].
  - rewrite Forall_cons, Exists_cons. cbn.
    destruct (all_settled ps.*1) as [rs|] eqn:Hall; cbn in *.
    + destruct b; cbn.
      * rewrite IH. split; [intros [? ?]; eauto|].
        intros [[_ ?] [?|?]]; [done | by split].
      * split; [|done]. intros _. split; [|by left]. split; [done|].
        apply Forall_forall. intros p Hp Hrej.
        assert (Hex : Exists (λ p, p.1 = Rejected) ps)
          by (apply Exists_exists; eauto).
        apply all_settled_rejected in Hex. unfold then_, Promise_all in Hex.
        cbn in Hex. by rewrite Hall in Hex.
    + split; [done|]. intros [[_ Hall'] _]. exfalso.
      assert (Hrej : (then_ (forallb (λ r : bool, r)) (Promise_all ps)).1 = Rejected)
        by (unfold then_, Promise_all; cbn; by rewrite Hall).
      apply all_settled_rejected, Exists_exists in Hrej as (p & Hp & Hr).
      rewrite Forall_forall in Hall'. by apply (Hall' p).
  - rewrite Forall_cons. cbn. split; [done | by intros [[? _] _]].
Qed.

Lemma leaf_promise_rejected silent h ref :
  (then_ ValidationResult.valid (call_validate silent h ref)).1 = Rejected
  ↔ validate_outcome silent h ref = Rejected.
Proof.
  rewrite call_validate_eq. unfold then_. cbn.
  by destruct (validate_outcome silent h ref).
Qed.

Lemma leaf_promise_false silent h ref :
  (then_ ValidationResult.valid (call_validate silent h ref)).1 = Fulfilled false
  ↔ ∃ r, validate_outcome silent h ref = Fulfilled r ∧ ValidationResult.valid r = false.
Proof.
  rewrite call_validate_eq. unfold then_. cbn.
  destruct (validate_outcome silent h ref) as [r|]; split.
  - intros [= Hv]. eauto.
  - by intros (r' & [= <-] & ->).
  - done.
  - by intros (r' & ? & _).
Qed.

Lemma validate_rejected_reaches silent s h :
  (validate silent s h).1 = Rejected ↔
    ∃ ref, reaches h s ref ∧ validate_outcome silent h ref = Rejected.
Proof.
  induction s as [s IH] using Observer_tree_ind. rewrite Forall_forall in IH.
  rewrite validate_unfold, all_settled_rejected, Exists_app, !Exists_fmap, !Exists_exists.
  setoid_rewrite reaches_inv. split.
  - intros [(ref & Href & Hr)|(obs & Hobs & Hr)].
    + apply leaf_promise_rejected in Hr. eauto.
    + assert (Hin : obs ∈ Observer.observers s)
        by (by apply list_elem_of_filter in Hobs as [_ ?]).
      apply (IH obs Hin) in Hr as (ref & Href & Hr). eauto 6.
  - intros (ref & [Href|(obs & Hobs & Href)] & Hr).
    + left. exists ref. split; [done|]. by apply leaf_promise_rejected.
    + right. exists obs. split; [done|].
      assert (Hin : obs ∈ Observer.observers s)
        by (by apply list_elem_of_filter in Hobs as [_ ?]).
      apply (IH obs Hin). eauto.
Qed.

Lemma validate_false_reaches silent s h :
  (validate silent s h).1 = Fulfilled false ↔
    (∀ ref, reaches h s ref → validate_outcome silent h ref ≠ Rejected)
    ∧ ∃ ref r, reaches h s ref ∧ validate_outcome silent h ref = Fulfilled r
               ∧ ValidationResult.valid r = false.
Proof.
  induction s as [s IH] using Observer_tree_ind. rewrite Forall_forall in IH.
  split.
  - intros Hfalse. split.
    + intros ref Href Hrej.
      assert (Hr : (validate silent s h).1 = Rejected)
        by (apply validate_rejected_reaches; eauto).
      by rewrite Hfalse in Hr.
    + rewrite validate_unfold in Hfalse.
      apply all_settled_false in Hfalse as [_ Hex].
      rewrite Exists_app, !Exists_fmap, !Exists_exists in Hex.
      destruct Hex as [(ref & Href & Hr)|(obs & Hobs & Hr)].
      * apply leaf_promise_false in Hr as (r & Hr & Hv).
        exists ref, r. split; [|done]. apply reaches_inv. by left.
      * assert (Hin : obs ∈ Observer.observers s)
          by (by apply list_elem_of_filter in Hobs as [_ ?]).
        apply (IH obs Hin) in Hr as (_ & ref & r & Href & Hr & Hv).
        exists ref, r. split; [|done]. apply reaches_inv. right. eauto.
  - intros (Hnorej & ref & r & Href & Hr & Hv).
    destruct (validate silent s h).1 as [[|]|] eqn:Hres; [| done |].
    + pose proof (proj1 (validate_result_reaches silent s h) Hres) as Hall.
      destruct (Hall ref Href) as (r' & Hr' & Hv'). congruence.
    + pose proof (proj1 (validate_rejected_reaches silent s h) Hres)
        as (ref' & Href' & Hrej).
      by destruct (Hnorej ref' Href').
Qed.

(** X12: [validate] is rejected exactly when the call on some provider it
    reaches is rejected, and it is fulfilled with [false] exactly when no
    such call is rejected and one of them reports an invalid result. *)
Theorem validate_rejects_or_fails silent s h :
  ((validate silent s h).1 = Rejected ↔
     ∃ ref, reaches h s ref ∧ validate_outcome silent h ref = Rejected)
  ∧ ((validate silent s h).1 = Fulfilled false ↔
       (∀ ref, reaches h s ref → validate_outcome silent h ref ≠ Rejected)
       ∧ ∃ ref r, reaches h s ref ∧ validate_outcome silent h ref = Fulfilled r
                  ∧ ValidationResult.valid r = false).
Proof. split; [apply validate_rejected_reaches | apply validate_false_reaches]. Qed.

(** X13: [passes(cb)] validates on the path that is not silent and makes
    no other call.  It calls [cb] exactly when the validation is fulfilled
    with [true] and a callback was passed, and then settles as [cb()]
    does; when the validation is rejected so is [passes]; in the other
    cases it is fulfilled with [undefined]. *)
Theorem passes_calls_back {A} (cb : option (Settled A)) s h :
  let r := passes cb s h in
  r.1.2 = (validate false s h).2
  ∧ (∀ e, e ∈ r.1.2 → ∃ ref, e = CallValidate ref)
  ∧ (r.2 = true ↔ (validate false s h).1 = Fulfilled true ∧ is_Some cb)
  ∧ (r.2 = true →
       ∃ out, cb = Some out
              ∧ r.1.1 = match out with
                        | Fulfilled a => Fulfilled (Some a)
                        | Rejected => Rejected
                        end)
  ∧ (r.2 = false →
       r.1.1 = match (validate false s h).1 with
               | Rejected => Rejected
               | Fulfilled _ => Fulfilled None
               end).
Proof.
  cbn zeta. unfold passes.
  assert (Hcalls : ∀ e, e ∈ (validate false s h).2 → ∃ ref, e = CallValidate ref).
  { intros e (ref & _ & ->)%validate_trace_reaches. by exists ref. }
  destruct (validate false s h) as [[[|]|] t] eqn:Hv; cbn [fst snd negb] in *.
  - destruct cb as [[a|]|]; cbn; repeat split; try done; try (by intros [_ [? ?]]);
      eauto.
  - destruct cb as [[a|]|]; cbn; repeat split; try done; by intros [? _].
  - repeat split; try done; by intros [? _].
Qed.
End ValidateMore.

(** * Further properties of reset and setErrors *)

Section ResetMore.
Context {impl : ProviderImpl}.

Implicit Types (s : Observer.t) (h : Heap) (l : loc).

Lemma cleared_idem s : cleared (cleared s) = cleared s.
Proof.
  induction s as [s IH] using Observer_tree_ind.
  destruct s as [id refs obs inactive proto errors flags disabled]. cbn in *.
  f_equal. rewrite <- list_fmap_compose. apply list_fmap_ext.
  intros i o Hi. rewrite Forall_forall in IH. apply IH.
  by eapply list_elem_of_lookup_2.
Qed.

Lemma reset_calls_cleared s : reset_calls (cleared s) = reset_calls s.
Proof.
  induction s as [s IH] using Observer_tree_ind.
  destruct s as [id refs obs inactive proto errors flags disabled]. cbn in *.
  f_equal. f_equal. rewrite <- list_fmap_compose. apply list_fmap_ext.
  intros i o Hi. rewrite Forall_forall in IH. apply IH.
  by eapply list_elem_of_lookup_2.
Qed.

Lemma in_tree_cleared o s :
  in_tree o (cleared s) → ∃ o', in_tree o' s ∧ o = cleared o'.
Proof.
  revert o. induction s as [s IH] using Observer_tree_ind. intros o Ho.
  rewrite Forall_forall in IH.
  inversion Ho as [|o1 c s1 Hc Hoc]; subst.
  - exists s. split; [apply in_tree_here | done].
  - destruct s as [id refs obs inactive proto errors flags disabled]. cbn in Hc.
    apply list_elem_of_fmap in Hc as (c' & -> & Hc').
    destruct (IH c' Hc' o Hoc) as (o' & Ho' & ->).
    exists o'. split; [|done]. by eapply in_tree_child.
Qed.

(** X15: [reset] twice is [reset] once, as far as the observers go: the
    second call leaves the tree as the first left it, and calls [reset] on
    the same providers again. *)
Theorem reset_twice s h h' :
  let once := reset s h in
  let twice := reset (this once) h' in
  this twice = this once ∧ trace twice = trace once.
Proof.
  cbn zeta. rewrite !reset_spec. cbn.
  by rewrite cleared_idem, reset_calls_cleared.
Qed.

Lemma lookup_inactive_unshadowed s key :
  Observer.inactiveRefs s !! key = None → unshadowed s key →
  lookup_inactive s key = Undefined.
Proof.
  intros Hk [[Hord _] Hproto]. unfold lookup_inactive. rewrite Hk.
  destruct (Observer.inactivePrototype s) as [c|]; [|by apply from_Object_prototype_ordinary].
  destruct Hproto as [?|Hfield]; [done|].
  assert (Hne : key ≠ "__proto__") by (intros ->; apply Hord; set_solver).
  rewrite (proj2 (String.eqb_neq _ _) Hne). unfold from_snapshot, snapshot_fields in *.
  repeat match goal with
         | |- context [String.eqb key ?f] =>
             destruct (String.eqb_spec key f) as [->|_]; [exfalso; apply Hfield; set_solver|]
         end.
  by apply from_Object_prototype_ordinary.
Qed.

(** X16: [reset] forgets every snapshot that is an entry of a cache of the
    tree: after it every [inactiveRefs] of the tree is empty, and
    registering a provider with an observer of the tree, persistent or not,
    restores nothing, makes no call and leaves the heap as it is, provided
    the provider's id reads as [undefined] on a cache without entries (it
    is not a name of [Object.prototype], nor the name of a field of a
    snapshot that has become the prototype of [inactiveRefs]). *)
Theorem reset_forgets_snapshots s h h' o l :
  in_tree o (this (reset s h)) →
  unshadowed o (Provider.id (h' !!! l)) →
  let r := subscribe (AsProvider l) o h' in
  Observer.inactiveRefs o = ∅ ∧ trace r = [] ∧ heap r = h'.
Proof.
  rewrite reset_spec. cbn [this]. intros (o' & _ & ->)%in_tree_cleared Hun.
  assert (Hc : Observer.inactiveRefs (cleared o') = ∅) by (by destruct o').
  cbn zeta. split; [done|].
  destruct (Provider.persist (h' !!! l)) eqn:Hp.
  - rewrite subscribe_persist_fresh; [done | done |].
    apply lookup_inactive_unshadowed; [|done]. by rewrite Hc, lookup_empty.
  - by rewrite subscribe_not_persist.
Qed.

Lemma effect_frame (e : Event) h l :
  target e ≠ Some l → effect e h !!! l = h !!! l.
Proof.
  destruct e; cbn; intros Hne; try done;
    (rewrite lookup_total_insert_ne; [done | congruence]).
Qed.

Lemma replay_frame (t : list Event) h l :
  (∀ e, e ∈ t → target e ≠ Some l) → replay t h !!! l = h !!! l.
Proof.
  revert h. induction t as [|e t IH]; intros h Ht; [done|].
  change (replay (e :: t) h) with (replay t (effect e h)).
  rewrite IH.
  - apply effect_frame, Ht. by left.
  - intros e' He'. apply Ht. by right.
Qed.

(** X17: [reset] touches no provider but the active ones of the tree: a
    provider that is not a value of [refs] of the observer or of one of its
    descendants is after the call what it was before. *)
Theorem reset_frame s h l :
  ¬ active_in_tree s l →
  heap (reset s h) !!! l = h !!! l.
Proof.
  intros Hl. rewrite reset_spec. cbn [heap]. apply replay_frame.
  intros e (o & key & l' & Ho & Hk & ->)%elem_of_reset_calls [= ->].
  apply Hl. by exists o, key.
Qed.

(** X18: [setErrors] touches no provider but those registered, somewhere
    in the tree, under a key of its argument: any other provider is after
    the call what it was before. *)
Theorem setErrors_frame (errors : gmap string (list string)) s h l :
  (∀ o key, in_tree o s → is_Some (errors !! key) → Observer.refs o !! key ≠ Some l) →
  heap (setErrors errors s h) !!! l = h !!! l.
Proof.
  intros Hl. destruct (setErrors_sound errors s h) as (_ & -> & Hcalls & _).
  apply replay_frame. intros e He.
  apply Hcalls, elem_of_setErrors_calls in He as (o & key & l' & msgs & Ho & Hm & Hk & ->).
  intros [= ->]. by apply (Hl o key Ho); [eauto|].
Qed.
End ResetMore.

(** * Further properties of the recompute *)

Lemma existsb_negb_forallb {A} (f g : A → bool) (l : list A) :
  (∀ x, x ∈ l → g x = negb (f x)) → existsb g l = negb (forallb f l).
Proof.
  induction l as [|x l IH]; intros Hfg; [done|]. cbn.
  rewrite (Hfg x) by (by left). rewrite IH by (intros y Hy; apply Hfg; by right).
  by destruct (f x), (forallb f l).
Qed.

(** X19: an observer without active provider, snapshot and child
    recomputes to no error and to the flags of an untouched valid form:
    the flags reduced with [every] are true, those reduced with [some] are
    false. *)
Theorem recompute_empty (s : Observer.t) (h : Heap) :
  Observer.refs s = ∅ →
  Observer.inactiveRefs s = ∅ →
  Observer.observers s = [] →
  recompute s h = (∅, empty_flags)
  ∧ (∀ flag, empty_flags !! flag =
       Some (match strategy_of flag with every => true | some => false end)).
Proof.
  intros Hr Hi Ho. split.
  - unfold recompute, vms, values. rewrite Hr, Hi, Ho, !map_to_list_empty. reflexivity.
  - by intros [].
Qed.

(** X20: opposite flags stay opposite.  For each of the pairs
    pristine/dirty, untouched/touched, valid/invalid and passed/failed: if
    in every candidate the second flag is the negation of the first, then
    so it is in the aggregate. *)
Theorem recompute_opposite_flags (s : Observer.t) (h : Heap) (a b : Flag) :
  (a, b) ∈ opposite_flags →
  (∀ vm, vm ∈ vms s h → truthy (vm_flags vm !! b) = negb (truthy (vm_flags vm !! a))) →
  (recompute s h).2 !! b = negb <$> (recompute s h).2 !! a.
Proof.
  intros Hab Hopp. unfold recompute. cbn [snd]. rewrite !collect_flags_lookup.
  assert (Hs : strategy_of a = every ∧ strategy_of b = some).
  { unfold opposite_flags in Hab.
    repeat (apply elem_of_cons in Hab as [[= -> ->]|Hab]; [done|]).
    by apply elem_of_nil in Hab. }
  destruct Hs as [-> ->]. cbn. f_equal. by apply existsb_negb_forallb.
Qed.

(** * The aggregate across a removal and a return *)

Lemma array_method_perm {A} (method : Strategy) (f : A → bool) (l l' : list A) :
  l ≡ₚ l' → array_method method f l = array_method method f l'.
Proof.
  intros Hp. destruct method; cbn; induction Hp as [|x l l' _ IH|x y l|l l' l'' _ IH1 _ IH2];
    cbn; try done; try congruence; by destruct (f x), (f y).
Qed.

Lemma collect_flags_perm (cands cands' : list VM) :
  cands ≡ₚ cands' → collect_flags cands = collect_flags cands'.
Proof.
  intros Hp. apply map_eq. intros flag. rewrite !collect_flags_lookup.
  f_equal. by apply array_method_perm.
Qed.

Lemma collect_errors_lookup_NoDup (cands : list VM) (key : string) (e : ErrVal) :
  NoDup (vm_id <$> cands) →
  collect_errors cands !! key = Some e
  ↔ ∃ vm, vm ∈ cands ∧ vm_id vm = key ∧ vm_errors vm = e.
Proof.
  intros Hnd. rewrite collect_errors_last. split.
  - intros (vm & Hlast & ->)%fmap_Some.
    apply last_Some_elem_of, list_elem_of_filter in Hlast as [Hid Hin]. eauto.
  - intros (vm & Hin & <- & <-). by rewrite (last_filter_NoDup cands vm Hnd Hin).
Qed.

Lemma collect_errors_perm (cands cands' : list VM) :
  NoDup (vm_id <$> cands) → cands ≡ₚ cands' →
  collect_errors cands = collect_errors cands'.
Proof.
  intros Hnd Hp.
  assert (Hnd' : NoDup (vm_id <$> cands')) by (by rewrite <- Hp).
  assert (Hsame : ∀ key, collect_errors cands !! key = collect_errors cands' !! key).
  { intros key. apply option_eq. intros e.
    rewrite !collect_errors_lookup_NoDup by done. by setoid_rewrite Hp. }
  apply JsObject_eq.
  - apply map_eq. intros key. rewrite !collect_errors_own.
    destruct (decide (key = "__proto__")); [done | apply Hsame].
  - rewrite !JsObject_prototype_lookup. apply Hsame.
Qed.

Lemma values_delete {V} (m : gmap string V) (key : string) (v : V) :
  m !! key = Some v → values m ≡ₚ v :: values (delete key m).
Proof.
  intros Hk. unfold values. by rewrite <- (map_to_list_delete m key v Hk).
Qed.

Lemma values_insert {V} (m : gmap string V) (key : string) (v : V) :
  m !! key = None → values (<[key := v]> m) ≡ₚ v :: values m.
Proof.
  intros Hk. unfold values. by rewrite (map_to_list_insert m key v Hk).
Qed.

(** X21: a persistent provider that leaves does not change the aggregate.
    If the provider is registered under its own id, which is not
    [__proto__], no snapshot is cached under that id and the candidates'
    ids are pairwise distinct, then after [unsubscribe] the watched
    expression has the value it had before: the snapshot stands in for the
    provider. *)
Theorem persistent_removal_keeps_aggregate {impl : ProviderImpl} (NODE_ENV : string)
    (s : Observer.t) (h : Heap) (id : string) (l : loc) :
  id ≠ "__proto__" →
  Observer.refs s !! id = Some l →
  Provider.id (h !!! l) = id →
  Provider.persist (h !!! l) = true →
  Observer.inactiveRefs s !! id = None →
  NoDup (vm_id <$> vms s h) →
  let r := unsubscribe NODE_ENV id kind_provider s h in
  vms (this r) (heap r) ≡ₚ vms s h
  ∧ recompute (this r) (heap r) = recompute s h.
Proof.
  intros Hproto Hr Hid Hp Hc Hnd r. subst r. cbn [unsubscribe].
  destruct (removeProvider_persist NODE_ENV s h id l Hr Hp) as (-> & -> & _).
  rewrite (assign_inactive_ordinary id _ s Hproto).
  assert (Hperm : vms (Observer.set_refs (delete id (Observer.refs s))
                         (Observer.set_inactiveRefs
                            (<[id:=snapshot id (h !!! l)]> (Observer.inactiveRefs s)) s)) h
                  ≡ₚ vms s h).
  { unfold vms. obs_simpl.
    rewrite (values_delete (Observer.refs s) id l Hr).
    rewrite (values_insert (Observer.inactiveRefs s) id _ Hc).
    rewrite !fmap_cons.
    replace (vm_of_inactive (snapshot id (h !!! l))) with (vm_of_provider (h !!! l))
      by (unfold vm_of_inactive, vm_of_provider, snapshot; cbn; by rewrite Hid).
    cbn [app]. symmetry. apply Permutation_middle. }
  split; [done|]. unfold recompute. f_equal.
  - symmetry. by apply collect_errors_perm.
  - by apply collect_flags_perm.
Qed.

(** X22: a persistent provider that comes back does not change the
    aggregate either.  If a snapshot is cached under the provider's id and
    records that id, the id is not a key of [refs], the provider is not
    registered under another key and the candidates' ids are pairwise
    distinct, then after [subscribe] the watched expression has the value
    it had before: the restored provider stands in for the snapshot. *)
Theorem persistent_return_keeps_aggregate {impl : ProviderImpl}
    {contract : ProviderContract impl}
    (s : Observer.t) (h : Heap) (l : loc) (st : InactiveRefCache.t) :
  let id := Provider.id (h !!! l) in
  Provider.persist (h !!! l) = true →
  Observer.inactiveRefs s !! id = Some st →
  InactiveRefCache.id st = id →
  Observer.refs s !! id = None →
  (∀ key, Observer.refs s !! key ≠ Some l) →
  NoDup (vm_id <$> vms s h) →
  let r := subscribe (AsProvider l) s h in
  vms (this r) (heap r) ≡ₚ vms s h
  ∧ recompute (this r) (heap r) = recompute s h.
Proof.
  intros id Hp Hc Hst Hr Hl Hnd r. subst r.
  rewrite (subscribe_persist_cached s h l st Hp Hc). fold id. cbn [this heap].
  assert (Hperm : vms (Observer.set_inactiveRefs (delete id (Observer.inactiveRefs s))
                         (Observer.set_refs (<[id:=l]> (Observer.refs s)) s))
                      (<[l:=restored st (h !!! l)]> h)
                  ≡ₚ vms s h).
  { unfold vms. obs_simpl.
    rewrite (values_insert (Observer.refs s) id l Hr).
    rewrite (values_delete (Observer.inactiveRefs s) id st Hc).
    rewrite !fmap_cons, lookup_total_insert_eq.
    replace (vm_of_provider (restored st (h !!! l))) with (vm_of_inactive st)
      by (unfold vm_of_inactive, vm_of_provider, restored; cbn; by rewrite Hst).
    assert (Hsame : (λ l', vm_of_provider (<[l:=restored st (h !!! l)]> h !!! l'))
                      <$> values (Observer.refs s)
                    = (λ l', vm_of_provider (h !!! l')) <$> values (Observer.refs s)).
    { apply list_fmap_ext. intros i l' Hi.
      rewrite lookup_total_insert_ne; [done|]. intros <-.
      apply list_elem_of_lookup_2, elem_of_values in Hi as [key Hk]. by apply (Hl key). }
    rewrite Hsame. cbn [app]. apply Permutation_middle. }
  split; [done|]. unfold recompute. f_equal.
  - symmetry. by apply collect_errors_perm.
  - by apply collect_flags_perm.
Qed.

(** * Keys that are names of [Object.prototype] *)

Section Inherited.
Context {impl : ProviderImpl}.

Implicit Types (s : Observer.t) (h : Heap) (l : loc).

(** X23: [setErrors(errors)], when every key of the argument that an
    observer of the tree has no provider under is an ordinary name.  It
    completes normally and leaves the observers as they were; it calls
    [setErrors(errors[key])] on the provider registered under [key], for
    every key of the argument that is a key of [refs]; a key without an
    active provider causes no call and no change; every child observer
    receives the same argument and does the same, at any depth. *)
Theorem setErrors_forwards (errors : gmap string (list string)) s h :
  (∀ o key, in_tree o s → is_Some (errors !! key) →
            Observer.refs o !! key = None → ordinary key) →
  let r := setErrors errors s h in
  value r = Normal
  ∧ this r = s
  ∧ trace r =
      omap (λ key, (λ provider, CallSetErrors provider (default [] (errors !! key)))
                     <$> Observer.refs s !! key) (keys errors)
      ++ concat ((λ o, trace (setErrors errors o h)) <$> Observer.observers s)
  ∧ heap r = replay (trace r) h
  ∧ (∀ e, e ∈ trace r ↔
       ∃ o key l msgs, in_tree o s ∧ errors !! key = Some msgs
                       ∧ Observer.refs o !! key = Some l ∧ e = CallSetErrors l msgs)
  ∧ ((∀ o key, in_tree o s → is_Some (errors !! key) → Observer.refs o !! key = None) →
     trace r = [] ∧ heap r = h).
Proof.
  intros Hok r. subst r.
  assert (Hok' : ∀ o key, in_tree o s → is_Some (errors !! key) →
                          Observer.refs o !! key = None → key ∉ Object_prototype)
    by (intros o key Ho Hm Hk; by destruct (Hok o key Ho Hm Hk)).
  assert (Hchildren : (λ o, trace (setErrors errors o h)) <$> Observer.observers s
                      = setErrors_calls errors <$> Observer.observers s).
  { apply list_fmap_ext. intros i o Hi. rewrite setErrors_normal; [done|].
    intros o' key Ho'. apply Hok'. eapply in_tree_child; [|done].
    by eapply list_elem_of_lookup_2. }
  rewrite Hchildren, (setErrors_normal errors s h Hok'). obs_simpl.
  split; [done|]. split; [done|]. split; [by destruct s|]. split; [done|].
  split; [apply elem_of_setErrors_calls|].
  intros Hnone.
  assert (Hnil : setErrors_calls errors s = []).
  { destruct (setErrors_calls errors s) as [|e t] eqn:Hc; [done|]. exfalso.
    assert (He : e ∈ setErrors_calls errors s) by (rewrite Hc; left).
    apply elem_of_setErrors_calls in He as (o & key & l & msgs & Ho & Hm & Hk & _).
    rewrite (Hnone o key Ho) in Hk; [done | eauto]. }
  by rewrite Hnil.
Qed.

(** X24: [setErrors(errors)] throws a [TypeError] as soon as a key of the
    argument is a name of [Object.prototype] under which an observer of the
    tree has no provider.  The observers are left as they were, and what
    was called before the throw are [setErrors] calls on providers
    registered under keys of the argument; when the observer short of the
    provider is the receiver itself, all of them are its own providers: no
    child observer has received the argument. *)
Theorem setErrors_stops_at_inherited_key (errors : gmap string (list string)) s h o key :
  in_tree o s →
  is_Some (errors !! key) →
  Observer.refs o !! key = None →
  key ∈ Object_prototype →
  let r := setErrors errors s h in
  value r = TypeError
  ∧ this r = s
  ∧ heap r = replay (trace r) h
  ∧ (∀ e, e ∈ trace r →
       ∃ o' key' l msgs, in_tree o' s ∧ errors !! key' = Some msgs
                         ∧ Observer.refs o' !! key' = Some l ∧ e = CallSetErrors l msgs)
  ∧ (o = s →
     ∀ e, e ∈ trace r →
       ∃ key' l msgs, errors !! key' = Some msgs
                      ∧ Observer.refs s !! key' = Some l ∧ e = CallSetErrors l msgs).
Proof.
  intros Ho Hm Hk Hproto r. subst r.
  split; [by eapply setErrors_throws|].
  destruct (setErrors_sound errors s h) as (Hthis & Hheap & Hcalls & _).
  split; [done|]. split; [done|].
  split; [by intros e He%Hcalls%elem_of_setErrors_calls|].
  intros -> e. rewrite setErrors_unfold, bind_unfold.
  destruct (forEachUntil_setErrors_sound errors (keys errors) s h)
    as (_ & _ & Htrace & Hthrow).
  rewrite (proj2 Hthrow) by (exists key; split; [by apply elem_of_keys | done]).
  cbn [trace mret Method_ret]. rewrite app_nil_r. intros He.
  destruct (Htrace e He) as (key' & l & [msgs Hmsgs]%elem_of_keys & Hl & ->).
  exists key', l, msgs. by rewrite Hmsgs.
Qed.

(** X25: with [persist] set, no cached entry under its id and an id that
    reads as [undefined] on the cache, registering a provider only stores
    it in [refs]: nothing is called on the provider (the trace is empty, so
    neither [setFlags] nor [applyResult] runs), the heap, and with it the
    provider's flags, errors and failed rules, is untouched, and
    [inactiveRefs] and [observers] are as before. *)
Theorem subscribe_persist_no_snapshot s h l :
  Provider.persist (h !!! l) = true →
  Observer.inactiveRefs s !! Provider.id (h !!! l) = None →
  unshadowed s (Provider.id (h !!! l)) →
  let r := subscribe (AsProvider l) s h in
  this r = Observer.set_refs (<[Provider.id (h !!! l) := l]> (Observer.refs s)) s
  ∧ trace r = []
  ∧ heap r = h
  ∧ Observer.inactiveRefs (this r) = Observer.inactiveRefs s
  ∧ Observer.observers (this r) = Observer.observers s
  ∧ (∀ id, id ≠ Provider.id (h !!! l) →
       Observer.refs (this r) !! id = Observer.refs s !! id).
Proof.
  intros Hp Hc Hun r. subst r.
  rewrite (subscribe_persist_fresh s h l Hp (lookup_inactive_unshadowed _ _ Hc Hun)). cbn.
  repeat split. intros id Hid. by rewrite lookup_insert_ne.
Qed.
End Inherited.

Section ProtoSnapshot.
Context {impl : ProviderImpl} {contract : ProviderContract impl}.
Variable NODE_ENV : string.

Lemma cleared_inactivePrototype (s : Observer.t) :
  Observer.inactivePrototype (cleared s) = Observer.inactivePrototype s.
Proof. by destruct s. Qed.

Lemma cleared_inactiveRefs (s : Observer.t) : Observer.inactiveRefs (cleared s) = ∅.
Proof. by destruct s. Qed.

(** X26: the snapshot of a persistent provider registered under
    [__proto__] is kept as the prototype of [inactiveRefs], not as an entry.
    When the provider leaves, [inactiveRefs] gets no entry and the
    candidates of the watched expression lose the provider without gaining
    a snapshot.  [reset] does not remove the snapshot, and neither does a
    restoration: a persistent provider with that id that registers later,
    after a [reset] or not, is restored from it, and the snapshot stays. *)
Theorem proto_snapshot_outlives (s : Observer.t) (h h' : Heap) (l n : loc) :
  Observer.refs s !! "__proto__" = Some l →
  Provider.persist (h !!! l) = true →
  Observer.inactiveRefs s !! "__proto__" = None →
  Provider.id (h' !!! n) = "__proto__" →
  Provider.persist (h' !!! n) = true →
  let state := snapshot "__proto__" (h !!! l) in
  let r1 := unsubscribe NODE_ENV "__proto__" kind_provider s h in
  let r2 := reset (this r1) (heap r1) in
  let r3 := subscribe (AsProvider n) (this r1) h' in
  let r4 := subscribe (AsProvider n) (this r2) h' in
  Observer.inactiveRefs (this r1) = Observer.inactiveRefs s
  ∧ Observer.inactivePrototype (this r1) = Some state
  ∧ vms s h ≡ₚ vm_of_provider (h !!! l) :: vms (this r1) (heap r1)
  ∧ Observer.inactiveRefs (this r2) = ∅
  ∧ Observer.inactivePrototype (this r2) = Some state
  ∧ trace r3 = [CallSetFlags n (InactiveRefCache.flags state); CallApplyResult n state]
  ∧ heap r3 !!! n = restored state (h' !!! n)
  ∧ Observer.inactivePrototype (this r3) = Some state
  ∧ trace r4 = trace r3
  ∧ Observer.inactivePrototype (this r4) = Some state.
Proof.
  intros Hr Hp Hc Hid Hpn state r1 r2 r3 r4.
  assert (H1 : this r1 = Observer.set_refs (delete "__proto__" (Observer.refs s))
                           (Observer.set_inactivePrototype (Some state) s)
               ∧ heap r1 = h).
  { subst r1. cbn [unsubscribe].
    destruct (removeProvider_persist NODE_ENV s h "__proto__" l Hr Hp) as (-> & -> & _).
    by rewrite (assign_inactive_proto _ s Hc). }
  destruct H1 as [Hthis1 Hheap1].
  assert (Hthis2 : this r2 = cleared (this r1)) by (subst r2; by rewrite reset_spec).
  assert (Hstored : ∀ s', Observer.inactiveRefs s' !! "__proto__" = None →
                          Observer.inactivePrototype s' = Some state →
                          lookup_inactive s' (Provider.id (h' !!! n)) = Stored state).
  { intros s' Hnone Hsome. rewrite Hid. unfold lookup_inactive. by rewrite Hnone, Hsome. }
  assert (Hsub : ∀ s', Observer.inactiveRefs s' !! "__proto__" = None →
                       Observer.inactivePrototype s' = Some state →
                       let r := subscribe (AsProvider n) s' h' in
                       trace r = [CallSetFlags n (InactiveRefCache.flags state);
                                  CallApplyResult n state]
                       ∧ heap r !!! n = restored state (h' !!! n)
                       ∧ Observer.inactivePrototype (this r) = Some state).
  { intros s' Hnone Hsome. cbn zeta.
    rewrite (subscribe_persist_restored s' h' n state Hpn (Hstored s' Hnone Hsome)).
    cbn. by rewrite lookup_total_insert_eq. }
  split; [by rewrite Hthis1|]. split; [by rewrite Hthis1|]. split.
  { rewrite Hthis1, Hheap1. unfold vms. obs_simpl.
    rewrite (values_delete (Observer.refs s) "__proto__" l Hr) at 1.
    by rewrite fmap_cons. }
  split; [rewrite Hthis2; apply cleared_inactiveRefs|].
  split; [by rewrite Hthis2, cleared_inactivePrototype, Hthis1|].
  destruct (Hsub (this r1)) as (Ht3 & Hh3 & Hp3); [by rewrite Hthis1 | by rewrite Hthis1 |].
  destruct (Hsub (this r2)) as (Ht4 & Hh4 & Hp4).
  { by rewrite Hthis2, cleared_inactiveRefs, lookup_empty. }
  { by rewrite Hthis2, cleared_inactivePrototype, Hthis1. }
  subst r3 r4. rewrite Ht3, Ht4. done.
Qed.
End ProtoSnapshot.

(** * The further properties on the sample states *)

Lemma removeProvider_discards_witness :
  Observer.refs (this (unsubscribe (impl:=plain_provider) "development" "name"
                         kind_provider registered_form sample_heap)) !! "name" = None
  ∧ trace (unsubscribe (impl:=plain_provider) "development" "name"
             kind_provider registered_form sample_heap) = [].
Proof.
  destruct (removeProvider_discards (impl:=plain_provider) "development"
              registered_form sample_heap "name" 4%positive eq_refl eq_refl)
    as (_ & Hgone & _ & _ & _ & Ht).
  split; [exact Hgone | exact Ht].
Defined.

Lemma removeProvider_caches_witness :
  Observer.inactiveRefs (this (unsubscribe (impl:=plain_provider) "development" "email"
                                 kind_provider registered_form sample_heap)) !! "email"
  = Some (InactiveRefCache.mk "email" (flags_of false) ["required"] email_rules).
Proof.
  destruct (removeProvider_caches (impl:=plain_provider) "development"
              registered_form sample_heap "email" 1%positive eq_refl eq_refl)
    as (_ & Hentry & _).
  destruct Hentry as [Hsnap _]; [discriminate|].
  exact Hsnap.
Defined.

Lemma registry_keeps_aggregates_witness :
  let ops := [ Subscribe (AsProvider 1%positive); WatcherFires;
               Unsubscribe "email" kind_provider; Subscribe (AsProvider 4%positive) ] in
  let r := run (impl:=plain_provider) "development" ops empty_form sample_heap in
  Observer.errors (this r) = (recompute email_form sample_heap).1
  ∧ Observer.flags (this r) !! invalid = Some true
  ∧ (recompute (this r) (heap r)).2 !! invalid = Some true.
Proof.
  cbn zeta.
  destruct (registry_keeps_aggregates (impl:=plain_provider) "development"
              empty_form sample_heap
              [ Subscribe (AsProvider 1%positive); WatcherFires;
                Unsubscribe "email" kind_provider; Subscribe (AsProvider 4%positive) ] 4)
    as (_ & _ & _ & Hfired).
  destruct (Hfired [Subscribe (AsProvider 1%positive)]
              [Unsubscribe "email" kind_provider; Subscribe (AsProvider 4%positive)]
              eq_refl) as [Herrors Hflags].
  - intros Hin. repeat (apply elem_of_cons in Hin as [Heq|Hin]; [discriminate Heq|]).
    by apply elem_of_nil in Hin.
  - split; [exact Herrors|]. split; [|reflexivity].
    cbn [take] in Hflags. rewrite Hflags. reflexivity.
Defined.

Lemma subscribe_replaces_witness :
  Observer.refs (this (subscribe (impl:=plain_provider) (AsProvider 2%positive)
                         registered_form sample_heap)) !! "email" = Some 2%positive.
Proof.
  destruct (subscribe_replaces (impl:=plain_provider) registered_form sample_heap 2%positive)
    as (Hnew & _); [by exists 1%positive|].
  exact Hnew.
Defined.

Lemma cache_keyed_along_run_witness :
  cache_keyed (this (run (impl:=plain_provider) "development" remount_plain
                       empty_form sample_heap)).
Proof.
  apply (cache_keyed_along_run (impl:=plain_provider) "development"
           empty_form sample_heap remount_plain 3).
  intros key c Hc. cbn in Hc. by rewrite lookup_empty in Hc.
Defined.

Lemma registry_without_persist_witness :
  trace (run (impl:=plain_provider) "development"
           [Subscribe (AsProvider 4%positive); Unsubscribe "name" kind_provider]
           empty_form plain_heap) = [].
Proof.
  destruct (registry_without_persist (impl:=plain_provider) "development"
              empty_form plain_heap
              [Subscribe (AsProvider 4%positive); Unsubscribe "name" kind_provider])
    as (_ & Ht & _); [|exact Ht].
  intros l. rewrite lookup_total_alt.
  destruct (plain_heap !! l) as [p|] eqn:Hl; [|reflexivity].
  unfold plain_heap in Hl. apply lookup_singleton_Some in Hl as [_ <-]. reflexivity.
Defined.

Lemma refs_keyed_along_run_witness :
  refs_keyed
    (this (run (impl:=plain_provider) "development" remount_persist empty_form sample_heap))
    (heap (run (impl:=plain_provider) "development" remount_persist empty_form sample_heap)).
Proof.
  destruct (refs_keyed_along_run (impl:=plain_provider)
              (keeps:=contract_keeps_identity (contract:=plain_provider_contract))
              "development" empty_form sample_heap remount_persist 3) as [Hk _];
    [|exact Hk].
  intros key l Hl. cbn in Hl. by rewrite lookup_empty in Hl.
Defined.

Lemma remount_restores_state_witness :
  this (subscribe (impl:=plain_provider) (AsProvider 1%positive)
          (this (unsubscribe (impl:=plain_provider) "development" "email" kind_provider
                   email_form sample_heap))
          (heap (unsubscribe (impl:=plain_provider) "development" "email" kind_provider
                   email_form sample_heap)))
  = email_form.
Proof.
  destruct (remount_restores_state (impl:=plain_provider)
              (contract:=plain_provider_contract) "development"
              email_form sample_heap 1%positive) as (Hthis & _);
    [discriminate | reflexivity | reflexivity | reflexivity |].
  exact Hthis.
Defined.

Lemma unsubscribe_observer_first_witness :
  Observer.observers
    (this (unsubscribe (impl:=plain_provider) "development" "obs_1" kind_observer
             nested_form sample_heap))
  = [ leaf_form "obs_0" true 2%positive "email" ].
Proof.
  destruct (unsubscribe_observer_first (impl:=plain_provider) "development"
              nested_form sample_heap "obs_1") as [_ Hfirst].
  rewrite (Hfirst [leaf_form "obs_0" true 2%positive "email"] _ [] eq_refl eq_refl).
  - reflexivity.
  - intros o' ->%list_elem_of_singleton. discriminate.
Defined.

Lemma register_unregister_witness :
  unregister (impl:=plain_provider) "development" (data "obs_0" false)
    (Some (Observer.set_observers [data "obs_0" false] empty_form)) sample_heap
  = Some (mkResult tt empty_form sample_heap []).
Proof.
  destruct (register_unregister (impl:=plain_provider) "development"
              (data "obs_0" false) empty_form sample_heap) as (_ & _ & Hround).
  destruct Hround as (_ & Hback & _); [|exact Hback].
  intros o Ho. cbn in Ho. by apply elem_of_nil in Ho.
Defined.

Lemma created_child_clears_every_flags_witness :
  ∃ r, created (impl:=plain_provider) "obs_0" false (Some name_form) sample_heap = Some r
       ∧ (recompute name_form sample_heap).2 !! valid = Some true
       ∧ (recompute (this r) sample_heap).2 !! valid = Some false.
Proof.
  destruct (created_child_clears_every_flags (impl:=plain_provider) "obs_0" false
              name_form sample_heap) as (r & Hr & _ & _ & _ & _ & Hflags).
  exists r. split; [exact Hr|]. split; [reflexivity|]. exact (Hflags valid eq_refl).
Defined.

Lemma validate_rejects_or_fails_witness :
  (validate (impl:=rejecting_provider) false email_form sample_heap).1 = Rejected.
Proof.
  destruct (validate_rejects_or_fails (impl:=rejecting_provider) false email_form sample_heap)
    as [Hrej _].
  apply Hrej. exists 1%positive. split; [|reflexivity].
  by apply (reaches_own sample_heap email_form "email" 1%positive).
Defined.

Lemma passes_calls_back_witness :
  (passes (impl:=plain_provider) (Some (Fulfilled 7)) name_form sample_heap).2 = true
  ∧ (passes (impl:=plain_provider) (Some (Fulfilled 7)) email_form sample_heap).2 = false.
Proof.
  destruct (passes_calls_back (impl:=plain_provider) (Some (Fulfilled 7))
              name_form sample_heap) as (_ & _ & Hcalled & _).
  split; [|reflexivity]. apply Hcalled. split; [reflexivity | by eexists].
Defined.

Lemma reset_forgets_snapshots_witness :
  trace (subscribe (impl:=plain_provider) (AsProvider 3%positive) cached_form sample_heap)
  = [ CallSetFlags 3%positive (flags_of false);
      CallApplyResult 3%positive
        (InactiveRefCache.mk "email" (flags_of false) ["required"] email_rules) ]
  ∧ trace (subscribe (impl:=plain_provider) (AsProvider 3%positive)
             (this (reset (impl:=plain_provider) cached_form sample_heap)) sample_heap) = [].
Proof.
  split; [reflexivity|].
  destruct (reset_forgets_snapshots (impl:=plain_provider) cached_form sample_heap
              sample_heap (this (reset (impl:=plain_provider) cached_form sample_heap))
              3%positive (in_tree_here _)) as (_ & Ht & _); [|exact Ht].
  split; [|by left]. split; [|discriminate].
  refine (bool_decide_unpack _ _). vm_compute. exact I.
Defined.

Lemma email_form_only_email (o : Observer.t) (key : string) (l : loc) :
  in_tree o email_form → Observer.refs o !! key = Some l → l = 1%positive.
Proof.
  intros Ho Hk. inversion Ho as [|o' c s' Hc Hoc]; subst.
  - unfold email_form, leaf_form in Hk. cbn [Observer.refs] in Hk.
    by apply lookup_singleton_Some in Hk as [_ <-].
  - cbn in Hc. by apply elem_of_nil in Hc.
Qed.

Lemma reset_frame_witness :
  heap (reset (impl:=plain_provider) email_form sample_heap) !!! 4%positive
  = sample_heap !!! 4%positive.
Proof.
  apply (reset_frame (impl:=plain_provider) email_form sample_heap 4%positive).
  intros (o & key & Ho & Hk). by apply (email_form_only_email o key _ Ho) in Hk.
Defined.

Lemma setErrors_frame_witness :
  heap (setErrors (impl:=plain_provider) {[ "email" := ["bad"] ]} email_form sample_heap)
    !!! 4%positive
  = sample_heap !!! 4%positive.
Proof.
  apply (setErrors_frame (impl:=plain_provider) {[ "email" := ["bad"] ]}
           email_form sample_heap 4%positive).
  intros o key Ho _ Hk. by apply (email_form_only_email o key _ Ho) in Hk.
Defined.

Lemma recompute_empty_witness :
  recompute empty_form sample_heap = (∅, empty_flags).
Proof.
  destruct (recompute_empty empty_form sample_heap eq_refl eq_refl eq_refl) as [Hr _].
  exact Hr.
Defined.

Lemma recompute_opposite_flags_witness :
  (recompute email_form sample_heap).2 !! invalid
  = negb <$> (recompute email_form sample_heap).2 !! valid.
Proof.
  apply (recompute_opposite_flags email_form sample_heap valid invalid).
  - do 2 right; left.
  - intros vm [(key & l & Hk & ->)|[(key & c & Hk & ->)|(o & Ho & ->)]]%elem_of_vms.
    + unfold email_form, leaf_form in Hk. cbn [Observer.refs] in Hk.
      apply lookup_singleton_Some in Hk as [_ <-]. reflexivity.
    + cbn in Hk. by rewrite lookup_empty in Hk.
    + cbn in Ho. by apply elem_of_nil in Ho.
Defined.

Lemma persistent_removal_keeps_aggregate_witness :
  recompute
    (this (unsubscribe (impl:=plain_provider) "development" "email" kind_provider
             email_form sample_heap))
    (heap (unsubscribe (impl:=plain_provider) "development" "email" kind_provider
             email_form sample_heap))
  = recompute email_form sample_heap.
Proof.
  destruct (persistent_removal_keeps_aggregate (impl:=plain_provider) "development"
              email_form sample_heap "email" 1%positive)
    as [_ Hsame]; [discriminate | reflexivity | reflexivity | reflexivity | reflexivity
                  | | exact Hsame].
  refine (bool_decide_unpack _ _); vm_compute; exact I.
Defined.

Lemma persistent_return_keeps_aggregate_witness :
  recompute
    (this (subscribe (impl:=plain_provider) (AsProvider 3%positive) cached_form sample_heap))
    (heap (subscribe (impl:=plain_provider) (AsProvider 3%positive) cached_form sample_heap))
  = recompute cached_form sample_heap.
Proof.
  destruct (persistent_return_keeps_aggregate (impl:=plain_provider)
              (contract:=plain_provider_contract) cached_form sample_heap 3%positive
              (snapshot "email" (sample_heap !!! 1%positive))
              eq_refl eq_refl eq_refl eq_refl) as [_ Hsame]; [| |exact Hsame].
  - intros key Hk. cbn in Hk. by rewrite lookup_empty in Hk.
  - refine (bool_decide_unpack _ _); vm_compute; exact I.
Defined.

Lemma setErrors_forwards_witness :
  trace (setErrors (impl:=plain_provider) {[ "zip" := ["bad"] ]} empty_form sample_heap) = []
  ∧ heap (setErrors (impl:=plain_provider) {[ "zip" := ["bad"] ]} empty_form sample_heap)
    = sample_heap.
Proof.
  assert (Hempty : ∀ o key, in_tree o empty_form → Observer.refs o !! key = None).
  { intros o key Ho. inversion Ho as [|o' c s' Hc Hoc]; subst.
    - apply lookup_empty.
    - cbn in Hc. by apply elem_of_nil in Hc. }
  destruct (setErrors_forwards (impl:=plain_provider) {[ "zip" := ["bad"] ]}
              empty_form sample_heap) as (_ & _ & _ & _ & _ & Hignored).
  - intros o key Ho [msgs Hm] _. apply lookup_singleton_Some in Hm as [<- _].
    split; [|discriminate]. refine (bool_decide_unpack _ _). vm_compute. exact I.
  - apply Hignored. intros o key Ho _. by apply Hempty.
Defined.

Lemma setErrors_stops_at_inherited_key_witness :
  value (setErrors (impl:=plain_provider) {[ "constructor" := ["bad"] ]}
           parent_form sample_heap) = TypeError
  ∧ trace (setErrors (impl:=plain_provider) {[ "constructor" := ["bad"] ]}
             parent_form sample_heap) = [].
Proof.
  destruct (setErrors_stops_at_inherited_key (impl:=plain_provider)
              {[ "constructor" := ["bad"] ]} parent_form sample_heap
              (leaf_form "obs_0" false 1%positive "email") "constructor")
    as (Hthrow & _).
  - eapply in_tree_child; [cbn; left | apply in_tree_here].
  - by eexists.
  - reflexivity.
  - refine (bool_decide_unpack _ _). vm_compute. exact I.
  - split; [exact Hthrow | reflexivity].
Defined.

Lemma subscribe_persist_no_snapshot_witness :
  trace (subscribe (impl:=plain_provider) (AsProvider 1%positive) empty_form sample_heap) = []
  ∧ heap (subscribe (impl:=plain_provider) (AsProvider 1%positive) empty_form sample_heap)
    = sample_heap.
Proof.
  destruct (subscribe_persist_no_snapshot (impl:=plain_provider)
              empty_form sample_heap 1%positive eq_refl eq_refl) as (_ & Ht & Hh & _).
  - split; [|by left]. split; [|discriminate].
    refine (bool_decide_unpack _ _). vm_compute. exact I.
  - split; [exact Ht | exact Hh].
Defined.

Lemma proto_snapshot_outlives_witness :
  let r1 := unsubscribe (impl:=plain_provider) "development" "__proto__" kind_provider
              proto_form builtin_heap in
  Observer.inactiveRefs (this r1) = ∅
  ∧ vms (this r1) (heap r1) = []
  ∧ trace (subscribe (impl:=plain_provider) (AsProvider 8%positive)
             (this (reset (impl:=plain_provider) (this r1) (heap r1))) builtin_heap)
    = [ CallSetFlags 8%positive (flags_of false);
        CallApplyResult 8%positive (snapshot "__proto__" (builtin_heap !!! 8%positive)) ].
Proof.
  cbn zeta.
  destruct (proto_snapshot_outlives (impl:=plain_provider)
              (contract:=plain_provider_contract) "development"
              proto_form builtin_heap builtin_heap 8%positive 8%positive
              eq_refl eq_refl eq_refl eq_refl eq_refl)
    as (Hrefs & _ & _ & _ & _ & Ht3 & _ & _ & Ht4 & _).
  split; [exact Hrefs|]. split; [reflexivity|].
  rewrite Ht4. exact Ht3.
Defined.

(** ** The name [__proto__] *)

(** Under [__proto__] a persistent provider that leaves and comes back is
    restored, but the observer is not what it was: the snapshot stays
    behind as the prototype of [inactiveRefs]. *)
Example scenario_remount_under_proto :
  let r1 := unsubscribe (impl:=plain_provider) "development" "__proto__" kind_provider
              proto_form builtin_heap in
  let r2 := subscribe (impl:=plain_provider) (AsProvider 8%positive) (this r1) (heap r1) in
  Observer.refs (this r2) = Observer.refs proto_form
  ∧ Observer.inactiveRefs (this r2) = ∅
  ∧ Observer.inactivePrototype (this r2)
    = Some (snapshot "__proto__" (builtin_heap !!! 8%positive))
  ∧ this r2 ≠ proto_form
  ∧ heap r2 = builtin_heap.
Proof.
  cbn zeta. split; [reflexivity|]. split; [reflexivity|]. split; [reflexivity|]. split.
  - intros H. apply (f_equal Observer.inactivePrototype) in H. vm_compute in H.
    discriminate.
  - apply map_eq. intros l. vm_compute. reflexivity.
Qed.

(** A candidate whose id is [__proto__] leaves no entry in the recomputed
    [errors]: its messages become the prototype of that object. *)
Example scenario_recompute_under_proto :
  let r := recompute proto_form builtin_heap in
  JsObject.own r.1 = ∅
  ∧ JsObject.prototype r.1 = Some (Msgs ["required"])
  ∧ r.2 !! invalid = Some true.
Proof. cbn zeta. split; [|split]; reflexivity. Qed.
